(** * The rectangle-extraction pipeline of dom-a-thor (imageProcessor.ts)

    A shallow embedding of the image pipeline
    (grayscale, blur, Canny edges, dilation, contour tracing, rectangle
    selection, crop) together with the properties its specification states,
    followed by the functions of leafletUtils.ts that call the pipeline
    (mirrorImage, processHouseImage, calculateOptimalImageBounds) and by
    further properties of both.

    Conventions.
    - Typed arrays (Uint8Array, Float32Array) are lists indexed from 0, read
      with [peek] and written with [poke]; a write outside the array is
      dropped and a read outside it yields nothing, as in JavaScript.
    - Pixel coordinates, widths, heights and pixel values are integers ([Z]).
    - JavaScript numbers that are not integers are the rationals they denote
      ([Q]): every finite double is a dyadic rational and [<], [>=] on them
      are the rational comparisons.  An operation [+ - * /] on doubles gives
      the exact result rounded to the nearest double ([toDouble], with
      [jsAdd], [jsSub], [jsMul], [jsDiv]); it is written without rounding
      only on integers that stay far below [2 ^ 53] (pixel coordinates,
      indices, sums of bytes) and on the sixteenth of such a sum, where it
      is exact.  The infinities are not
      modelled: the one division by 0 of the program is a case of its own.
      NaN appears only as the content of a Float32Array cell ([None]).
      [Math.sqrt], [Math.atan2], [Math.pow] and the rounding to a Float32
      cell are supplied by a [JSMath] record.
    - [for (let i = a; i < b; i++)] is [forRange a b]; a [while] loop over a
      stack is a step function run by [runLoop].
    - The DOM (image decoding, canvases, contexts) is a [Browser] record
      that says what each call returns or throws. *)

From Stdlib Require Import ZArith QArith Qround Qabs Qminmax Qpower Lia Lqa String.
From stdpp Require Import base tactics option list list_numbers relations.

Local Open Scope Z_scope.

(** * Part I: JavaScript values *)

(** ** Typed arrays *)

Definition peek {A} (buf : list A) (i : Z) : option A :=
  if decide (0 <= i) then buf !! Z.to_nat i else None.

Definition poke {A} (i : Z) (v : A) (buf : list A) : list A :=
  if decide (0 <= i) then <[Z.to_nat i := v]> buf else buf.

Definition forRange {T} (lo hi : Z) (body : Z -> T -> T) (init : T) : T :=
  foldl (fun acc i => body i acc) init (seqZ lo (hi - lo)).

(** ** While loops

    A [while] loop is a step function, [None] when the loop condition
    fails; [runLoop] iterates it at most [fuel] times.  The loops below are
    run with a fuel that their termination lemmas show to be enough. *)

Fixpoint runLoop {T} (step : T -> option T) (fuel : nat) (s : T) : T :=
  match fuel with
  | O => s
  | S n =>
      match step s with
      | None => s
      | Some s' => runLoop step n s'
      end
  end.

(** ** Points and the 8-neighbourhood *)

Record Point := mkPoint { pt_x : Z; pt_y : Z }.

#[global] Instance Point_eq_dec : EqDecision Point.
Proof. solve_decision. Defined.

(** The nine [(dx, dy)] of [for dy in -1..1 { for dx in -1..1 }], in the
    order the loops visit them. *)
Definition offsets : list (Z * Z) :=
  dy ← seqZ (-1) 3; dx ← seqZ (-1) 3; [(dx, dy)].

Definition inBounds (width height : Z) (p : Point) : Prop :=
  0 <= pt_x p /\ pt_x p < width /\ 0 <= pt_y p /\ pt_y p < height.

#[global] Instance inBounds_dec width height p : Decision (inBounds width height p).
Proof. unfold inBounds. apply _. Defined.

Definition indexOf (width : Z) (p : Point) : Z := pt_y p * width + pt_x p.

Local Open Scope Q_scope.

(** ** JavaScript numbers and exceptions *)

(** The parts of [Math] that are not rational: values on the doubles that
    occur, as the engine computes them. *)
Record JSMath := {
  Math_sqrt : Q -> Q;
  Math_atan2 : Q -> Q -> Q;       (* Math.atan2(y, x) *)
  Math_pow : Q -> Q -> Q;         (* Math.pow(base, exponent) *)
  Math_fround : Q -> Q            (* the value kept by a Float32Array cell *)
}.

(** [Math.PI], exactly: the double 0x400921FB54442D18. *)
Definition Math_PI : Q := 884279719003555 # 281474976710656.

(** [Math.round]: the nearest integer, halves upwards. *)
Definition Math_round (q : Q) : Z := Qfloor (q + (1 # 2)).

Definition Qtrunc (q : Q) : Z := if Qle_bool 0 q then Qfloor q else Qceiling q.

(** The remainder [a % b] of JavaScript: the sign of the dividend. *)
Definition jsRem (a b : Q) : Q := a - b * inject_Z (Qtrunc (a / b)).

Definition Qltb (a b : Q) : bool := negb (Qle_bool b a).

(** ** Doubles

    A double is a rational [m * 2 ^ e] with [|m| < 2 ^ 53] and
    [-1074 <= e <= 971].  The result of an arithmetic operation is the
    exact result rounded to the nearest double, a result half-way between
    two doubles to the one whose [m] is even.  (A result beyond the largest
    double, which JavaScript replaces by an infinity, keeps its finite
    value here.) *)

(** The [e] with [2 ^ e <= |q| < 2 ^ (e + 1)], for [q] other than 0. *)
Definition binade (q : Q) : Z :=
  let k := (Z.log2 (Z.abs (Qnum q)) - Z.log2 (Zpos (Qden q)))%Z in
  if Qle_bool (2 ^ k) (Qabs q) then k else (k - 1)%Z.

(** The nearest integer, halves to the even one. *)
Definition roundHalfEven (q : Q) : Z :=
  let f := Qfloor q in
  match Qcompare (q - inject_Z f) (1 # 2) with
  | Lt => f
  | Gt => (f + 1)%Z
  | Eq => if Z.even f then f else (f + 1)%Z
  end.

(** The exponent of the last of the 53 bits of the double nearest to [q];
    it stops at -1074, where the doubles are evenly spaced. *)
Definition ulpExp (q : Q) : Z := Z.max (binade q - 52) (-1074).

Definition toDouble (q : Q) : Q :=
  if Qeq_bool q 0 then 0 else
  Qred (inject_Z (roundHalfEven (q / 2 ^ ulpExp q)) * 2 ^ ulpExp q).

Definition jsAdd (a b : Q) : Q := toDouble (a + b).
Definition jsSub (a b : Q) : Q := toDouble (a - b).
Definition jsMul (a b : Q) : Q := toDouble (a * b).
Definition jsDiv (a b : Q) : Q := toDouble (a / b).      (* [b] is not 0 *)

(** A cell of a Uint8Array keeps its value modulo 256. *)
Definition toUint8 (v : Z) : Z := (v mod 256)%Z.

(** The conversion of a number to an [unsigned long]: truncated, modulo
    [2 ^ 32]. *)
Definition toUnsignedLong (q : Q) : Z := (Qtrunc q mod 2 ^ 32)%Z.

(** [canvas.width = v], [canvas.height = v]: the value is converted to an
    unsigned long, and a canvas keeps a size up to [2 ^ 31 - 1] only: a
    larger one is replaced by the default size, 300 for the width and 150
    for the height. *)
Definition canvasSide (default : Z) (q : Q) : Z :=
  let n := toUnsignedLong q in
  if decide (n <= 2147483647)%Z then n else default.

Inductive JsError := Err (message : string).

Inductive outcome (A : Type) :=
| Ok (a : A)
| Throw (e : JsError).
Arguments Ok {A} a.
Arguments Throw {A} e.

#[global] Instance outcome_ret : MRet outcome := fun A a => Ok a.
#[global] Instance outcome_bind : MBind outcome := fun A B f m =>
  match m with
  | Ok a => f a
  | Throw e => Throw e
  end.

(** A Float32Array cell: [None] is NaN. *)
Definition f32 := option Q.

(** [a >= b] and [a < b] on cells read from a Float32Array: false when
    either side is NaN or was read outside the array. *)
Definition cellGe (a b : option Q) : bool :=
  match a, b with
  | Some a, Some b => Qle_bool b a
  | _, _ => false
  end.

Definition cellLt (a b : option Q) : bool :=
  match a, b with
  | Some a, Some b => Qltb a b
  | _, _ => false
  end.

Definition readCell (buf : list f32) (i : Z) : option Q := mjoin (peek buf i).

(** * Part II: the program, in the order of the pipeline *)

(** ** CropConfig (lines 4-21) *)

Record CropConfig := mkConfig {
  cannyLow : Q;
  cannyHigh : Q;
  dilationIterations : Z;         (* a count of passes *)
  minAreaPercent : Q;
  insetMargin : Q
}.

Definition DEFAULT_CROP_CONFIG : CropConfig :=
  {| cannyLow := 60; cannyHigh := 140; dilationIterations := 1;
     minAreaPercent := 20; insetMargin := 10 |}.

(** ** convertToGrayscale (lines 118-127) *)

(** [Math.round(0.299 * r + 0.587 * g + 0.114 * b)]; the three
    constants are the doubles nearest to the decimals written. *)
Definition luminance (r g b : Z) : Z :=
  Math_round
    (jsAdd (jsAdd (jsMul (toDouble (299 # 1000)) (inject_Z r))
                  (jsMul (toDouble (587 # 1000)) (inject_Z g)))
           (jsMul (toDouble (114 # 1000)) (inject_Z b))).

(** [data] is the RGBA byte array of an ImageData.  [new Uint8Array(n)]
    drops the fraction of [n = data.length / 4].  The loop runs while
    [i = 4 * k < data.length]; a byte read past the end is [undefined], the
    sum is then NaN and is stored as 0. *)
Definition convertToGrayscale (data : list Z) : list Z :=
  let len := Z.of_nat (length data) in
  forRange 0 ((len + 3) / 4) (fun k grayData =>
    let i := (4 * k)%Z in
    let gray :=
      match peek data i, peek data (i + 1), peek data (i + 2) with
      | Some r, Some g, Some b => toUint8 (luminance r g b)
      | _, _, _ => 0%Z
      end in
    poke k gray grayData) (replicate (Z.to_nat (len / 4)) 0%Z).

(** ** applyGaussianBlur (lines 132-159) *)

Definition kernelAt (kernel : list (list Z)) (ky kx : Z) : Z :=
  default 0%Z (peek kernel (ky + 1) ≫= fun row => peek row (kx + 1)).

(** The sum of the 3x3 neighbourhood of [(x, y)] weighted by [kernel];
    [None] when a read falls outside the buffer (the sum is NaN). *)
Definition convolve3 (kernel : list (list Z)) (data : list Z) (width x y : Z)
  : option Z :=
  forRange (-1) 2 (fun ky sum =>
    forRange (-1) 2 (fun kx sum =>
      let pixelIndex := ((y + ky) * width + (x + kx))%Z in
      s ← sum; v ← peek data pixelIndex;
      Some (s + v * kernelAt kernel ky kx)%Z) sum) (Some 0%Z).

Definition gaussKernel : list (list Z) := [[1; 2; 1]; [2; 4; 2]; [1; 2; 1]]%Z.

Definition applyGaussianBlur (grayData : list Z) (width height : Z) : list Z :=
  let kernelSum := 16 in
  forRange 1 (height - 1) (fun y blurredData =>
    forRange 1 (width - 1) (fun x blurredData =>
      let index := (y * width + x)%Z in
      let value :=
        match convolve3 gaussKernel grayData width x y with
        | Some sum => toUint8 (Math_round (inject_Z sum / kernelSum))
        | None => 0%Z                         (* NaN is stored as 0 *)
        end in
      poke index value blurredData) blurredData)
    (replicate (length grayData) 0%Z).

(** ** applyCannyEdgeDetection (lines 164-260) *)

Definition sobelX : list (list Z) := [[-1; 0; 1]; [-2; 0; 2]; [-1; 0; 1]]%Z.
Definition sobelY : list (list Z) := [[-1; -2; -1]; [0; 0; 0]; [1; 2; 1]]%Z.

Record Gradients := mkGradients {
  gradientMagnitude : list f32;
  gradientDirection : list f32
}.

(** The first pair of loops (lines 187-206). *)
Definition computeGradients (M : JSMath) (grayData : list Z) (width height : Z)
  : Gradients :=
  forRange 1 (height - 1) (fun y g =>
    forRange 1 (width - 1) (fun x g =>
      let index := (y * width + x)%Z in
      let '(magnitude, direction) :=
        match convolve3 sobelX grayData width x y,
              convolve3 sobelY grayData width x y with
        | Some gx, Some gy =>
            (Some (Math_fround M (Math_sqrt M (inject_Z (gx * gx + gy * gy)))),
             Some (Math_fround M (Math_atan2 M (inject_Z gy) (inject_Z gx))))
        | _, _ => (None, None)
        end in
      mkGradients (poke index magnitude (gradientMagnitude g))
                  (poke index direction (gradientDirection g))) g)
    (mkGradients (replicate (length grayData) (Some 0))
                 (replicate (length grayData) (Some 0))).

(** The two neighbours compared with the pixel at [index], chosen by the
    gradient direction (lines 217-236). *)
Definition directionalNeighbours (direction : option Q) (index width : Z) : Z * Z :=
  if cellGe direction (Some (jsDiv (- Math_PI) 8))
     && cellLt direction (Some (jsDiv Math_PI 8))
  then (* Horizontal *) (index - 1, index + 1)%Z
  else if cellGe direction (Some (jsDiv Math_PI 8))
          && cellLt direction (Some (jsDiv (jsMul 3 Math_PI) 8))
  then (* Diagonal *) (index - width - 1, index + width + 1)%Z
  else if cellGe direction (Some (jsDiv (jsMul 3 Math_PI) 8))
          && cellLt direction (Some (jsDiv (jsMul 5 Math_PI) 8))
  then (* Vertical *) (index - width, index + width)%Z
  else (* Diagonal *) (index - width + 1, index + width - 1)%Z.

(** The second pair of loops (lines 208-242); [n] is [grayData.length]. *)
Definition nonMaxSuppression (g : Gradients) (n : nat) (width height : Z)
    (lowThreshold highThreshold : Q) : list Z :=
  forRange 1 (height - 1) (fun y suppressedData =>
    forRange 1 (width - 1) (fun x suppressedData =>
      let index := (y * width + x)%Z in
      let magnitude := readCell (gradientMagnitude g) index in
      let direction := readCell (gradientDirection g) index in
      let '(i1, i2) := directionalNeighbours direction index width in
      let neighbor1 := readCell (gradientMagnitude g) i1 in
      let neighbor2 := readCell (gradientMagnitude g) i2 in
      if cellGe magnitude neighbor1 && cellGe magnitude neighbor2 then
        poke index
          (if cellLt (Some highThreshold) magnitude then 255
           else if cellLt (Some lowThreshold) magnitude then 128 else 0)%Z
          suppressedData
      else suppressedData) suppressedData)
    (replicate n 0%Z).

(** *** traceWeakEdges (lines 265-294) *)

Record WeakState := mkWeak {
  we_edge : list Z;
  we_stack : list Point         (* top of the stack first *)
}.

Definition weakNeighbour (suppressedData : list Z) (width height x y : Z)
    (s : WeakState) (o : Z * Z) : WeakState :=
  let '(dx, dy) := o in
  let nx := (x + dx)%Z in
  let ny := (y + dy)%Z in
  if decide (inBounds width height (mkPoint nx ny)) then
    let index := (ny * width + nx)%Z in
    if decide (peek suppressedData index = Some 128%Z /\
               peek (we_edge s) index = Some 0%Z)
    then mkWeak (poke index 255%Z (we_edge s)) (mkPoint nx ny :: we_stack s)
    else s
  else s.

Definition weakStep (suppressedData : list Z) (width height : Z) (s : WeakState)
  : option WeakState :=
  match we_stack s with
  | [] => None
  | p :: stack =>
      Some (foldl (weakNeighbour suppressedData width height (pt_x p) (pt_y p))
              (mkWeak (we_edge s) stack) offsets)
  end.

(** Enough steps for the loop to empty its stack
    ([traceWeakEdges_terminates]): a pixel is pushed when its cell goes from
    0 to 255, so at most once. *)
Definition weakFuel (edgeData : list Z) : nat := (2 * length edgeData + 1)%nat.

Definition traceWeakEdges (suppressedData edgeData : list Z)
    (width height startX startY : Z) : list Z :=
  we_edge (runLoop (weakStep suppressedData width height) (weakFuel edgeData)
             (mkWeak edgeData [mkPoint startX startY])).

(** The third pair of loops (lines 244-259). *)
Definition hysteresis (suppressedData : list Z) (n : nat) (width height : Z)
  : list Z :=
  forRange 1 (height - 1) (fun y edgeData =>
    forRange 1 (width - 1) (fun x edgeData =>
      let index := (y * width + x)%Z in
      if decide (peek suppressedData index = Some 255%Z) then
        traceWeakEdges suppressedData (poke index 255%Z edgeData) width height x y
      else edgeData) edgeData)
    (replicate n 0%Z).

Definition applyCannyEdgeDetection (M : JSMath) (grayData : list Z)
    (width height : Z) (lowThreshold highThreshold : Q) : list Z :=
  let g := computeGradients M grayData width height in
  let suppressedData :=
    nonMaxSuppression g (length grayData) width height lowThreshold highThreshold in
  hysteresis suppressedData (length grayData) width height.

Local Close Scope Q_scope.

(** ** applyDilation (lines 299-327) *)

(** One pass of the [iter] loop: [newData] starts as a copy of
    [dilatedData]; reads come from [dilatedData], writes go to [newData]. *)
Definition dilateOnce (dilatedData : list Z) (width height : Z) : list Z :=
  forRange 1 (height - 1) (fun y newData =>
    forRange 1 (width - 1) (fun x newData =>
      let index := y * width + x in
      if decide (peek dilatedData index = Some 255) then
        forRange (-1) 2 (fun dy newData =>
          forRange (-1) 2 (fun dx newData =>
            let nx := x + dx in
            let ny := y + dy in
            let neighborIndex := ny * width + nx in
            poke neighborIndex 255 newData) newData) newData
      else newData) newData) dilatedData.

Definition applyDilation (edgeData : list Z) (width height iterations : Z)
  : list Z :=
  Nat.iter (Z.to_nat iterations) (fun dilatedData => dilateOnce dilatedData width height)
    edgeData.

(** ** traceContour (lines 355-392) *)

Record TraceState := mkTrace {
  tr_visited : list Z;
  tr_contour : list Point;      (* in push order *)
  tr_stack : list Point         (* top of the stack first *)
}.

(** One iteration of the two neighbour loops of [traceContour] at
    [(x, y)], for the offset [(dx, dy)]. *)
Definition pushNeighbour (edgeData visited : list Z) (width height x y : Z)
    (stack : list Point) (o : Z * Z) : list Point :=
  let '(dx, dy) := o in
  let nx := x + dx in
  let ny := y + dy in
  if decide (inBounds width height (mkPoint nx ny)) then
    let neighborIndex := ny * width + nx in
    if decide (peek visited neighborIndex = Some 0 /\
               peek edgeData neighborIndex = Some 255)
    then mkPoint nx ny :: stack else stack
  else stack.

(** The neighbours [traceContour] pushes for the pixel at [(x, y)]; the
    last one pushed is the first one popped. *)
Definition unvisitedNeighbours (edgeData visited : list Z) (width height x y : Z)
  : list Point :=
  foldl (pushNeighbour edgeData visited width height x y) [] offsets.

Definition traceStep (edgeData : list Z) (width height : Z) (s : TraceState)
  : option TraceState :=
  match tr_stack s with
  | [] => None
  | p :: stack =>
      let x := pt_x p in
      let y := pt_y p in
      let index := y * width + x in
      if decide (peek (tr_visited s) index = Some 0 /\ peek edgeData index = Some 255)
      then
        let visited := poke index 1 (tr_visited s) in
        Some (mkTrace visited (tr_contour s ++ [p])
                (unvisitedNeighbours edgeData visited width height x y ++ stack))
      else Some (mkTrace (tr_visited s) (tr_contour s) stack)
  end.

(** Enough steps for the loop to empty its stack ([traceContour_terminates]):
    every pixel is marked once and pushes at most 9 neighbours. *)
Definition traceFuel (visited : list Z) : nat := (10 * length visited + 1)%nat.

(** Returns the updated visited-mask (the source mutates it in place) and
    the contour. *)
Definition traceContour (edgeData visited : list Z) (width height startX startY : Z)
  : list Z * list Point :=
  let final := runLoop (traceStep edgeData width height) (traceFuel visited)
                 (mkTrace visited [] [mkPoint startX startY]) in
  (tr_visited final, tr_contour final).

(** ** findContours (lines 332-350) *)

(** The body of the two scan loops, at pixel [(x, y)]: the state is the
    visited-mask and the contours pushed so far. *)
Definition scanPixel (edgeData : list Z) (width height x y : Z)
    (st : list Z * list (list Point)) : list Z * list (list Point) :=
  let '(visited, contours) := st in
  let index := y * width + x in
  if decide (peek edgeData index = Some 255 /\ peek visited index = Some 0)
  then
    let '(visited', contour) := traceContour edgeData visited width height x y in
    if decide (10 < length contour)%nat   (* contour.length > 10 *)
    then (visited', contours ++ [contour])
    else (visited', contours)
  else (visited, contours).

Definition findContours (edgeData : list Z) (width height : Z) : list (list Point) :=
  let visited := replicate (length edgeData) 0 in
  snd (forRange 0 height (fun y st =>
         forRange 0 width (fun x st => scanPixel edgeData width height x y st) st)
         (visited, [])).

Local Open Scope Q_scope.

(** ** getBoundingRect, calculateMinAreaRect (lines 443-484) *)

Record Bounds := mkBounds { b_x : Z; b_y : Z; b_width : Z; b_height : Z }.

Record Rect := mkRect {
  r_x : Z; r_y : Z; r_width : Z; r_height : Z; r_angle : Q
}.

(** [contour[0].x] throws a TypeError on an empty contour. *)
Definition getBoundingRect (contour : list Point) : outcome Bounds :=
  match contour with
  | [] => Throw (Err "TypeError: contour[0] is undefined")
  | p0 :: _ =>
      let '(minX, maxX, minY, maxY) :=
        foldl (fun '(minX, maxX, minY, maxY) point =>
                 (Z.min minX (pt_x point), Z.max maxX (pt_x point),
                  Z.min minY (pt_y point), Z.max maxY (pt_y point)))
              (pt_x p0, pt_x p0, pt_y p0, pt_y p0) contour in
      Ok (mkBounds minX minY (maxX - minX) (maxY - minY))
  end.

(** The angle, in degrees, of the line from the first to the last point. *)
Definition contourAngle (M : JSMath) (contour : list Point) : Q :=
  if decide (2 < length contour)%nat then
    match head contour, last contour with
    | Some first, Some last =>
        jsDiv (jsMul (Math_atan2 M (inject_Z (pt_y last - pt_y first))
                                   (inject_Z (pt_x last - pt_x first))) 180)
              Math_PI
    | _, _ => 0
    end
  else 0.

Definition calculateMinAreaRect (M : JSMath) (contour : list Point) : outcome Rect :=
  bounds ← getBoundingRect contour;
  let angle := contourAngle M contour in
  Ok (mkRect (b_x bounds) (b_y bounds) (b_width bounds) (b_height bounds) angle).

(** ** findBestRectangle (lines 397-438) *)

(** [%] and [Math.abs] are exact on doubles. *)
Definition axisAlignedScore (rectAngle : Q) : Q :=
  let angle := Qabs (jsRem rectAngle 90) in
  jsSub 1 (jsDiv (Qmin angle (jsSub 90 angle)) 10).

(** One iteration of [for (const contour of contours)]; [best] is the
    best rectangle so far with its score. *)
Definition considerContour (M : JSMath) (width height : Z) (minArea : Q)
    (borderPad : Z) (best : option (Rect * Q)) (contour : list Point)
  : outcome (option (Rect * Q)) :=
  if decide (length contour < 4)%nat then Ok best else
  bounds ← getBoundingRect contour;
  let rectArea := jsMul (inject_Z (b_width bounds)) (inject_Z (b_height bounds)) in
  if Qltb rectArea minArea then Ok best else
  if decide (b_x bounds <= borderPad \/ b_y bounds <= borderPad \/
             b_x bounds + b_width bounds >= width - borderPad \/
             b_y bounds + b_height bounds >= height - borderPad)%Z
  then Ok best else
  rect ← calculateMinAreaRect M contour;
  let score := jsMul rectArea (axisAlignedScore (r_angle rect)) in
  match best with
  | None => Ok (Some (rect, score))
  | Some (_, bestScore) =>
      if Qltb bestScore score then Ok (Some (rect, score)) else Ok best
  end.

(** [imgArea * (minAreaPercent / 100)], with [imgArea = width * height]. *)
Definition minAreaOf (width height : Z) (minAreaPercent : Q) : Q :=
  jsMul (jsMul (inject_Z width) (inject_Z height)) (jsDiv minAreaPercent 100).

(** [Math.round(Math.min(width, height) * 0.02)]. *)
Definition borderPadOf (width height : Z) : Z :=
  Math_round (jsMul (inject_Z (Z.min width height)) (toDouble (2 # 100))).

Definition findBestRectangle (M : JSMath) (contours : list (list Point))
    (width height : Z) (minAreaPercent : Q) : outcome (option Rect) :=
  let minArea := minAreaOf width height minAreaPercent in
  let borderPad := borderPadOf width height in
  best ← foldl (fun acc contour =>
                  best ← acc; considerContour M width height minArea borderPad best contour)
               (Ok None) contours;
  Ok (fst <$> best).

(** ** The browser: images, canvases and data URLs *)

Record HTMLImage := mkImage { img_src : string; img_width : Z; img_height : Z }.

(** What has been drawn on a canvas. *)
Inductive Drawing :=
| DrawImage (img : HTMLImage) (dw dh : Z)
    (* ctx.drawImage(img, 0, 0, dw, dh) *)
| DrawRegion (source : Drawing) (sourceWidth sourceHeight : Z) (sx sy sw sh : Q).
    (* ctx.drawImage(canvas, sx, sy, sw, sh, 0, 0, sw, sh) *)

Record Canvas := mkCanvas {
  canvas_width : Z; canvas_height : Z; canvas_drawing : Drawing
}.

(** The image a drawing shows, whole or in part. *)
Fixpoint drawnImage (d : Drawing) : HTMLImage :=
  match d with
  | DrawImage img _ _ => img
  | DrawRegion source _ _ _ _ _ _ => drawnImage source
  end.

(** The value of [canvas.toDataURL('image/png')]: the PNG of the canvas. *)
Inductive DataURL := PngOf (c : Canvas).

(** Drawing an image that is not CORS-same-origin leaves a canvas, and
    every canvas drawn from it, not origin-clean.  [getImageData] and
    [toDataURL] both throw a SecurityError on such a canvas; that is the
    only exception of [toDataURL]. *)
Record Browser := {
  loadImage : string -> option HTMLImage;
    (* the decoded image when [img.onload] fires, [None] when [img.onerror] does *)
  getContext2d : nat -> bool;
    (* whether [getContext('2d')] of the n-th canvas created is not null *)
  drawImageError : HTMLImage -> option JsError;
    (* the exception of [ctx.drawImage(img, ...)], if it throws *)
  securityError : HTMLImage -> option JsError;
    (* the SecurityError thrown when a canvas showing the image is read or
       encoded, [None] when the image leaves its canvas origin-clean *)
  readPixels : Canvas -> outcome (list Z)
    (* on an origin-clean canvas: the RGBA bytes of the whole canvas, or
       the exception [getImageData] throws (an IndexSizeError on a canvas
       without pixels) *)
}.

(** [ctx.getImageData(0, 0, canvas.width, canvas.height)] *)
Definition getImageData (B : Browser) (canvas : Canvas) : outcome (list Z) :=
  match securityError B (drawnImage (canvas_drawing canvas)) with
  | Some error => Throw error
  | None => readPixels B canvas
  end.

(** [canvas.toDataURL('image/png')] *)
Definition toDataURL (B : Browser) (canvas : Canvas) : outcome DataURL :=
  match securityError B (drawnImage (canvas_drawing canvas)) with
  | Some error => Throw error
  | None => Ok (PngOf canvas)
  end.

(** ** cropWithPerspectiveTransform (lines 489-518) *)

Record CropRegion := mkCrop {
  cropX : Q; cropY : Q; cropWidth : Q; cropHeight : Q
}.

(** [Math.min(insetMargin, side / 4)]. *)
Definition clampedInset (insetMargin : Q) (side : Z) : Q :=
  Qmin insetMargin (jsDiv (inject_Z side) 4).

Definition cropRegion (canvas : Canvas) (rect : Rect) (insetMargin : Q) : CropRegion :=
  let insetX := clampedInset insetMargin (r_width rect) in
  let insetY := clampedInset insetMargin (r_height rect) in
  let cropX := Qmax 0 (jsAdd (inject_Z (r_x rect)) insetX) in
  let cropY := Qmax 0 (jsAdd (inject_Z (r_y rect)) insetY) in
  let cropWidth := Qmin (jsSub (inject_Z (canvas_width canvas)) cropX)
                        (jsSub (inject_Z (r_width rect)) (jsMul 2 insetX)) in
  let cropHeight := Qmin (jsSub (inject_Z (canvas_height canvas)) cropY)
                         (jsSub (inject_Z (r_height rect)) (jsMul 2 insetY)) in
  mkCrop cropX cropY cropWidth cropHeight.

(** The crop canvas is the second canvas created.  When its context is
    null, [cropCtx.drawImage] throws a TypeError. *)
Definition cropWithPerspectiveTransform (B : Browser) (canvas : Canvas)
    (rect : Rect) (insetMargin : Q) : outcome DataURL :=
  let c := cropRegion canvas rect insetMargin in
  if getContext2d B 1 then
    toDataURL B
      (mkCanvas (canvasSide 300 (cropWidth c)) (canvasSide 150 (cropHeight c))
         (DrawRegion (canvas_drawing canvas) (canvas_width canvas)
            (canvas_height canvas)
            (cropX c) (cropY c) (cropWidth c) (cropHeight c)))
  else Throw (Err "TypeError: cropCtx is null").

(** ** processImageWithJavaScript, cropToInnerRectangle (lines 29-113) *)

(** The value the promise resolves with. *)
Record Processed := mkProcessed {
  imageUrl : DataURL; width : Z; height : Z
}.

(** [processImageWithJavaScript] up to [bestRect] (lines 81-104). *)
Definition locateRectangle (B : Browser) (M : JSMath) (canvas : Canvas)
    (config : CropConfig) : outcome (option Rect) :=
  let w := canvas_width canvas in
  let h := canvas_height canvas in
  data ← getImageData B canvas;
  let grayData := convertToGrayscale data in
  let blurredData := applyGaussianBlur grayData w h in
  let edgeData :=
    applyCannyEdgeDetection M blurredData w h (cannyLow config) (cannyHigh config) in
  let dilatedData :=
    if decide (dilationIterations config > 0)%Z
    then applyDilation edgeData w h (dilationIterations config)
    else edgeData in
  let contours := findContours dilatedData w h in
  findBestRectangle M contours w h (minAreaPercent config).

Definition processImageWithJavaScript (B : Browser) (M : JSMath) (canvas : Canvas)
    (config : CropConfig) : outcome Processed :=
  bestRect ← locateRectangle B M canvas config;
  match bestRect with
  | Some bestRect =>
      url ← cropWithPerspectiveTransform B canvas bestRect (insetMargin config);
      Ok (mkProcessed url (r_width bestRect) (r_height bestRect))
  | None =>
      url ← toDataURL B canvas;
      Ok (mkProcessed url (canvas_width canvas) (canvas_height canvas))
  end.

Inductive Promise (A : Type) :=
| Resolved (a : A)
| Rejected (e : JsError).
Arguments Resolved {A} a.
Arguments Rejected {A} e.

(** The canvas [img.onload] prepares: the image scaled so that its longest
    side is at most 1400.  For an image of size 0, [maxSide / 0] is
    [Infinity] and the scale is 1. *)
Definition scaledCanvas (img : HTMLImage) : Canvas :=
  let maxSide := 1400 in
  let longest := Z.max (img_width img) (img_height img) in
  let scale :=
    if decide (longest = 0)%Z then 1
    else Qmin 1 (jsDiv maxSide (inject_Z longest)) in
  let w := canvasSide 300
             (inject_Z (Math_round (jsMul (inject_Z (img_width img)) scale))) in
  let h := canvasSide 150
             (inject_Z (Math_round (jsMul (inject_Z (img_height img)) scale))) in
  mkCanvas w h (DrawImage img w h).

(** The value handed back when no rectangle is cropped and the canvas is
    encoded. *)
Definition fallback (canvas : Canvas) : Processed :=
  mkProcessed (PngOf canvas) (canvas_width canvas) (canvas_height canvas).

Definition cropToInnerRectangle (B : Browser) (M : JSMath) (imageUrl : string)
    (config : CropConfig) : Promise Processed :=
  match loadImage B imageUrl with
  | None => Rejected (Err "Failed to load image")            (* img.onerror *)
  | Some img =>                                              (* img.onload *)
      if negb (getContext2d B 0) then
        Rejected (Err "Could not get canvas context")
      else
        let canvas := scaledCanvas img in
        match drawImageError B img with
        | Some error => Rejected error                       (* catch (error) *)
        | None =>
            match processImageWithJavaScript B M canvas config with
            | Ok processedData => Resolved processedData
            | Throw _ =>                                     (* catch *)
                match toDataURL B canvas with
                | Ok url =>
                    Resolved (mkProcessed url (canvas_width canvas)
                                (canvas_height canvas))
                | Throw error => Rejected error              (* catch (error) *)
                end
            end
        end
  end.

Local Close Scope Q_scope.

(** * Part III: the notions of the specification *)

(** ** Dilation *)

Definition interior (width height x y : Z) : Prop :=
  1 <= x < width - 1 /\ 1 <= y < height - 1.

Definition inImage (width height x y : Z) : Prop :=
  0 <= x < width /\ 0 <= y < height.

(** Index [i] lies in the 3x3 window of a set pixel that is not on the
    one-pixel border of the image. *)
Definition spreadsTo (d : list Z) (width height : Z) (i : Z) : Prop :=
  exists x y dx dy,
    interior width height x y /\ peek d (y * width + x) = Some 255 /\
    -1 <= dx <= 1 /\ -1 <= dy <= 1 /\ i = (y + dy) * width + (x + dx).

(** The reading of the dilator in which every set pixel of the image
    spreads to all its neighbours inside the image. *)
Definition spreadsFromEverySetPixel (d out : list Z) (width height : Z) : Prop :=
  forall x y dx dy,
    inImage width height x y -> inImage width height (x + dx) (y + dy) ->
    -1 <= dx <= 1 -> -1 <= dy <= 1 ->
    peek d (y * width + x) = Some 255 ->
    peek out ((y + dy) * width + (x + dx)) = Some 255.

(** No pixel on the one-pixel border of the image is set. *)
Definition clearBorder (d : list Z) (width height : Z) : Prop :=
  forall x y, inImage width height x y ->
    peek d (y * width + x) = Some 255 -> interior width height x y.

(** [(x, y)] is within [n] steps of [(sx, sy)], diagonal steps allowed. *)
Definition within (n x y sx sy : Z) : Prop :=
  -n <= x - sx <= n /\ -n <= y - sy <= n.

(** ** Connected components of the edge mask *)

Definition isSet (edgeData : list Z) (width height : Z) (p : Point) : Prop :=
  inBounds width height p /\ peek edgeData (indexOf width p) = Some 255.

Definition touches (p q : Point) : Prop :=
  -1 <= pt_x q - pt_x p <= 1 /\ -1 <= pt_y q - pt_y p <= 1.

Definition adjacent (edgeData : list Z) (width height : Z) (p q : Point) : Prop :=
  isSet edgeData width height p /\ isSet edgeData width height q /\ touches p q.

(** [q] is reached from [p] through set pixels that touch (8-connectivity). *)
Definition connected (edgeData : list Z) (width height : Z) : relation Point :=
  rtc (adjacent edgeData width height).

Local Open Scope Q_scope.

(** ** The rectangle selector as the specification words it

    The tests of the selector on the axis-aligned bounding box of a
    contour, in the arithmetic of the rationals. *)

(** Least and greatest element of a non-empty list. *)
Definition leastOf (l : list Z) : Z :=
  match l with [] => 0%Z | x :: l' => foldr Z.min x l' end.

Definition greatestOf (l : list Z) : Z :=
  match l with [] => 0%Z | x :: l' => foldr Z.max x l' end.

(** The axis-aligned bounding box of a contour. *)
Definition spec_box (contour : list Point) : Bounds :=
  let xs := pt_x <$> contour in
  let ys := pt_y <$> contour in
  mkBounds (leastOf xs) (leastOf ys)
           (greatestOf xs - leastOf xs) (greatestOf ys - leastOf ys).

Definition spec_boxArea (contour : list Point) : Z :=
  (b_width (spec_box contour) * b_height (spec_box contour))%Z.

(** box.width x box.height < image.area x minAreaPercent / 100 *)
Definition spec_tooSmall (imageWidth imageHeight : Z) (minAreaPercent : Q)
    (contour : list Point) : Prop :=
  inject_Z (spec_boxArea contour)
  < inject_Z imageWidth * inject_Z imageHeight * minAreaPercent / 100.

(** The box touches within a border pad of 2% of the smaller dimension. *)
Definition spec_hugsBorder (imageWidth imageHeight : Z) (contour : list Point) : Prop :=
  let pad := Math_round ((2 # 100) * inject_Z (Z.min imageWidth imageHeight)) in
  let box := spec_box contour in
  (b_x box <= pad \/ b_y box <= pad \/
   imageWidth - pad <= b_x box + b_width box \/
   imageHeight - pad <= b_y box + b_height box)%Z.

Definition spec_survives (imageWidth imageHeight : Z) (minAreaPercent : Q)
    (contour : list Point) : Prop :=
  ~ spec_tooSmall imageWidth imageHeight minAreaPercent contour /\
  ~ spec_hugsBorder imageWidth imageHeight contour.

(** ** The rectangle selector in the arithmetic of doubles

    The same tests, and the score, with every product, quotient and
    difference rounded to a double. *)

(** box.width x box.height *)
Definition sel_area (contour : list Point) : Q :=
  jsMul (inject_Z (b_width (spec_box contour))) (inject_Z (b_height (spec_box contour))).

(** box.width x box.height < image.area x (minAreaPercent / 100) *)
Definition sel_tooSmall (imageWidth imageHeight : Z) (minAreaPercent : Q)
    (contour : list Point) : Prop :=
  sel_area contour
  < jsMul (jsMul (inject_Z imageWidth) (inject_Z imageHeight))
          (jsDiv minAreaPercent 100).

(** The box touches within a border pad of 0.02 times the smaller
    dimension, rounded to an integer. *)
Definition sel_hugsBorder (imageWidth imageHeight : Z) (contour : list Point) : Prop :=
  let pad := Math_round (jsMul (toDouble (2 # 100))
                               (inject_Z (Z.min imageWidth imageHeight))) in
  let box := spec_box contour in
  (b_x box <= pad \/ b_y box <= pad \/
   imageWidth - pad <= b_x box + b_width box \/
   imageHeight - pad <= b_y box + b_height box)%Z.

Definition sel_survives (imageWidth imageHeight : Z) (minAreaPercent : Q)
    (contour : list Point) : Prop :=
  ~ sel_tooSmall imageWidth imageHeight minAreaPercent contour /\
  ~ sel_hugsBorder imageWidth imageHeight contour.

(** atan2 from the first to the last recorded point, times 180, by pi. *)
Definition sel_angle (M : JSMath) (contour : list Point) : Q :=
  match head contour, last contour with
  | Some first, Some last =>
      jsDiv (jsMul (Math_atan2 M (inject_Z (pt_y last - pt_y first))
                                 (inject_Z (pt_x last - pt_x first))) 180)
            Math_PI
  | _, _ => 0
  end.

(** boxArea x (1 - min(|angle mod 90|, 90 - |angle mod 90|) / 10) *)
Definition sel_score (M : JSMath) (contour : list Point) : Q :=
  let a := Qabs (jsRem (sel_angle M contour) 90) in
  jsMul (sel_area contour) (jsSub 1 (jsDiv (Qmin a (jsSub 90 a)) 10)).

Definition sel_rect (M : JSMath) (contour : list Point) : Rect :=
  let box := spec_box contour in
  mkRect (b_x box) (b_y box) (b_width box) (b_height box) (sel_angle M contour).

Local Close Scope Q_scope.

(** * Part IV: invariants and measures used in the proofs *)

(** ** Dilation as one batch of writes *)

Definition window (width x y : Z) : list Z :=
  dy ← seqZ (-1) 3; dx ← seqZ (-1) 3; [(y + dy) * width + (x + dx)].

Definition dilationTargets (d : list Z) (width height : Z) : list Z :=
  y ← seqZ 1 (height - 2); x ← seqZ 1 (width - 2);
  if decide (peek d (y * width + x) = Some 255) then window width x y else [].

Definition pokeAll {A} (v : A) (targets : list Z) (buf : list A) : list A :=
  foldl (fun b i => poke i v b) buf targets.

(** Every cell of a visited-mask holds 0 or 1. *)
Definition binaryMask (visited : list Z) : Prop :=
  forall i v, peek visited i = Some v -> v = 0 \/ v = 1.

Definition zeros (visited : list Z) : nat :=
  length (filter (fun v => v = 0) visited).

Definition traceMeasure (s : TraceState) : nat :=
  (10 * zeros (tr_visited s) + length (tr_stack s))%nat.

Definition weakMeasure (s : WeakState) : nat :=
  (2 * zeros (we_edge s) + length (we_stack s))%nat.

(** ** Invariants of the tracer's loop

    [traceSafe visited0 s]: the visited-mask of [s] is [visited0] with the
    cells of the contour's points set to 1; the contour's points were
    unvisited set pixels, and none is repeated. *)
Record traceSafe (edgeData : list Z) (width height : Z)
    (visited0 : list Z) (s : TraceState) : Prop := {
  safe_len : length (tr_visited s) = length visited0;
  safe_frame : forall i,
    peek (tr_visited s) i = peek visited0 i \/
    (peek (tr_visited s) i = Some 1 /\
     exists p, p ∈ tr_contour s /\ indexOf width p = i);
  safe_contour : forall p, p ∈ tr_contour s ->
    peek visited0 (indexOf width p) = Some 0 /\
    peek (tr_visited s) (indexOf width p) = Some 1 /\
    peek edgeData (indexOf width p) = Some 255;
  safe_bounds : forall p, p ∈ tr_contour s \/ p ∈ tr_stack s ->
    inBounds width height p;
  safe_nodup : NoDup (tr_contour s)
}.

(** [traceReach start s]: stack and contour stay inside the component of
    [start], and every set neighbour of a contour point is visited or
    waiting on the stack. *)
Record traceReach (edgeData : list Z) (width height : Z)
    (start : Point) (s : TraceState) : Prop := {
  reach_stack : forall q, q ∈ tr_stack s -> connected edgeData width height start q;
  reach_contour : forall q, q ∈ tr_contour s -> connected edgeData width height start q;
  reach_frontier : forall q n, q ∈ tr_contour s -> adjacent edgeData width height q n ->
    peek (tr_visited s) (indexOf width n) = Some 1 \/ n ∈ tr_stack s;
  reach_start : start ∈ tr_contour s \/ start ∈ tr_stack s
}.

(** ** Invariant of the scan in [findContours]

    The contours pushed so far are disjoint, are whole components with more
    than 10 pixels, and their pixels are marked visited; every visited set
    pixel belongs to a component that was traced in full, and that component
    was pushed exactly when it has more than 10 pixels. *)
Record scanInv (edgeData : list Z) (width height : Z)
    (st : list Z * list (list Point)) : Prop := {
  scan_len : length st.1 = length edgeData;
  scan_bin : binaryMask st.1;
  scan_marked : forall c p, c ∈ st.2 -> p ∈ c -> peek st.1 (indexOf width p) = Some 1;
  scan_nodup : NoDup (concat st.2);
  scan_kept : forall c, c ∈ st.2 ->
    (10 < length c)%nat /\
    exists p, isSet edgeData width height p /\
              forall q, q ∈ c <-> connected edgeData width height p q;
  scan_traced : forall p, isSet edgeData width height p ->
    peek st.1 (indexOf width p) = Some 1 ->
    exists c, NoDup c /\
      (forall q, q ∈ c <-> connected edgeData width height p q) /\
      (forall q, q ∈ c -> peek st.1 (indexOf width q) = Some 1) /\
      ((10 < length c)%nat -> c ∈ st.2) /\
      ((length c <= 10)%nat -> forall c', c' ∈ st.2 -> p ∉ c')
}.

Local Open Scope Q_scope.

(** ** Invariants of the selector's loop *)

(** [best] is the selection among the contours [seen] so far: nothing when
    none survives, otherwise the earliest survivor of greatest score. *)
Definition selectionOf (M : JSMath) (imageWidth imageHeight : Z) (pct : Q)
    (seen : list (list Point)) (best : option (Rect * Q)) : Prop :=
  match best with
  | None => forall c, c ∈ seen -> ~ sel_survives imageWidth imageHeight pct c
  | Some (rect, score) =>
      exists (i : nat) c,
        seen !! i = Some c /\ sel_survives imageWidth imageHeight pct c /\
        rect = sel_rect M c /\ score = sel_score M c /\
        (forall c', c' ∈ seen -> sel_survives imageWidth imageHeight pct c' ->
                    sel_score M c' <= sel_score M c) /\
        (forall (j : nat) c', (j < i)%nat -> seen !! j = Some c' ->
                    sel_survives imageWidth imageHeight pct c' ->
                    sel_score M c' < sel_score M c)
  end.

(** The rectangle lies strictly inside the border pad of the image. *)
Definition insideBorder (imageWidth imageHeight : Z) (rect : Rect) : Prop :=
  (borderPadOf imageWidth imageHeight < r_x rect /\
   borderPadOf imageWidth imageHeight < r_y rect /\
   r_x rect + r_width rect < imageWidth - borderPadOf imageWidth imageHeight /\
   r_y rect + r_height rect < imageHeight - borderPadOf imageWidth imageHeight /\
   0 <= r_width rect /\ 0 <= r_height rect)%Z.

Local Close Scope Q_scope.

(** * Part V: the caller of the pipeline (leafletUtils.ts) *)

(** ** mirrorImage *)

(** The image [mirrorImage] is asked to load: the URL the page was given,
    or a data URL made by the pipeline. *)
Inductive ImageSource :=
| FromUrl (url : string)
| FromData (data : DataURL).

(** What the browser does while [mirrorImage] handles a source. *)
Record MirrorBrowser := {
  mirrorLoad : ImageSource -> option (Z * Z);
    (* width and height of the image when [img.onload] fires,
       [None] when [img.onerror] does *)
  mirrorContext2d : ImageSource -> bool;
    (* whether [getContext('2d')] of the canvas is not null *)
  mirrorDrawError : ImageSource -> option JsError
    (* the exception thrown in the load handler after the context check
       (by [ctx.scale], [ctx.drawImage] or [canvas.toDataURL]), if any *)
}.

(** The canvas of [mirrorImage]; its data URL is what the promise
    resolves with. *)
Record MirrorCanvas := mkMirror {
  mirror_source : ImageSource;
  mirror_width : Z;
  mirror_height : Z;
  mirror_scale : Z * Z;         (* ctx.scale(sx, sy); (1, 1) when not called *)
  mirror_offset : Z * Z         (* ctx.drawImage(img, dx, dy) *)
}.

(** A promise that may stay pending for ever. *)
Inductive Async (A : Type) :=
| Fulfilled (a : A)
| Failed (e : JsError)
| NeverSettles.
Arguments Fulfilled {A} a.
Arguments Failed {A} e.
Arguments NeverSettles {A}.

(** [img.onload] has no [try]: an exception of a drawing call leaves the
    handler, and neither [resolve] nor [reject] is called. *)
Definition mirrorImage (P : MirrorBrowser) (source : ImageSource)
    (mirrorX mirrorY : bool) : Async MirrorCanvas :=
  match mirrorLoad P source with
  | None => Failed (Err "Failed to load image")                (* img.onerror *)
  | Some (w, h) =>                                             (* img.onload *)
      if negb (mirrorContext2d P source) then
        Failed (Err "Could not get canvas context")
      else
        let '(scale, offset) :=
          if mirrorX && mirrorY then ((-1, -1), (- w, - h))
          else if mirrorX then ((-1, 1), (- w, 0))
          else if mirrorY then ((1, -1), (0, - h))
          else ((1, 1), (0, 0)) in
        match mirrorDrawError P source with
        | Some _ => NeverSettles
        | None => Fulfilled (mkMirror source w h scale offset)
        end
  end.

(** ** processHouseImage *)

Inductive HouseUrl :=
| GivenUrl (url : string)           (* the URL passed in *)
| CroppedUrl (data : DataURL)       (* the image of the pipeline *)
| MirroredUrl (canvas : MirrorCanvas).

(** [{ imageUrl, width?, height? }]; [None] is [undefined]. *)
Record HouseImage := mkHouse {
  house_url : HouseUrl;
  house_width : option Z;
  house_height : option Z
}.

Definition processHouseImage (B : Browser) (M : JSMath) (P : MirrorBrowser)
    (imageUrl : string) (mirrorX mirrorY : bool) : Async HouseImage :=
  let caught :=                                          (* catch (error) *)
    if mirrorX || mirrorY then
      match mirrorImage P (FromUrl imageUrl) mirrorX mirrorY with
      | Fulfilled canvas => Fulfilled (mkHouse (MirroredUrl canvas) None None)
      | Failed _ => Fulfilled (mkHouse (GivenUrl imageUrl) None None)
      | NeverSettles => NeverSettles
      end
    else Fulfilled (mkHouse (GivenUrl imageUrl) None None) in
  match cropToInnerRectangle B M imageUrl DEFAULT_CROP_CONFIG with
  | Rejected _ => caught
  | Resolved (mkProcessed croppedUrl croppedWidth croppedHeight) =>
      if mirrorX || mirrorY then
        match mirrorImage P (FromData croppedUrl) mirrorX mirrorY with
        | Fulfilled canvas =>
            Fulfilled (mkHouse (MirroredUrl canvas)
                         (Some croppedWidth) (Some croppedHeight))
        | Failed _ => caught
        | NeverSettles => NeverSettles
        end
      else
        Fulfilled (mkHouse (CroppedUrl croppedUrl)
                     (Some croppedWidth) (Some croppedHeight))
  end.

Local Open Scope Q_scope.

(** ** calculateOptimalImageBounds *)

(** [[lat, lon]] *)
Definition Coordinate : Type := Q * Q.

(** [Math.sqrt(Math.pow(b[0] - a[0], 2) + Math.pow(b[1] - a[1], 2))] *)
Definition sideLength (M : JSMath) (a b : Coordinate) : Q :=
  Math_sqrt M (jsAdd (Math_pow M (jsSub b.1 a.1) 2) (Math_pow M (jsSub b.2 a.2) 2)).

(** The entries of the result are [coordinates[k]]: [None] where the
    polygon has no such corner.  Reading [coordinates[1][0]] or
    [coordinates[2][0]] throws a TypeError when that corner is missing. *)
Definition calculateOptimalImageBounds (M : JSMath) (coordinates : list Coordinate)
    (imageWidth imageHeight : option Z) : outcome (list (option Coordinate)) :=
  match imageWidth, imageHeight with
  | Some w, Some h =>
      if (w =? 0)%Z || (h =? 0)%Z then Ok (Some <$> coordinates) else
      match coordinates !! 0%nat, coordinates !! 1%nat, coordinates !! 2%nat with
      | Some c0, Some c1, Some c2 =>
          let side1Length := sideLength M c0 c1 in
          let side2Length := sideLength M c1 c2 in
          let imageAspectRatio := jsDiv (inject_Z w) (inject_Z h) in
          let polygonLongerSideIsFirst := Qltb side2Length side1Length in
          let imageIsWider := Qltb 1 imageAspectRatio in
          let corner (k : nat) := coordinates !! k in
          Ok (if polygonLongerSideIsFirst && imageIsWider
              then [corner 2; corner 3; corner 0; corner 1]%nat
              else if negb polygonLongerSideIsFirst && imageIsWider
              then [corner 0; corner 1; corner 2; corner 3]%nat
              else if polygonLongerSideIsFirst && negb imageIsWider
              then [corner 3; corner 0; corner 1; corner 2]%nat
              else [corner 3; corner 0; corner 1; corner 2]%nat)
      | _, _, _ => Throw (Err "TypeError: coordinates[i] is undefined")
      end
  | _, _ => Ok (Some <$> coordinates)
  end.

Local Close Scope Q_scope.

(** * Part VI: notions and invariants used for the further properties *)

(** ** Loops over the interior of the image

    The loops [for y in 1 .. height-2 { for x in 1 .. width-2 }] of the
    blur and of the edge detector write cell [y * width + x] with a value
    that depends on the pixel only; [None] when nothing is written. *)
Definition rasterWrite {A} (width : Z) (g : Z -> Z -> option A) (x y : Z)
    (buf : list A) : list A :=
  match g x y with
  | Some v => poke (y * width + x) v buf
  | None => buf
  end.

Definition rasterLoop {A} (width height : Z) (g : Z -> Z -> option A)
    (init : list A) : list A :=
  forRange 1 (height - 1) (fun y buf =>
    forRange 1 (width - 1) (fun x buf => rasterWrite width g x y buf) buf) init.

(** The pixel whose cell is [i]. *)
Definition pixelOf (width : Z) (i : Z) : Point := mkPoint (i mod width) (i / width).

Definition interiorPoint (width height : Z) (p : Point) : Prop :=
  interior width height (pt_x p) (pt_y p).

(** What [rasterLoop] leaves in cell [i]. *)
Definition rasterCell {A} (width height : Z) (g : Z -> Z -> option A)
    (init : list A) (i : Z) : option A :=
  if decide (interiorPoint width height (pixelOf width i)) then
    match g (i mod width) (i / width) with
    | Some v => if decide (0 <= i < Z.of_nat (length init)) then Some v else None
    | None => peek init i
    end
  else peek init i.

(** The cells written before the loops reach the pixel [(x, y)]. *)
Definition rasterDone (width height x y : Z) (i : Z) : Prop :=
  interiorPoint width height (pixelOf width i) /\
  (i / width < y \/ (i / width = y /\ i mod width < x)).

Definition rasterPartial {A} (width height : Z) (g : Z -> Z -> option A)
    (init : list A) (x y : Z) (buf : list A) : Prop :=
  length buf = length init /\
  forall i,
    (rasterDone width height x y i -> peek buf i = rasterCell width height g init i) /\
    (~ rasterDone width height x y i -> peek buf i = peek init i).

(** ** The 3x3 window of a pixel *)

(** The cell read for the kernel offset [(kx, ky)] around [(x, y)];
    0 stands for a read outside the buffer. *)
Definition windowCell (data : list Z) (width x y kx ky : Z) : Z :=
  default 0 (peek data ((y + ky) * width + (x + kx))).

(** All nine reads around [(x, y)] fall inside the buffer. *)
Definition windowDefined (data : list Z) (width x y : Z) : Prop :=
  forall kx ky, -1 <= kx <= 1 -> -1 <= ky <= 1 ->
    is_Some (peek data ((y + ky) * width + (x + kx))).

(** The sum [convolve3] accumulates, in the order of its loops. *)
Definition weightedSum (kernel : list (list Z)) (data : list Z) (width x y : Z) : Z :=
  0 + windowCell data width x y (-1) (-1) * kernelAt kernel (-1) (-1)
    + windowCell data width x y 0 (-1) * kernelAt kernel (-1) 0
    + windowCell data width x y 1 (-1) * kernelAt kernel (-1) 1
    + windowCell data width x y (-1) 0 * kernelAt kernel 0 (-1)
    + windowCell data width x y 0 0 * kernelAt kernel 0 0
    + windowCell data width x y 1 0 * kernelAt kernel 0 1
    + windowCell data width x y (-1) 1 * kernelAt kernel 1 (-1)
    + windowCell data width x y 0 1 * kernelAt kernel 1 0
    + windowCell data width x y 1 1 * kernelAt kernel 1 1.

(** The sum of the nine weights of a kernel. *)
Definition kernelTotal (kernel : list (list Z)) : Z :=
  kernelAt kernel (-1) (-1) + kernelAt kernel (-1) 0 + kernelAt kernel (-1) 1
  + kernelAt kernel 0 (-1) + kernelAt kernel 0 0 + kernelAt kernel 0 1
  + kernelAt kernel 1 (-1) + kernelAt kernel 1 0 + kernelAt kernel 1 1.

Local Open Scope Q_scope.

(** ** The cells of the grayscale and blur loops *)

(** The gray value written for pixel [k] (line 123), if its three colour
    bytes are inside the array. *)
Definition grayAt (data : list Z) (k : Z) : option Z :=
  match peek data (4 * k), peek data (4 * k + 1), peek data (4 * k + 2) with
  | Some r, Some g, Some b => Some (toUint8 (luminance r g b))
  | _, _, _ => None
  end.

(** The value the blur writes for the pixel [(x, y)] (lines 144-154). *)
Definition blurredValue (grayData : list Z) (width x y : Z) : Z :=
  match convolve3 gaussKernel grayData width x y with
  | Some sum => toUint8 (Math_round (inject_Z sum / 16))
  | None => 0%Z
  end.

(** ** The cells of the edge detector's loops *)

(** The magnitude and direction stored for the pixel [(x, y)]
    (lines 190-204): NaN when a read falls outside the buffer. *)
Definition gradientAt (M : JSMath) (grayData : list Z) (width x y : Z) : f32 * f32 :=
  match convolve3 sobelX grayData width x y,
        convolve3 sobelY grayData width x y with
  | Some gx, Some gy =>
      (Some (Math_fround M (Math_sqrt M (inject_Z (gx * gx + gy * gy)))),
       Some (Math_fround M (Math_atan2 M (inject_Z gy) (inject_Z gx))))
  | _, _ => (None, None)
  end.

(** The value non-maximum suppression writes for the pixel [(x, y)]
    (lines 213-240): nothing when a compared neighbour is larger. *)
Definition suppressedCell (g : Gradients) (width : Z)
    (lowThreshold highThreshold : Q) (x y : Z) : option Z :=
  let index := (y * width + x)%Z in
  let magnitude := readCell (gradientMagnitude g) index in
  let direction := readCell (gradientDirection g) index in
  let '(i1, i2) := directionalNeighbours direction index width in
  if cellGe magnitude (readCell (gradientMagnitude g) i1)
     && cellGe magnitude (readCell (gradientMagnitude g) i2)
  then Some (if cellLt (Some highThreshold) magnitude then 255
             else if cellLt (Some lowThreshold) magnitude then 128 else 0)%Z
  else None.

Local Close Scope Q_scope.

(** ** Hysteresis

    A pixel is strong when non-maximum suppression left 255 in it and it
    lies off the border, weak when it left 128.  A weak pixel is linked
    to a strong one when a chain of touching weak pixels leads to it. *)
Definition strongAt (suppressedData : list Z) (width height : Z) (p : Point) : Prop :=
  interiorPoint width height p /\ peek suppressedData (indexOf width p) = Some 255.

Definition weakAt (suppressedData : list Z) (width height : Z) (p : Point) : Prop :=
  inBounds width height p /\ peek suppressedData (indexOf width p) = Some 128.

Definition weakLink (suppressedData : list Z) (width height : Z) : relation Point :=
  fun p q => touches p q /\ weakAt suppressedData width height q.

Definition linkedToStrong (suppressedData : list Z) (width height : Z)
    (q : Point) : Prop :=
  exists p, strongAt suppressedData width height p /\
            rtc (weakLink suppressedData width height) p q.

(** Invariant of the loop of [traceWeakEdges]: the pixels marked as edges
    are linked to a strong pixel, the stack holds marked pixels, and every
    weak neighbour of a marked pixel that is no longer on the stack is
    marked. *)
Record weakInv (suppressedData : list Z) (width height : Z) (s : WeakState)
  : Prop := {
  weak_len : length (we_edge s) = length suppressedData;
  weak_bin : forall i v, peek (we_edge s) i = Some v -> v = 0 \/ v = 255;
  weak_sound : forall q, inBounds width height q ->
    peek (we_edge s) (indexOf width q) = Some 255 ->
    linkedToStrong suppressedData width height q;
  weak_stack : forall p, p ∈ we_stack s ->
    inBounds width height p /\ peek (we_edge s) (indexOf width p) = Some 255;
  weak_closed : forall p q, inBounds width height p ->
    peek (we_edge s) (indexOf width p) = Some 255 -> p ∉ we_stack s ->
    weakLink suppressedData width height p q ->
    peek (we_edge s) (indexOf width q) = Some 255
}.

(** Invariant of the neighbour loops around the popped pixel [p]: [e0] is
    the edge buffer when [p] was popped, [seen] the offsets handled. *)
Record weakScan (suppressedData : list Z) (width height : Z) (p : Point)
    (e0 : list Z) (seen : list (Z * Z)) (s : WeakState) : Prop := {
  ws_len : length (we_edge s) = length suppressedData;
  ws_bin : forall i v, peek (we_edge s) i = Some v -> v = 0 \/ v = 255;
  ws_sound : forall q, inBounds width height q ->
    peek (we_edge s) (indexOf width q) = Some 255 ->
    linkedToStrong suppressedData width height q;
  ws_stack : forall a, a ∈ we_stack s ->
    inBounds width height a /\ peek (we_edge s) (indexOf width a) = Some 255;
  ws_mono : forall i, peek e0 i = Some 255 -> peek (we_edge s) i = Some 255;
  ws_closed : forall a q, inBounds width height a ->
    peek (we_edge s) (indexOf width a) = Some 255 -> a ∉ we_stack s -> a <> p ->
    weakLink suppressedData width height a q ->
    peek (we_edge s) (indexOf width q) = Some 255;
  ws_seen : forall dx dy, (dx, dy) ∈ seen ->
    weakAt suppressedData width height (mkPoint (pt_x p + dx) (pt_y p + dy)) ->
    peek (we_edge s) ((pt_y p + dy) * width + (pt_x p + dx)) = Some 255
}.

(** ** The order of the scan in [findContours]

    Rows from the top, each from the left. *)

Definition scansBefore (p q : Point) : Prop :=
  pt_y p < pt_y q \/ (pt_y p = pt_y q /\ pt_x p <= pt_x q).

Definition scansStrictlyBefore (p q : Point) : Prop :=
  pt_y p < pt_y q \/ (pt_y p = pt_y q /\ pt_x p < pt_x q).

(** Invariant of the scan when it reaches the pixel [pos]: the set pixels
    before [pos] are visited; every contour pushed starts with its first
    pixel in scan order, which lies before [pos]; and the contours are
    listed in the order of their first pixels. *)
Record scanOrder (edgeData : list Z) (width height : Z) (pos : Point)
    (st : list Z * list (list Point)) : Prop := {
  order_visited : forall p, isSet edgeData width height p ->
    scansStrictlyBefore p pos -> peek st.1 (indexOf width p) = Some 1;
  order_heads : forall c, c ∈ st.2 ->
    exists p, head c = Some p /\ inBounds width height p /\
      scansStrictlyBefore p pos /\ forall q, q ∈ c -> scansBefore p q;
  order_sorted : forall (i j : nat) ci cj pi pj, (i < j)%nat ->
    st.2 !! i = Some ci -> st.2 !! j = Some cj ->
    head ci = Some pi -> head cj = Some pj -> scansStrictlyBefore pi pj
}.

(** ** Contours the selector looks at *)

(** [contour.length < 4] is false (line 410). *)
Definition longEnough (contour : list Point) : Prop := (4 <= length contour)%nat.

#[global] Instance longEnough_dec contour : Decision (longEnough contour).
Proof. unfold longEnough. apply _. Defined.

Local Open Scope Q_scope.

(** ** The mask handed to the contour tracer (lines 91-100) *)
Definition contourMask (M : JSMath) (config : CropConfig) (grayData : list Z)
    (width height : Z) : list Z :=
  let blurredData := applyGaussianBlur grayData width height in
  let edgeData :=
    applyCannyEdgeDetection M blurredData width height
      (cannyLow config) (cannyHigh config) in
  if decide (dilationIterations config > 0)%Z
  then applyDilation edgeData width height (dilationIterations config)
  else edgeData.

Local Close Scope Q_scope.

(** ** The pictures of the caller *)

(** Where the point [(u, v)] of the image is painted on the canvas: the
    image is drawn at [offset] in a coordinate system scaled by [scale]. *)
Definition paintedAt (canvas : MirrorCanvas) (u v : Z) : Z * Z :=
  ((mirror_scale canvas).1 * ((mirror_offset canvas).1 + u),
   (mirror_scale canvas).2 * ((mirror_offset canvas).2 + v)).

(** The picture a URL returned by [processHouseImage] shows: the one of
    the source it was made from. *)
Definition pictureOf (url : HouseUrl) : ImageSource :=
  match url with
  | GivenUrl u => FromUrl u
  | CroppedUrl data => FromData data
  | MirroredUrl canvas => mirror_source canvas
  end.

Local Open Scope Q_scope.
(** * Part VII: an instance of [Math] and example inputs *)

(** ** An instance of [Math]

    [fround32] rounds to 24 significant bits, ties to even (a Float32 in its
    normal range); [ieeeSqrt] is the square root rounded to 53 significant
    bits, for 0 and for rationals from 1 upwards; [approxAtan2] follows
    atan2 through the octants with atan t ~ t (pi/4 + 0.273 (1 - |t|)) for
    |t| <= 1, and is the double that [Math.atan2] returns on the axes;
    [integerPow] is the power rounded to a double, for an exponent that is
    an integer. *)

(** The integer part of the binary logarithm of a positive rational. *)
Definition Qlog2 (q : Q) : Z :=
  let k := (Z.log2 (Qnum q) - Z.log2 (Zpos (Qden q)))%Z in
  if Qle_bool (2 ^ k) q then k else (k - 1)%Z.

Definition roundToBits (bits : Z) (q : Q) : Q :=
  if Qeq_bool q 0 then 0
  else
    let a := Qabs q in
    let s := (bits - 1 - Qlog2 a)%Z in
    let v := inject_Z (roundHalfEven (a * 2 ^ s)) / 2 ^ s in
    Qred (if Qle_bool 0 q then v else - v).

Definition fround32 (q : Q) : Q := roundToBits 24 q.

Definition ieeeSqrt (q : Q) : Q :=
  let scaled := q * 4 ^ 64 in
  let n := Qfloor scaled in
  let r := Z.sqrt n in
  let exact := Z.eqb (r * r) n && Qeq_bool (inject_Z n) scaled in
  roundToBits 53
    (if exact then inject_Z r / 2 ^ 64 else inject_Z (2 * r + 1) / 2 ^ 65).

Definition approxAtan (t : Q) : Q :=
  t * (Math_PI / 4 + (273 # 1000) * (1 - Qabs t)).

Definition approxAtan2 (y x : Q) : Q :=
  if Qeq_bool x 0 && Qeq_bool y 0 then 0
  else if Qle_bool (Qabs y) (Qabs x) then
    let a := approxAtan (y / x) in
    if Qle_bool 0 x then a
    else if Qle_bool 0 y then a + Math_PI else a - Math_PI
  else
    let a := approxAtan (x / y) in
    if Qle_bool 0 y then Math_PI / 2 - a else - Math_PI / 2 - a.

Definition integerPow (base exponent : Q) : Q := toDouble (base ^ Qfloor exponent).

Definition approxMath : JSMath :=
  {| Math_sqrt := ieeeSqrt; Math_atan2 := approxAtan2; Math_pow := integerPow;
     Math_fround := fround32 |}.


(** ** Example inputs *)

(** A 5x5 grey image, symmetric about its middle column.  At the centre
    pixel the Sobel gradient is gx = 0, gy = -300: it points straight
    up.  Below the centre, at (2,3), it is gx = 0, gy = 400. *)
Definition exampleGray : list Z :=
  [150; 150;  50; 150; 150;
     0;  50; 150;  50;   0;
   250; 100;  50; 100; 250;
   150;  50;   0;  50; 150;
     0; 150; 200; 150;   0]%Z.

(** The values [Math.sqrt], [Math.atan2] and the Float32 rounding take on
    the gradients of [exampleGray]: the square roots of 0, 100^2, 300^2 and
    400^2, and the angles 0, pi/2, -pi/2 and pi as Float32 values. *)
Definition ieeeOnExample (M : JSMath) : Prop :=
  Math_fround M (Math_sqrt M (0 # 1)) = 0 # 1 /\
  Math_fround M (Math_sqrt M (10000 # 1)) = 100 # 1 /\
  Math_fround M (Math_sqrt M (90000 # 1)) = 300 # 1 /\
  Math_fround M (Math_sqrt M (160000 # 1)) = 400 # 1 /\
  Math_fround M (Math_atan2 M (0 # 1) (0 # 1)) = 0 # 1 /\
  Math_fround M (Math_atan2 M (0 # 1) (300 # 1)) = 0 # 1 /\
  Math_fround M (Math_atan2 M (0 # 1) (400 # 1)) = 0 # 1 /\
  Math_fround M (Math_atan2 M (400 # 1) (0 # 1)) = 13176795 # 8388608 /\
  Math_fround M (Math_atan2 M (-100 # 1) (0 # 1)) = -13176795 # 8388608 /\
  Math_fround M (Math_atan2 M (-300 # 1) (0 # 1)) = -13176795 # 8388608 /\
  Math_fround M (Math_atan2 M (0 # 1) (-300 # 1)) = 13176795 # 4194304 /\
  Math_fround M (Math_atan2 M (0 # 1) (-400 # 1)) = 13176795 # 4194304.

(** The gradients of [exampleGray] under [ieeeOnExample]. *)
Definition exampleGradients : Gradients :=
  mkGradients
    [Some 0; Some 0; Some 0; Some 0; Some 0;
     Some 0; Some 0; Some 100; Some 0; Some 0;
     Some 0; Some 400; Some 300; Some 400; Some 0;
     Some 0; Some 300; Some 400; Some 300; Some 0;
     Some 0; Some 0; Some 0; Some 0; Some 0]
    [Some 0; Some 0; Some 0; Some 0; Some 0;
     Some 0; Some 0; Some (-13176795 # 8388608); Some 0; Some 0;
     Some 0; Some (13176795 # 4194304); Some (-13176795 # 8388608); Some 0; Some 0;
     Some 0; Some (13176795 # 4194304); Some (13176795 # 8388608); Some 0; Some 0;
     Some 0; Some 0; Some 0; Some 0; Some 0].

(** A decoded 16x16 image and two pictures it may hold, as the RGBA bytes
    [getImageData] returns: all black, and a white 6x6 square on black. *)
Definition planImage : HTMLImage := mkImage "plan.png" 16 16.

Definition blackPixels : list Z :=
  _ ← seqZ 0 (16 * 16); [0; 0; 0; 255]%Z.

Definition squarePixels : list Z :=
  y ← seqZ 0 16; x ← seqZ 0 16;
  if decide (5 <= x <= 10 /\ 5 <= y <= 10)%Z
  then [255; 255; 255; 255]%Z else [0; 0; 0; 255]%Z.

(** A browser in which everything works and the canvas holds [pixels]. *)
Definition browserShowing (pixels : list Z) : Browser :=
  {| loadImage := fun _ => Some planImage;
     getContext2d := fun _ => true;
     drawImageError := fun _ => None;
     securityError := fun _ => None;
     readPixels := fun _ => Ok pixels |}.

(** A browser that decodes the image but hands out no 2D context. *)
Definition browserWithoutContext : Browser :=
  {| loadImage := fun _ => Some planImage;
     getContext2d := fun _ => false;
     drawImageError := fun _ => None;
     securityError := fun _ => None;
     readPixels := fun _ => Ok blackPixels |}.

(** The canvas of the specification's example: 1000x800, and the
    rectangle 600x400 centred in it. *)
Definition canvas1000 : Canvas :=
  mkCanvas 1000 800 (DrawImage (mkImage "plan.png" 1000 800) 1000 800).

Definition centredRect : Rect := mkRect 200 200 600 400 0.

Local Close Scope Q_scope.

(** A 3x3 mask whose only set pixel is the corner (0,0). *)
Definition cornerMask : list Z := [255; 0; 0; 0; 0; 0; 0; 0; 0].

(** A 5x5 mask whose only set pixel is the centre (2,2). *)
Definition centreMask : list Z :=
  [0; 0; 0; 0; 0;
   0; 0; 0; 0; 0;
   0; 0; 255; 0; 0;
   0; 0; 0; 0; 0;
   0; 0; 0; 0; 0].

(** A 12x3 mask whose set pixels are the ten pixels (1,1) .. (10,1). *)
Definition tenPixelRow : list Z :=
  replicate 12 0 ++ (0 :: replicate 10 255 ++ [0]) ++ replicate 12 0.

(** A 14x3 mask whose set pixels are the eleven pixels (1,1) .. (11,1). *)
Definition elevenPixelRow : list Z :=
  replicate 14 0 ++ (0 :: replicate 11 255 ++ [0; 0]) ++ replicate 14 0.

(** Three contours in a 40x40 image: two 25x25 boxes whose first-to-last
    direction is vertical (score 625 each), and between them one whose
    direction is diagonal. *)
Definition boxA : list Point := [mkPoint 5 5; mkPoint 30 5; mkPoint 30 30; mkPoint 5 30].
Definition boxB : list Point :=
  [mkPoint 4 4; mkPoint 29 4; mkPoint 29 29; mkPoint 4 29; mkPoint 17 17].
Definition boxC : list Point := [mkPoint 6 6; mkPoint 31 6; mkPoint 31 31; mkPoint 6 31].

(** The sixteen pixels of a block of 8 by 2: a contour whose bounding box
    measures 7 by 1. *)
Definition thinBlock : list Point :=
  y ← seqZ 1 2; x ← seqZ 1 8; [mkPoint x y].

(** Eleven pixels in a row: a contour whose bounding box has height 0. *)
Definition flatContour : list Point := (fun x => mkPoint x 5) <$> seqZ 3 11.

(** Twelve pixels in two columns: a contour whose bounding box has width 1
    and height 5. *)
Definition narrowContour : list Point :=
  y ← seqZ 5 6; x ← seqZ 5 2; [mkPoint x y].

Definition canvas20 : Canvas :=
  mkCanvas 20 20 (DrawImage (mkImage "plan.png" 20 20) 20 20).

Definition canvas40 : Canvas :=
  mkCanvas 40 40 (DrawImage (mkImage "plan.png" 40 40) 40 40).

(** ** Further example inputs *)

(** Two RGBA pixels: an opaque red one and a transparent gray one. *)
Definition twoPixels : list Z := [255; 0; 0; 255; 90; 90; 90; 0].

(** A 3x3 gray image whose nine pixels are 100. *)
Definition flatGray : list Z := replicate 9 100.

(** The cells non-maximum suppression leaves for [exampleGray] with the
    thresholds 60 and 350: strong at (1,2), (3,2), (2,3), weak at (2,2)
    and (1,3). *)
Definition exampleSuppressed : list Z :=
  [0; 0; 0; 0; 0;
   0; 0; 0; 0; 0;
   0; 255; 128; 255; 0;
   0; 128; 255; 0; 0;
   0; 0; 0; 0; 0].

(** A decoded image of 2000x45 pixels. *)
Definition narrowImage : HTMLImage := mkImage "narrow.png" 2000 45.

Local Open Scope Q_scope.

(** The default configuration with minAreaPercent raised to 101. *)
Definition fullAreaConfig : CropConfig :=
  {| cannyLow := 60; cannyHigh := 140; dilationIterations := 1;
     minAreaPercent := 101; insetMargin := 10 |}.

Local Close Scope Q_scope.

(** A browser in which [mirrorImage] always succeeds on a 16x16 image. *)
Definition mirrorBrowser : MirrorBrowser :=
  {| mirrorLoad := fun _ => Some (16, 16);
     mirrorContext2d := fun _ => true;
     mirrorDrawError := fun _ => None |}.

(** The corners of a plot of 20 by 30. *)
Definition plotCorners : list Coordinate :=
  [(0, 0); (20, 0); (20, 30); (0, 30)]%Q.

(** * Part VIII: lemmas *)

(** ** Rounding to doubles *)

Local Open Scope Q_scope.

Lemma pow2_pos e : 0 < 2 ^ e.
Proof. by apply Qpower_0_lt. Qed.

Lemma pow2_plus a b : 2 ^ (a + b) == 2 ^ a * 2 ^ b.
Proof. by apply Qpower_plus. Qed.

Lemma pow2_succ a : 2 ^ (a + 1) == 2 * 2 ^ a.
Proof. rewrite pow2_plus. change (2 ^ 1) with 2. ring. Qed.

Lemma pow2_le a b : (a <= b)%Z -> 2 ^ a <= 2 ^ b.
Proof. intros. by apply Qpower_le_compat_l. Qed.

Lemma pow2_lt a b : (a < b)%Z -> 2 ^ a < 2 ^ b.
Proof. intros. by apply Qpower_lt_compat_l. Qed.

Lemma pow2_Z n : (0 <= n)%Z -> 2 ^ n == inject_Z (2 ^ n).
Proof. intros. by rewrite Zpower_Qpower. Qed.

Lemma pow2_lt_inv a b : 2 ^ a < 2 ^ b -> (a < b)%Z.
Proof. intros. by apply (Qpower_lt_compat_l_inv 2). Qed.

Lemma Qabs_num_den q : Qabs q == inject_Z (Z.abs (Qnum q)) / inject_Z (Zpos (Qden q)).
Proof.
  destruct q as [n d]. unfold Qabs. cbn [Qnum Qden].
  unfold Qeq, Qdiv, Qmult, Qinv, inject_Z. simpl. lia.
Qed.

Lemma binade_spec q : ~ q == 0 -> 2 ^ binade q <= Qabs q /\ Qabs q < 2 ^ (binade q + 1).
Proof.
  intros Hq.
  set (n := Z.abs (Qnum q)). set (d := Zpos (Qden q)).
  assert (0 < n)%Z as Hn.
  { subst n. destruct q as [[|?|?] ?]; cbn; try lia. destruct Hq. reflexivity. }
  assert (0 < d)%Z as Hd by (subst d; lia).
  destruct (Z.log2_spec n Hn) as [Hn1 Hn2].
  destruct (Z.log2_spec d Hd) as [Hd1 Hd2].
  pose proof (Z.log2_nonneg n) as Hln. pose proof (Z.log2_nonneg d) as Hld.
  assert (Qabs q == inject_Z n / inject_Z d) as Habs by apply Qabs_num_den.
  set (k := (Z.log2 n - Z.log2 d)%Z).
  assert (0 < inject_Z d) as HdQ by (change 0 with (inject_Z 0); by rewrite <- Zlt_Qlt).
  assert (2 ^ (k - 1) < Qabs q) as Hlow.
  { rewrite Habs. apply Qlt_shift_div_l; [done|].
    assert (2 ^ (k - 1) * 2 ^ (Z.log2 d + 1) == 2 ^ Z.log2 n) as E.
    { rewrite <- pow2_plus. subst k. by replace (Z.log2 n - Z.log2 d - 1 + (Z.log2 d + 1))%Z
        with (Z.log2 n) by lia. }
    apply Qlt_le_trans with (2 ^ (k - 1) * 2 ^ (Z.log2 d + 1)).
    - apply Qmult_lt_l; [apply pow2_pos|]. rewrite pow2_Z by lia.
      rewrite <- Zlt_Qlt. replace (Z.log2 d + 1)%Z with (Z.succ (Z.log2 d)) by lia. done.
    - rewrite E, pow2_Z by lia. by rewrite <- Zle_Qle. }
  assert (Qabs q < 2 ^ (k + 1)) as Hhigh.
  { rewrite Habs. apply Qlt_shift_div_r; [done|].
    assert (2 ^ (k + 1) * 2 ^ (Z.log2 d) == 2 ^ (Z.log2 n + 1)) as E.
    { rewrite <- pow2_plus. subst k. by replace (Z.log2 n - Z.log2 d + 1 + Z.log2 d)%Z
        with (Z.log2 n + 1)%Z by lia. }
    apply Qlt_le_trans with (2 ^ (Z.log2 n + 1)).
    - rewrite pow2_Z by lia. rewrite <- Zlt_Qlt.
      replace (Z.log2 n + 1)%Z with (Z.succ (Z.log2 n)) by lia. done.
    - rewrite <- E. apply Qmult_le_l; [apply pow2_pos|]. rewrite pow2_Z by lia.
      by rewrite <- Zle_Qle. }
  unfold binade. fold n d k.
  destruct (Qle_bool (2 ^ k) (Qabs q)) eqn:Hc.
  - apply Qle_bool_iff in Hc. done.
  - split.
    + by apply Qlt_le_weak.
    + replace (k - 1 + 1)%Z with k by lia.
      apply Qnot_le_lt. intros Hle. apply Qle_bool_iff in Hle. congruence.
Qed.

Lemma binade_unique q e : 2 ^ e <= Qabs q -> Qabs q < 2 ^ (e + 1) -> binade q = e.
Proof.
  intros H1 H2.
  assert (~ q == 0) as Hq.
  { intros E. rewrite E in H1. pose proof (pow2_pos e). change (Qabs 0) with 0 in H1. lra. }
  destruct (binade_spec q Hq) as [H3 H4].
  assert (binade q < e + 1)%Z by (apply pow2_lt_inv; lra).
  assert (e < binade q + 1)%Z by (apply pow2_lt_inv; lra).
  lia.
Qed.

Lemma binade_eq x y : x == y -> ~ x == 0 -> binade x = binade y.
Proof.
  intros E Hx. destruct (binade_spec x Hx) as [H1 H2].
  symmetry. apply binade_unique; by rewrite <- E.
Qed.

Lemma binade_mono x y : 0 < x -> x <= y -> (binade x <= binade y)%Z.
Proof.
  intros Hx Hxy.
  assert (~ x == 0) as Hx0 by (intros E; rewrite E in Hx; lra).
  assert (~ y == 0) as Hy0 by (intros E; rewrite E in Hxy; lra).
  destruct (binade_spec x Hx0) as [H1 _]. destruct (binade_spec y Hy0) as [_ H2].
  rewrite Qabs_pos in H1 by lra. rewrite Qabs_pos in H2 by lra.
  assert (binade x < binade y + 1)%Z by (apply pow2_lt_inv; lra). lia.
Qed.

(** ** Rounding to the nearest integer *)

Lemma roundHalfEven_floor q :
  (Qfloor q <= roundHalfEven q <= Qfloor q + 1)%Z.
Proof.
  unfold roundHalfEven. cbv zeta.
  destruct (Qcompare _ _); [destruct (Z.even _)|..]; lia.
Qed.

Lemma roundHalfEven_near q :
  q - (1 # 2) <= inject_Z (roundHalfEven q) <= q + (1 # 2).
Proof.
  pose proof (Qfloor_le q) as Hlo. pose proof (Qlt_floor q) as Hhi.
  rewrite inject_Z_plus in Hhi. change (inject_Z 1) with 1 in Hhi.
  unfold roundHalfEven. cbv zeta.
  destruct (Qcompare_spec (q - inject_Z (Qfloor q)) (1 # 2)) as [E|E|E].
  - destruct (Z.even _); [|rewrite inject_Z_plus; change (inject_Z 1) with 1]; lra.
  - lra.
  - rewrite inject_Z_plus. change (inject_Z 1) with 1. lra.
Qed.

Lemma roundHalfEven_Z n : roundHalfEven (inject_Z n) = n.
Proof.
  unfold roundHalfEven. cbv zeta. rewrite Qfloor_Z.
  destruct (Qcompare_spec (inject_Z n - inject_Z n) (1 # 2)) as [E|E|E]; [lra|done|lra].
Qed.

#[global] Instance roundHalfEven_proper : Proper (Qeq ==> eq) roundHalfEven.
Proof.
  intros x y E. unfold roundHalfEven. cbv zeta.
  assert (Qfloor x = Qfloor y) as -> by (by rewrite E).
  assert (Qcompare (x - inject_Z (Qfloor y)) (1 # 2)
          = Qcompare (y - inject_Z (Qfloor y)) (1 # 2)) as ->; [|done].
  by rewrite E.
Qed.

Lemma roundHalfEven_mono x y : x <= y -> (roundHalfEven x <= roundHalfEven y)%Z.
Proof.
  intros Hxy. pose proof (Qfloor_resp_le x y Hxy) as Hf.
  destruct (decide (Qfloor x = Qfloor y)) as [Heq|Hne].
  - unfold roundHalfEven. cbv zeta. rewrite Heq.
    destruct (Qcompare_spec (x - inject_Z (Qfloor y)) (1 # 2)) as [E|E|E];
      destruct (Qcompare_spec (y - inject_Z (Qfloor y)) (1 # 2)) as [E'|E'|E'];
      try destruct (Z.even _); try lia; lra.
  - pose proof (roundHalfEven_floor x). pose proof (roundHalfEven_floor y). lia.
Qed.

Lemma roundHalfEven_le_Z q n : q <= inject_Z n -> (roundHalfEven q <= n)%Z.
Proof. intros H. rewrite <- (roundHalfEven_Z n). by apply roundHalfEven_mono. Qed.

Lemma roundHalfEven_ge_Z q n : inject_Z n <= q -> (n <= roundHalfEven q)%Z.
Proof. intros H. rewrite <- (roundHalfEven_Z n). by apply roundHalfEven_mono. Qed.

(** ** Rounding to a double *)

Lemma toDouble_unfold q :
  ~ q == 0 -> toDouble q == inject_Z (roundHalfEven (q / 2 ^ ulpExp q)) * 2 ^ ulpExp q.
Proof.
  intros Hq. unfold toDouble.
  destruct (Qeq_bool q 0) eqn:E; [by apply Qeq_bool_iff in E|].
  by rewrite Qred_correct.
Qed.

Lemma toDouble_0 q : q == 0 -> toDouble q = 0.
Proof. intros Hq. unfold toDouble. apply Qeq_bool_iff in Hq. by rewrite Hq. Qed.

Lemma toDouble_eq x y : x == y -> toDouble x = toDouble y.
Proof.
  intros E. unfold toDouble.
  destruct (Qeq_bool x 0) eqn:Ex.
  - apply Qeq_bool_iff in Ex. rewrite E in Ex. apply Qeq_bool_iff in Ex. by rewrite Ex.
  - assert (~ x == 0) as Hx by (by apply Qeq_bool_neq).
    assert (Qeq_bool y 0 = false) as ->.
    { destruct (Qeq_bool y 0) eqn:Ey; [|done].
      apply Qeq_bool_iff in Ey. rewrite <- E in Ey. done. }
    unfold ulpExp. rewrite (binade_eq x y E Hx).
    apply Qred_complete. by rewrite E.
Qed.

#[global] Instance toDouble_proper : Proper (Qeq ==> Qeq) toDouble.
Proof. intros x y E. by rewrite (toDouble_eq x y E). Qed.

Lemma toDouble_nonneg q : 0 <= q -> 0 <= toDouble q.
Proof.
  intros Hq. destruct (Qeq_dec q 0) as [E|E]; [by rewrite toDouble_0|].
  rewrite toDouble_unfold by done.
  apply Qmult_le_0_compat; [|apply Qlt_le_weak, pow2_pos].
  change 0 with (inject_Z 0). rewrite <- Zle_Qle. apply roundHalfEven_ge_Z.
  apply Qle_shift_div_l; [apply pow2_pos|]. change (inject_Z 0) with 0. lra.
Qed.

(** The error of rounding is at most half a unit in the last place. *)
Lemma toDouble_near q :
  ~ q == 0 -> Qabs (toDouble q - q) <= 2 ^ ulpExp q / 2.
Proof.
  intros Hq. rewrite toDouble_unfold by done.
  set (p := 2 ^ ulpExp q). assert (0 < p) as Hp by apply pow2_pos.
  pose proof (roundHalfEven_near (q / p)) as [H1 H2].
  set (m := inject_Z (roundHalfEven (q / p))) in *.
  set (t := q / p) in *.
  assert (q == t * p) as Hqp by (subst t; field; lra).
  apply Qabs_Qle_condition. unfold Qdiv. change (/ 2) with (1 # 2).
  split; nra.
Qed.

Lemma ulpExp_binade q : (binade q - 52 <= ulpExp q)%Z /\ (-1074 <= ulpExp q)%Z.
Proof. unfold ulpExp. lia. Qed.

(** In the normal range the error is at most [2 ^ -53] of the value. *)
Lemma toDouble_relative q :
  2 ^ (-1022) <= Qabs q -> Qabs (toDouble q - q) <= Qabs q * 2 ^ (-53).
Proof.
  intros Hn.
  assert (~ q == 0) as Hq.
  { intros E. rewrite E in Hn. pose proof (pow2_pos (-1022)). change (Qabs 0) with 0 in Hn. lra. }
  destruct (binade_spec q Hq) as [Hb1 Hb2].
  assert (-1022 <= binade q)%Z as Hb.
  { assert (-1022 < binade q + 1)%Z; [|lia]. apply pow2_lt_inv. lra. }
  assert (ulpExp q = binade q - 52)%Z as He by (unfold ulpExp; lia).
  eapply Qle_trans; [by apply toDouble_near|]. rewrite He.
  assert (2 ^ (binade q - 52) / 2 == 2 ^ binade q * 2 ^ (-53)) as ->.
  { replace (binade q - 52)%Z with (binade q + (-53) + 1)%Z by lia.
    rewrite pow2_succ, pow2_plus. field. }
  apply Qmult_le_compat_r; [done|]. apply Qlt_le_weak, pow2_pos.
Qed.

(** A number [m * 2 ^ k] with [|m| < 2 ^ 53] and [k >= -1074] is a double. *)
Lemma toDouble_dyadic m k :
  (Z.abs m < 2 ^ 53)%Z -> (-1074 <= k)%Z ->
  toDouble (inject_Z m * 2 ^ k) == inject_Z m * 2 ^ k.
Proof.
  intros Hm Hk. set (q := inject_Z m * 2 ^ k).
  destruct (Qeq_dec q 0) as [E|E]; [by rewrite (toDouble_0 _ E), E|].
  rewrite toDouble_unfold by done.
  assert (ulpExp q <= k)%Z as He.
  { destruct (binade_spec q E) as [Hb1 _].
    assert (Qabs q < 2 ^ (53 + k)) as Hlt.
    { subst q. rewrite Qabs_Qmult, (Qabs_pos (2 ^ k)) by apply Qlt_le_weak, pow2_pos.
      rewrite pow2_plus. apply Qmult_lt_compat_r; [apply pow2_pos|].
      assert (Qabs (inject_Z m) == inject_Z (Z.abs m)) as -> by (by destruct m).
      rewrite pow2_Z by lia. by rewrite <- Zlt_Qlt. }
    assert (binade q < 53 + k)%Z by (apply pow2_lt_inv; lra).
    unfold ulpExp. lia. }
  assert (q / 2 ^ ulpExp q == inject_Z (m * 2 ^ (k - ulpExp q))) as ->.
  { subst q. rewrite inject_Z_mult, <- pow2_Z by lia.
    replace k with ((k - ulpExp (inject_Z m * 2 ^ k)) + ulpExp (inject_Z m * 2 ^ k))%Z at 1 by lia.
    rewrite pow2_plus. field. pose proof (pow2_pos (ulpExp (inject_Z m * 2 ^ k))). lra. }
  rewrite roundHalfEven_Z. subst q.
  rewrite inject_Z_mult, <- pow2_Z by lia.
  rewrite <- Qmult_assoc, <- pow2_plus. by replace (k - _ + _)%Z with k by lia.
Qed.

Lemma toDouble_Z n : (Z.abs n < 2 ^ 53)%Z -> toDouble (inject_Z n) == inject_Z n.
Proof.
  intros Hn. pose proof (toDouble_dyadic n 0 Hn ltac:(lia)) as H.
  change (2 ^ 0) with 1 in H. by rewrite Qmult_1_r in H.
Qed.

(** Rounding is monotone (stated on the numbers that are not negative). *)
Lemma toDouble_mono x y : 0 <= x -> x <= y -> toDouble x <= toDouble y.
Proof.
  intros Hx Hxy.
  destruct (Qeq_dec x 0) as [Ex|Ex].
  { rewrite (toDouble_0 _ Ex). apply toDouble_nonneg. lra. }
  assert (0 < x) as Hx' by lra.
  assert (~ y == 0) as Ey by (intros E; rewrite E in Hxy; lra).
  rewrite !toDouble_unfold by done.
  pose proof (binade_mono x y Hx' Hxy) as Hb.
  destruct (decide (ulpExp x = ulpExp y)) as [He|He].
  - rewrite He. apply Qmult_le_compat_r; [|apply Qlt_le_weak, pow2_pos].
    rewrite <- Zle_Qle. apply roundHalfEven_mono.
    apply Qmult_le_compat_r; [done|]. apply Qlt_le_weak, Qinv_lt_0_compat, pow2_pos.
  - assert (ulpExp x + 1 <= ulpExp y)%Z as Hlt by (unfold ulpExp in *; lia).
    assert (ulpExp y = binade y - 52)%Z as Hey by (unfold ulpExp in *; lia).
    destruct (binade_spec x Ex) as [_ Hx2]. destruct (binade_spec y Ey) as [Hy1 _].
    rewrite Qabs_pos in Hx2 by lra. rewrite Qabs_pos in Hy1 by lra.
    apply Qle_trans with (2 ^ binade y).
    + apply Qle_trans with (inject_Z (2 ^ 53) * 2 ^ ulpExp x).
      * apply Qmult_le_compat_r; [|apply Qlt_le_weak, pow2_pos].
        rewrite <- Zle_Qle. apply roundHalfEven_le_Z.
        apply Qle_shift_div_r; [apply pow2_pos|].
        rewrite <- pow2_Z, <- pow2_plus by lia.
        apply Qlt_le_weak. eapply Qlt_le_trans; [exact Hx2|].
        apply pow2_le. unfold ulpExp. lia.
      * rewrite <- pow2_Z, <- pow2_plus by lia. apply pow2_le. lia.
    + apply Qle_trans with (inject_Z (2 ^ 52) * 2 ^ ulpExp y).
      * rewrite <- pow2_Z, <- pow2_plus by lia. apply pow2_le. lia.
      * apply Qmult_le_compat_r; [|apply Qlt_le_weak, pow2_pos].
        rewrite <- Zle_Qle. apply roundHalfEven_ge_Z.
        apply Qle_shift_div_l; [apply pow2_pos|].
        rewrite <- pow2_Z, <- pow2_plus by lia.
        eapply Qle_trans; [|exact Hy1]. apply pow2_le. lia.
Qed.

Lemma toDouble_nonpos q : q <= 0 -> toDouble q <= 0.
Proof.
  intros Hq. destruct (Qeq_dec q 0) as [E|E]; [by rewrite toDouble_0|].
  rewrite toDouble_unfold by done.
  assert (inject_Z (roundHalfEven (q / 2 ^ ulpExp q)) <= 0) as H.
  { change 0 with (inject_Z 0). rewrite <- Zle_Qle. apply roundHalfEven_le_Z.
    apply Qle_shift_div_r; [apply pow2_pos|]. change (inject_Z 0) with 0. lra. }
  pose proof (pow2_pos (ulpExp q)). nra.
Qed.

Lemma toDouble_Z_over n k :
  (Z.abs n < 2 ^ 53)%Z -> (0 <= k <= 1074)%Z ->
  toDouble (inject_Z n / inject_Z (2 ^ k)) == inject_Z n / inject_Z (2 ^ k).
Proof.
  intros Hn Hk.
  assert (inject_Z n / inject_Z (2 ^ k) == inject_Z n * 2 ^ (- k)) as E.
  { rewrite Qpower_opp, pow2_Z by lia. reflexivity. }
  rewrite (toDouble_eq _ _ E), E. apply toDouble_dyadic; [done|lia].
Qed.

Lemma toDouble_quarter n :
  (Z.abs n < 2 ^ 53)%Z -> toDouble (inject_Z n / 4) == inject_Z n / 4.
Proof. intros Hn. exact (toDouble_Z_over n 2 Hn ltac:(lia)). Qed.

Lemma toDouble_half n :
  (Z.abs n < 2 ^ 53)%Z -> toDouble (inject_Z n / 2) == inject_Z n / 2.
Proof. intros Hn. exact (toDouble_Z_over n 1 Hn ltac:(lia)). Qed.

(** Rounding does not cross an integer, nor a half or a quarter of one. *)
Lemma toDouble_le_Z q n : (Z.abs n < 2 ^ 53)%Z -> 0 <= q -> q <= inject_Z n -> toDouble q <= inject_Z n.
Proof. intros Hn H0 H. rewrite <- (toDouble_Z n Hn). by apply toDouble_mono. Qed.

Lemma toDouble_ge_Z q n : (0 <= n < 2 ^ 53)%Z -> inject_Z n <= q -> inject_Z n <= toDouble q.
Proof.
  intros Hn H. rewrite <- (toDouble_Z n) by lia. apply toDouble_mono; [|done].
  change 0 with (inject_Z 0). rewrite <- Zle_Qle. lia.
Qed.

Lemma toDouble_le_over q n k :
  (Z.abs n < 2 ^ 53)%Z -> (0 <= k <= 1074)%Z -> 0 <= q ->
  q <= inject_Z n / inject_Z (2 ^ k) -> toDouble q <= inject_Z n / inject_Z (2 ^ k).
Proof.
  intros Hn Hk H0 H. rewrite <- (toDouble_Z_over n k Hn Hk). by apply toDouble_mono.
Qed.

Lemma toDouble_ge_over q n k :
  (0 <= n < 2 ^ 53)%Z -> (0 <= k <= 1074)%Z ->
  inject_Z n / inject_Z (2 ^ k) <= q -> inject_Z n / inject_Z (2 ^ k) <= toDouble q.
Proof.
  intros Hn Hk H. rewrite <- (toDouble_Z_over n k) by lia. apply toDouble_mono; [|done].
  apply Qle_shift_div_l.
  - change 0 with (inject_Z 0). rewrite <- Zlt_Qlt. lia.
  - rewrite Qmult_0_l. change 0 with (inject_Z 0). rewrite <- Zle_Qle. lia.
Qed.

(** [q] lies between [lo / 2 ^ k] and [hi / 2 ^ k], and so does its double. *)
Lemma toDouble_between q lo hi k :
  (0 <= lo)%Z -> (hi < 2 ^ 53)%Z -> (0 <= k <= 1074)%Z ->
  inject_Z lo / inject_Z (2 ^ k) <= q <= inject_Z hi / inject_Z (2 ^ k) ->
  inject_Z lo / inject_Z (2 ^ k) <= toDouble q <= inject_Z hi / inject_Z (2 ^ k).
Proof.
  intros Hlo Hhi Hk [H1 H2].
  assert (0 < inject_Z (2 ^ k)) as Hp.
  { change 0 with (inject_Z 0). rewrite <- Zlt_Qlt. lia. }
  assert (0 <= inject_Z lo / inject_Z (2 ^ k)) as H0.
  { apply Qle_shift_div_l; [done|]. rewrite Qmult_0_l.
    change 0 with (inject_Z 0). rewrite <- Zle_Qle. lia. }
  assert (lo <= hi)%Z as Hle.
  { assert (inject_Z lo / inject_Z (2 ^ k) <= inject_Z hi / inject_Z (2 ^ k)) as H by lra.
    unfold Qdiv in H. apply Qmult_le_r in H; [|by apply Qinv_lt_0_compat].
    by rewrite Zle_Qle. }
  split.
  - apply toDouble_ge_over; [lia|done|done].
  - apply toDouble_le_over; [lia|done|lra|done].
Qed.

Lemma jsMul_mono c x y :
  0 <= c -> 0 <= x -> x <= y -> 0 <= jsMul c x /\ jsMul c x <= jsMul c y.
Proof.
  intros Hc Hx Hxy. unfold jsMul.
  assert (0 <= c * x) by (by apply Qmult_le_0_compat).
  split; [by apply toDouble_nonneg|]. apply toDouble_mono; [done|nra].
Qed.

Lemma jsAdd_mono a b a' b' :
  0 <= a -> a <= a' -> 0 <= b -> b <= b' ->
  0 <= jsAdd a b /\ jsAdd a b <= jsAdd a' b'.
Proof.
  intros Ha Haa Hb Hbb. unfold jsAdd.
  split; [apply toDouble_nonneg; lra|]. apply toDouble_mono; lra.
Qed.

(** Known doubles: [0.1] is [3602879701896397 / 2 ^ 55], [0.1 + 0.2] is one
    unit in the last place above [0.3], [100 * (7 / 100)] is above [7], and
    half of the smallest subnormal is a tie that goes to the even side. *)
Lemma toDouble_known_values :
  toDouble (1 # 10) = 3602879701896397 # 36028797018963968 /\
  toDouble (3 # 10) = 5404319552844595 # 18014398509481984 /\
  jsAdd (toDouble (1 # 10)) (toDouble (2 # 10)) = 1351079888211149 # 4503599627370496 /\
  jsMul 100 (jsDiv 7 100) = 7881299347898369 # 1125899906842624 /\
  toDouble (2 ^ (-1075)) = 0 /\
  toDouble (3 * 2 ^ (-1075)) == 2 ^ (-1073).
Proof. by vm_compute. Qed.

Ltac qnorm :=
  unfold Qdiv in *; change (/ 4) with (1 # 4) in *; change (/ 2) with (1 # 2) in *.

Local Close Scope Q_scope.

(** ** Folds and batches of writes *)

Lemma foldl_bind {A B C} (f : A -> B -> A) (g : C -> list B) (l : list C) (a : A) :
  foldl f a (l ≫= g) = foldl (fun a x => foldl f a (g x)) a l.
Proof.
  revert a. induction l as [|c l IH]; intros a; simpl; [done|].
  by rewrite foldl_app, IH.
Qed.

Lemma foldl_ext_in {A B} (f g : A -> B -> A) (l : list B) (a : A) :
  (forall a x, x ∈ l -> f a x = g a x) -> foldl f a l = foldl g a l.
Proof.
  revert a. induction l as [|x l IH]; intros a Hfg; simpl; [done|].
  rewrite Hfg by constructor. apply IH. intros; apply Hfg. by constructor.
Qed.

Lemma dilateOnce_pokeAll d width height :
  dilateOnce d width height = pokeAll 255 (dilationTargets d width height) d.
Proof.
  unfold dilateOnce, pokeAll, dilationTargets, forRange.
  replace (height - 1 - 1) with (height - 2) by lia.
  replace (width - 1 - 1) with (width - 2) by lia.
  rewrite foldl_bind. apply foldl_ext_in; intros b y _.
  rewrite foldl_bind. apply foldl_ext_in; intros b' x _.
  case_decide; [|done].
  unfold window. change (2 - -1) with 3.
  rewrite foldl_bind. apply foldl_ext_in; intros b1 dy _.
  rewrite foldl_bind. apply foldl_ext_in; intros b2 dx _.
  reflexivity.
Qed.

Lemma length_poke {A} i (v : A) buf : length (poke i v buf) = length buf.
Proof. unfold poke. case_decide; [apply length_insert|done]. Qed.

Lemma length_pokeAll {A} (v : A) l buf : length (pokeAll v l buf) = length buf.
Proof.
  unfold pokeAll. revert buf. induction l as [|i l IH]; intros buf; simpl; [done|].
  by rewrite IH, length_poke.
Qed.

Lemma lookup_poke {A} i (v : A) buf (j : nat) :
  poke i v buf !! j =
  if decide (i = Z.of_nat j /\ (j < length buf)%nat) then Some v else buf !! j.
Proof.
  unfold poke. case_decide as Hi.
  - destruct (decide (Z.to_nat i = j)) as [<-|Hne].
    + destruct (decide ((Z.to_nat i < length buf)%nat)) as [Hlt|Hge].
      * rewrite list_lookup_insert_eq by done.
        rewrite decide_True; [done|]. split; [lia|done].
      * rewrite list_insert_ge by lia.
        rewrite decide_False; [done|]. intros [_ ?]; lia.
    + rewrite list_lookup_insert_ne by done.
      rewrite decide_False; [done|]. intros [-> _]. lia.
  - rewrite decide_False; [done|]. intros [-> _]. lia.
Qed.

Lemma lookup_pokeAll {A} (v : A) l buf (j : nat) :
  pokeAll v l buf !! j =
  if decide (Z.of_nat j ∈ l /\ (j < length buf)%nat) then Some v else buf !! j.
Proof.
  unfold pokeAll. revert buf. induction l as [|i l IH]; intros buf; cbn [foldl].
  - case_decide as H; [|done]. destruct H as [H _]. by apply elem_of_nil in H.
  - rewrite IH, length_poke, lookup_poke.
    destruct (decide (Z.of_nat j ∈ l /\ _)) as [[Hl Hj]|Hl].
    + rewrite decide_True; [done|]. split; [by right|done].
    + destruct (decide (i = Z.of_nat j /\ _)) as [[-> Hj]|Hi].
      * rewrite decide_True; [done|]. split; [by left|done].
      * rewrite decide_False; [done|]. intros [Hin Hj].
        apply elem_of_cons in Hin as [Heq|Hin]; [by apply Hi|by apply Hl].
Qed.

Lemma elem_of_window width x y i :
  i ∈ window width x y <->
  exists dx dy, -1 <= dx <= 1 /\ -1 <= dy <= 1 /\ i = (y + dy) * width + (x + dx).
Proof.
  unfold window. rewrite list_elem_of_bind. split.
  - intros (dy & Hi & Hdy). apply list_elem_of_bind in Hi as (dx & Hi & Hdx).
    apply list_elem_of_singleton in Hi. apply elem_of_seqZ in Hdy, Hdx.
    exists dx, dy. repeat split; lia.
  - intros (dx & dy & Hdx & Hdy & ->). exists dy. split.
    + apply list_elem_of_bind. exists dx. split; [by apply list_elem_of_singleton|].
      apply elem_of_seqZ. lia.
    + apply elem_of_seqZ. lia.
Qed.

Lemma elem_of_dilationTargets d width height i :
  i ∈ dilationTargets d width height <-> spreadsTo d width height i.
Proof.
  unfold dilationTargets, spreadsTo, interior. rewrite list_elem_of_bind. split.
  - intros (y & Hi & Hy). apply list_elem_of_bind in Hi as (x & Hi & Hx).
    apply elem_of_seqZ in Hy, Hx. case_decide as Hset.
    + apply elem_of_window in Hi as (dx & dy & ? & ? & ->).
      exists x, y, dx, dy. repeat split; try lia. done.
    + by apply elem_of_nil in Hi.
  - intros (x & y & dx & dy & [Hx Hy] & Hset & Hdx & Hdy & ->).
    exists y. split; [|apply elem_of_seqZ; lia].
    apply list_elem_of_bind. exists x. split; [|apply elem_of_seqZ; lia].
    rewrite decide_True by done. apply elem_of_window. by exists dx, dy.
Qed.

Lemma dilateOnce_spread d width height (j : nat) :
  (j < length d)%nat -> spreadsTo d width height (Z.of_nat j) ->
  dilateOnce d width height !! j = Some 255.
Proof.
  intros Hj Hs. rewrite dilateOnce_pokeAll, lookup_pokeAll.
  rewrite decide_True; [done|]. split; [by apply elem_of_dilationTargets|done].
Qed.

Lemma dilateOnce_other d width height (j : nat) :
  ~ spreadsTo d width height (Z.of_nat j) ->
  dilateOnce d width height !! j = d !! j.
Proof.
  intros Hs. rewrite dilateOnce_pokeAll, lookup_pokeAll.
  rewrite decide_False; [done|]. intros [Hin _]. by apply Hs, elem_of_dilationTargets.
Qed.

Lemma dilateOnce_keeps d width height (j : nat) :
  d !! j = Some 255 -> dilateOnce d width height !! j = Some 255.
Proof.
  intros Hd. rewrite dilateOnce_pokeAll, lookup_pokeAll. by case_decide.
Qed.

Lemma applyDilation_succ edgeData width height n :
  0 <= n ->
  applyDilation edgeData width height (n + 1) =
  dilateOnce (applyDilation edgeData width height n) width height.
Proof.
  intros Hn. unfold applyDilation.
  replace (Z.to_nat (n + 1)) with (S (Z.to_nat n)) by lia. reflexivity.
Qed.

(** ** Loops *)

Lemma forRange_nil {T} lo hi (body : Z -> T -> T) init :
  hi <= lo -> forRange lo hi body init = init.
Proof.
  intros H. unfold forRange, seqZ. replace (Z.to_nat (hi - lo)) with O by lia. done.
Qed.

Lemma forRange_snoc {T} lo hi (body : Z -> T -> T) init :
  lo <= hi ->
  forRange lo (hi + 1) body init = body hi (forRange lo hi body init).
Proof.
  intros H. unfold forRange.
  replace (hi + 1 - lo) with ((hi - lo) + 1) by lia.
  rewrite seqZ_app by lia. rewrite foldl_app. simpl.
  replace (lo + (hi - lo)) with hi by lia.
  change (seqZ hi 1) with [hi]. reflexivity.
Qed.

(** Induction over the iterations of a [for] loop, with the loop counter. *)
Lemma forRange_ind {T} (P : Z -> T -> Prop) lo hi (body : Z -> T -> T) init :
  lo <= hi ->
  P lo init ->
  (forall i s, lo <= i < hi -> P i s -> P (i + 1) (body i s)) ->
  P hi (forRange lo hi body init).
Proof.
  intros Hle H0 Hstep.
  assert (forall n : nat, lo + Z.of_nat n <= hi ->
            P (lo + Z.of_nat n) (forRange lo (lo + Z.of_nat n) body init)) as Hn.
  { induction n as [|n IH]; intros Hb.
    - rewrite Z.add_0_r, forRange_nil by lia. done.
    - replace (lo + Z.of_nat (S n)) with (lo + Z.of_nat n + 1) by lia.
      rewrite forRange_snoc by lia. apply Hstep; [lia|]. apply IH. lia. }
  specialize (Hn (Z.to_nat (hi - lo))).
  replace (lo + Z.of_nat (Z.to_nat (hi - lo))) with hi in Hn by lia.
  apply Hn. lia.
Qed.

(** Invariants that do not mention the loop counter. *)
Lemma forRange_inv {T} (P : T -> Prop) lo hi (body : Z -> T -> T) init :
  P init ->
  (forall i s, lo <= i < hi -> P s -> P (body i s)) ->
  P (forRange lo hi body init).
Proof.
  intros H0 Hstep. destruct (decide (lo <= hi)) as [Hle|Hgt].
  - apply (forRange_ind (fun _ => P)); auto.
  - rewrite forRange_nil by lia. done.
Qed.

Lemma runLoop_inv {T} (P : T -> Prop) (step : T -> option T) fuel s :
  (forall s s', P s -> step s = Some s' -> P s') ->
  P s -> P (runLoop step fuel s).
Proof.
  intros Hstep. revert s. induction fuel as [|n IH]; intros s Hs; simpl; [done|].
  destruct (step s) as [s'|] eqn:E; [|done]. apply IH. by eapply Hstep.
Qed.

Lemma runLoop_terminates {T} (m : T -> nat) (step : T -> option T) fuel s :
  (forall s s', step s = Some s' -> (m s' < m s)%nat) ->
  (m s <= fuel)%nat ->
  step (runLoop step fuel s) = None.
Proof.
  intros Hdec. revert s. induction fuel as [|n IH]; intros s Hm; simpl.
  - destruct (step s) as [s'|] eqn:E; [|done]. apply Hdec in E. lia.
  - destruct (step s) as [s'|] eqn:E; [|done]. apply IH. apply Hdec in E. lia.
Qed.

(** ** Reading and writing cells *)

Lemma peek_Some_range {A} (buf : list A) i v :
  peek buf i = Some v -> 0 <= i < Z.of_nat (length buf).
Proof.
  unfold peek. case_decide; [|done]. intros Hl%lookup_lt_Some. lia.
Qed.

Lemma peek_poke {A} i (v : A) buf j :
  peek (poke i v buf) j =
  if decide (i = j /\ 0 <= i < Z.of_nat (length buf)) then Some v else peek buf j.
Proof.
  unfold peek. destruct (decide (0 <= j)) as [Hj|Hj].
  - rewrite lookup_poke.
    destruct (decide (i = Z.of_nat (Z.to_nat j) /\ _)) as [[-> ?]|Hn].
    + rewrite decide_True; [done|]. lia.
    + rewrite decide_False; [done|]. lia.
  - rewrite decide_False; [done|]. lia.
Qed.

Lemma peek_poke_eq {A} i (v w : A) buf :
  peek buf i = Some w -> peek (poke i v buf) i = Some v.
Proof.
  intros H%peek_Some_range. rewrite peek_poke, decide_True; [done|]. lia.
Qed.

Lemma peek_poke_ne {A} i j (v : A) buf :
  i <> j -> peek (poke i v buf) j = peek buf j.
Proof. intros H. rewrite peek_poke, decide_False; [done|]. by intros [? _]. Qed.

Lemma peek_replicate {A} n (v w : A) i :
  peek (replicate n v) i = Some w -> w = v.
Proof.
  unfold peek. case_decide; [|done]. intros Hl%lookup_replicate. by destruct Hl.
Qed.

(** ** The contour tracer *)

Lemma elem_of_offsets dx dy :
  (dx, dy) ∈ offsets <-> -1 <= dx <= 1 /\ -1 <= dy <= 1.
Proof.
  unfold offsets. rewrite list_elem_of_bind. split.
  - intros (dy' & Hi & Hdy). apply list_elem_of_bind in Hi as (dx' & Hi & Hdx).
    apply list_elem_of_singleton in Hi. injection Hi as -> ->.
    apply elem_of_seqZ in Hdy, Hdx. lia.
  - intros [Hdx Hdy]. exists dy. split; [|apply elem_of_seqZ; lia].
    apply list_elem_of_bind. exists dx. split; [by apply list_elem_of_singleton|].
    apply elem_of_seqZ. lia.
Qed.

Lemma indexOf_inj width height p q :
  inBounds width height p -> inBounds width height q ->
  indexOf width p = indexOf width q -> p = q.
Proof.
  destruct p as [px py], q as [qx qy]. unfold inBounds, indexOf. simpl.
  intros (?&?&?&?) (?&?&?&?) Heq.
  assert (py = qy) as -> by nia. f_equal. lia.
Qed.

Section Tracer.
Context (edgeData : list Z) (width height : Z).

Lemma elem_of_pushNeighbours visited x y l acc q :
  q ∈ foldl (pushNeighbour edgeData visited width height x y) acc l <->
  q ∈ acc \/
  exists dx dy, (dx, dy) ∈ l /\ q = mkPoint (x + dx) (y + dy) /\
    inBounds width height q /\ peek visited (indexOf width q) = Some 0 /\
    peek edgeData (indexOf width q) = Some 255.
Proof.
  revert acc. induction l as [|[dx dy] l IH]; intros acc; cbn [foldl].
  - split; [by left|]. intros [?|(dx & dy & H & _)]; [done|].
    by apply elem_of_nil in H.
  - rewrite IH. unfold pushNeighbour. cbv zeta. split.
    + intros [Hacc|(dx' & dy' & Hin & Hq)].
      * repeat case_decide; try (by left).
        apply elem_of_cons in Hacc as [->|Hacc]; [|by left].
        right. exists dx, dy. split; [by left|]. split; [done|].
        split; [done|]. unfold indexOf; simpl. tauto.
      * right. exists dx', dy'. split; [by right|done].
    + intros [Hacc|(dx' & dy' & Hin & Hq)].
      * left. repeat case_decide; try done. by right.
      * apply elem_of_cons in Hin as [Heq|Hin].
        -- injection Heq as -> ->. left. destruct Hq as (-> & Hb & Hv & He).
           rewrite decide_True by done. unfold indexOf in Hv, He; simpl in Hv, He.
           rewrite decide_True by done. by left.
        -- right. by exists dx', dy'.
Qed.

Lemma length_pushNeighbours visited x y l acc :
  (length (foldl (pushNeighbour edgeData visited width height x y) acc l) <= length acc + length l)%nat.
Proof.
  revert acc. induction l as [|[dx dy] l IH]; intros acc; cbn [foldl]; [simpl; lia|].
  etrans; [apply IH|]. unfold pushNeighbour. cbv zeta.
  repeat case_decide; simpl; lia.
Qed.

Lemma elem_of_unvisitedNeighbours visited x y q :
  q ∈ unvisitedNeighbours edgeData visited width height x y <->
  touches (mkPoint x y) q /\ inBounds width height q /\
  peek visited (indexOf width q) = Some 0 /\
  peek edgeData (indexOf width q) = Some 255.
Proof.
  unfold unvisitedNeighbours.
  rewrite elem_of_pushNeighbours. split.
  - intros [H|(dx & dy & Ho & -> & Hb & Hv & He)]; [by apply elem_of_nil in H|].
    apply elem_of_offsets in Ho. split; [|done]. unfold touches; simpl. lia.
  - intros ([Hx Hy] & Hb & Hv & He). simpl in Hx, Hy. right.
    exists (pt_x q - x), (pt_y q - y). split; [apply elem_of_offsets; lia|].
    split; [|done]. destruct q; simpl; f_equal; lia.
Qed.

Lemma length_unvisitedNeighbours visited x y :
  (length (unvisitedNeighbours edgeData visited width height x y) <= 9)%nat.
Proof.
  unfold unvisitedNeighbours.
  etrans; [apply length_pushNeighbours|]. done.
Qed.

End Tracer.

Lemma zeros_poke (visited : list Z) i v :
  peek visited i = Some 0 -> v <> 0 ->
  (zeros (poke i v visited) + 1 = zeros visited)%nat.
Proof.
  intros HV Hv. unfold peek in HV. case_decide as Hi; [|done].
  unfold poke. rewrite decide_True by done.
  rewrite insert_take_drop by (by eapply lookup_lt_Some).
  rewrite <- (take_drop_middle visited _ _ HV) at 3.
  unfold zeros. rewrite !filter_app, !length_app.
  rewrite (filter_cons_False _ v) by done.
  rewrite (filter_cons_True _ 0) by done. simpl. lia.
Qed.

Section TraceLoop.
Context (edgeData : list Z) (width height : Z).

Local Abbreviation step := (traceStep edgeData width height).
Local Abbreviation safe := (traceSafe edgeData width height).
Local Abbreviation conn := (connected edgeData width height).
Local Abbreviation adj := (adjacent edgeData width height).
Local Abbreviation set := (isSet edgeData width height).

Lemma traceSafe_init visited0 start :
  inBounds width height start ->
  safe visited0 (mkTrace visited0 [] [start]).
Proof.
  intros Hb. split; simpl.
  - done.
  - by left.
  - intros p Hp. by apply elem_of_nil in Hp.
  - intros p [Hp|Hp]; [by apply elem_of_nil in Hp|].
    by apply list_elem_of_singleton in Hp as ->.
  - constructor.
Qed.

Lemma traceSafe_step visited0 s s' :
  safe visited0 s -> step s = Some s' -> safe visited0 s'.
Proof.
  intros [Hlen Hframe Hcont Hbnd Hnd] Hstep. unfold traceStep in Hstep.
  destruct s as [V c stk]; simpl in *.
  destruct stk as [|p stk]; [done|].
  destruct (decide _) as [[HV He]|Hno]; injection Hstep as <-.
  - (* the popped pixel is visited now *)
    fold (indexOf width p) in *.
    assert (peek visited0 (indexOf width p) = Some 0) as HV0.
    { destruct (Hframe (indexOf width p)) as [<-|[H1 _]]; [done|congruence]. }
    split; simpl.
    + by rewrite length_poke.
    + intros i. destruct (decide (indexOf width p = i)) as [<-|Hne].
      * right. split; [by eapply peek_poke_eq|].
        exists p. split; [|done]. apply elem_of_app; right. by left.
      * rewrite peek_poke_ne by done.
        destruct (Hframe i) as [?|(? & q & ? & ?)]; [by left|right].
        split; [done|]. exists q. split; [|done]. apply elem_of_app; by left.
    + intros q [Hq|Hq%list_elem_of_singleton]%elem_of_app.
      * destruct (Hcont q Hq) as (? & ? & ?). split_and!; try done.
        destruct (decide (indexOf width p = indexOf width q)) as [<-|Hne];
          [by eapply peek_poke_eq|by rewrite peek_poke_ne].
      * subst q. split_and!; [done|by eapply peek_poke_eq|done].
    + intros q [[Hq|Hq%list_elem_of_singleton]%elem_of_app|[Hq|Hq]%elem_of_app].
      * apply Hbnd. by left.
      * subst q. apply Hbnd. right. by left.
      * by apply elem_of_unvisitedNeighbours in Hq as (_ & ? & _).
      * apply Hbnd. right. by right.
    + apply NoDup_app. split_and!; [done| |apply NoDup_singleton].
      intros q Hq ->%list_elem_of_singleton.
      destruct (Hcont p Hq) as (_ & ? & _). congruence.
  - split; simpl; try done.
    intros q [Hq|Hq]; apply Hbnd; [by left|right; by right].
Qed.

Lemma traceStep_decreases s s' :
  step s = Some s' -> (traceMeasure s' < traceMeasure s)%nat.
Proof.
  unfold traceStep, traceMeasure. destruct s as [V c stk]; simpl.
  destruct stk as [|p stk]; [done|].
  destruct (decide _) as [[HV He]|Hno]; intros [= <-]; simpl; [|lia].
  rewrite length_app.
  pose proof (length_unvisitedNeighbours edgeData width height
                (poke (pt_y p * width + pt_x p) 1 V) (pt_x p) (pt_y p)).
  pose proof (zeros_poke V (pt_y p * width + pt_x p) 1 HV) as Hz. lia.
Qed.

Lemma traceContour_terminates visited startX startY :
  step (runLoop step (traceFuel visited)
          (mkTrace visited [] [mkPoint startX startY])) = None.
Proof.
  apply (runLoop_terminates traceMeasure); [apply traceStep_decreases|].
  unfold traceMeasure, traceFuel, zeros; simpl.
  pose proof (length_filter (fun v => v = 0) visited). lia.
Qed.

End TraceLoop.

Section Components.
Context (edgeData : list Z) (width height : Z).

Local Abbreviation conn := (connected edgeData width height).
Local Abbreviation adj := (adjacent edgeData width height).
Local Abbreviation set := (isSet edgeData width height).

Lemma touches_sym p q : touches p q -> touches q p.
Proof. unfold touches. lia. Qed.

Lemma adjacent_sym p q : adj p q -> adj q p.
Proof. intros (? & ? & ?). split_and!; try done. by apply touches_sym. Qed.

Lemma connected_sym p q : conn p q -> conn q p.
Proof.
  induction 1 as [|x y z Hxy _ IH]; [done|].
  eapply rtc_r; [exact IH|]. by apply adjacent_sym.
Qed.

Lemma connected_isSet p q : set p -> conn p q -> set q.
Proof.
  intros Hp Hc. induction Hc as [|x y z Hxy _ IH]; [done|].
  apply IH. by destruct Hxy as (_ & ? & _).
Qed.

Lemma connected_same_component p q r : conn p q -> (conn p r <-> conn q r).
Proof.
  intros Hpq. split; intros H.
  - etrans; [by apply connected_sym|done].
  - by etrans.
Qed.

End Components.

Section TraceReach.
Context (edgeData : list Z) (width height : Z).
Context (visited0 : list Z) (start : Point).
Hypothesis Hstart : isSet edgeData width height start.
Hypothesis Hlen : length visited0 = length edgeData.
Hypothesis Hbin : binaryMask visited0.
Hypothesis Hfresh :
  forall q, connected edgeData width height start q ->
            peek visited0 (indexOf width q) = Some 0.

Local Abbreviation step := (traceStep edgeData width height).
Local Abbreviation safe := (traceSafe edgeData width height visited0).
Local Abbreviation reach := (traceReach edgeData width height start).
Local Abbreviation conn := (connected edgeData width height).

Lemma safe_binary s : safe s -> binaryMask (tr_visited s).
Proof.
  intros Hs i v Hv. destruct (safe_frame _ _ _ _ _ Hs i) as [Heq|[H1 _]].
  - rewrite Heq in Hv. by eapply Hbin.
  - right. congruence.
Qed.

Lemma safe_defined s i a :
  safe s -> peek edgeData i = Some a ->
  peek (tr_visited s) i = Some 0 \/ peek (tr_visited s) i = Some 1.
Proof.
  intros Hs Ha. apply peek_Some_range in Ha as Hr.
  pose proof (safe_len _ _ _ _ _ Hs) as Hl.
  destruct (peek (tr_visited s) i) as [v|] eqn:Hv.
  - destruct (safe_binary s Hs i v Hv) as [-> | ->]; auto.
  - unfold peek in Hv. rewrite decide_True in Hv by lia.
    apply lookup_ge_None in Hv. lia.
Qed.

Lemma visited_in_contour s q :
  safe s -> conn start q -> peek (tr_visited s) (indexOf width q) = Some 1 ->
  q ∈ tr_contour s.
Proof.
  intros Hs Hq Hv.
  destruct (safe_frame _ _ _ _ _ Hs (indexOf width q)) as [Heq|(_ & p & Hp & Hidx)].
  - rewrite Hfresh in Heq by done. congruence.
  - assert (p = q) as ->; [|done].
    eapply indexOf_inj; [| |done].
    + eapply safe_bounds; [exact Hs|by left].
    + by destruct (connected_isSet _ _ _ _ _ Hstart Hq).
Qed.

Lemma traceReach_init : reach (mkTrace visited0 [] [start]).
Proof.
  split; simpl.
  - by intros q ->%list_elem_of_singleton.
  - intros q Hq. by apply elem_of_nil in Hq.
  - intros q n Hq. by apply elem_of_nil in Hq.
  - right. by left.
Qed.

Lemma traceReach_step s s' :
  safe s -> reach s -> step s = Some s' -> reach s'.
Proof.
  intros Hsafe [Hstk Hcont Hfront Hst] Hstep.
  pose proof (traceSafe_step _ _ _ _ _ _ Hsafe Hstep) as Hsafe'.
  unfold traceStep in Hstep. destruct s as [V c stk];
    simpl in Hstk, Hcont, Hfront, Hst, Hstep.
  destruct stk as [|p stk]; [done|].
  assert (conn start p) as Hp by (apply Hstk; by left).
  pose proof (connected_isSet _ _ _ _ _ Hstart Hp) as Hpset.
  fold (indexOf width p) in Hstep.
  destruct (decide _) as [[HV He]|Hno]; injection Hstep as <-.
  - split; simpl.
    + intros q [Hq|Hq]%elem_of_app; [|apply Hstk; by right].
      apply elem_of_unvisitedNeighbours in Hq as (Ht & Hb & _ & Hq).
      eapply rtc_r; [exact Hp|]. split_and!; [done|by split|].
      by destruct p.
    + intros q [Hq|Hq%list_elem_of_singleton]%elem_of_app; [by apply Hcont|by subst].
    + intros q n [Hq|Hq%list_elem_of_singleton]%elem_of_app Hadj.
      * destruct (Hfront q n Hq Hadj) as [Hn|[->|Hn]%elem_of_cons].
        -- left. rewrite peek_poke. by case_decide.
        -- left. by eapply peek_poke_eq.
        -- right. apply elem_of_app. by right.
      * subst q. destruct Hadj as (_ & [Hnb Hne] & Hnt).
        destruct (safe_defined _ _ _ Hsafe' Hne) as [H0|H1]; [right|by left].
        simpl in H0. apply elem_of_app; left.
        apply elem_of_unvisitedNeighbours. by split_and!.
    + destruct Hst as [Hst|[Heq|Hst]%elem_of_cons].
      * left. apply elem_of_app. by left.
      * subst p. left. apply elem_of_app. right. by left.
      * right. apply elem_of_app. by right.
  - assert (peek V (indexOf width p) = Some 1) as HV1.
    { destruct Hpset as [_ He].
      destruct (safe_defined _ _ _ Hsafe He) as [H0|H1]; [|done].
      exfalso. apply Hno. by split. }
    split; simpl.
    + intros q Hq. apply Hstk. by right.
    + done.
    + intros q n Hq Hadj.
      destruct (Hfront q n Hq Hadj) as [Hn|[->|Hn]%elem_of_cons]; auto.
    + destruct Hst as [Hst|[Heq|Hst]%elem_of_cons]; auto.
      subst p. left. by apply (visited_in_contour _ _ Hsafe Hp).
Qed.

(** The traced contour is the whole component of the start pixel. *)
Lemma traceContour_component q :
  inBounds width height start ->
  q ∈ (traceContour edgeData visited0 width height (pt_x start) (pt_y start)).2 <->
  conn start q.
Proof.
  intros Hb. unfold traceContour. cbv zeta. simpl.
  pose proof (traceContour_terminates edgeData width height visited0
                (pt_x start) (pt_y start)) as Hend.
  assert (mkPoint (pt_x start) (pt_y start) = start) as Heq by (by destruct start).
  rewrite Heq in *.
  set (final := runLoop step (traceFuel visited0) (mkTrace visited0 [] [start])) in *.
  assert (safe final /\ reach final) as [Hsafe Hreach].
  { apply (runLoop_inv (fun s => safe s /\ reach s)).
    - intros s s' [? ?] Hs. split; [by eapply traceSafe_step|by eapply traceReach_step].
    - split; [by apply traceSafe_init|apply traceReach_init]. }
  assert (tr_stack final = []) as Hempty.
  { unfold traceStep in Hend. destruct (tr_stack final); [done|].
    by destruct (decide _). }
  split; [apply (reach_contour _ _ _ _ _ Hreach)|].
  revert q. apply (rtc_ind_r (fun q => q ∈ tr_contour final)); [|intros y z Hy Hyz IH].
  - destruct (reach_start _ _ _ _ _ Hreach) as [?|Hin]; [done|].
    rewrite Hempty in Hin. by apply elem_of_nil in Hin.
  - destruct (reach_frontier _ _ _ _ _ Hreach y z IH Hyz) as [Hv|Hin].
    + apply visited_in_contour; [done| |done]. by eapply rtc_r.
    + rewrite Hempty in Hin. by apply elem_of_nil in Hin.
Qed.

End TraceReach.

(** ** The scan of findContours *)

Lemma elem_of_concat {A} (ls : list (list A)) (x : A) :
  x ∈ concat ls <-> exists l, x ∈ l /\ l ∈ ls.
Proof.
  rewrite list_elem_of_In, in_concat. split.
  - intros (l & Hl & Hx). exists l. by rewrite !list_elem_of_In.
  - intros (l & Hx & Hl). exists l. by rewrite <- !list_elem_of_In.
Qed.

Section Scan.
Context (edgeData : list Z) (width height : Z).

Local Abbreviation conn := (connected edgeData width height).
Local Abbreviation set := (isSet edgeData width height).
Local Abbreviation inv := (scanInv edgeData width height).

Lemma binary_defined (visited : list Z) i a :
  length visited = length edgeData -> binaryMask visited ->
  peek edgeData i = Some a ->
  peek visited i = Some 0 \/ peek visited i = Some 1.
Proof.
  intros Hl Hb Ha. apply peek_Some_range in Ha as Hr.
  destruct (peek visited i) as [v|] eqn:Hv.
  - destruct (Hb i v Hv) as [-> | ->]; auto.
  - unfold peek in Hv. rewrite decide_True in Hv by lia.
    apply lookup_ge_None in Hv. lia.
Qed.

Lemma scanInv_init : inv (replicate (length edgeData) 0, []).
Proof.
  split; simpl.
  - apply length_replicate.
  - intros i v Hv. left. by eapply peek_replicate.
  - intros c p Hc. by apply elem_of_nil in Hc.
  - constructor.
  - intros c Hc. by apply elem_of_nil in Hc.
  - intros p _ Hp. apply peek_replicate in Hp. done.
Qed.

(** Tracing from an unvisited set pixel. *)
Lemma scanInv_trace visited contours x y :
  inBounds width height (mkPoint x y) ->
  peek edgeData (y * width + x) = Some 255 ->
  peek visited (y * width + x) = Some 0 ->
  inv (visited, contours) ->
  let r := traceContour edgeData visited width height x y in
  let contours' := if decide (10 < length r.2)%nat then contours ++ [r.2] else contours in
  inv (r.1, contours') /\
  (forall i, peek visited i = Some 1 -> peek r.1 i = Some 1) /\
  peek r.1 (y * width + x) = Some 1.
Proof.
  intros Hb He HV [Hlen Hbin Hmark Hnd Hkept Htraced] r contours'.
  simpl in Hlen, Hbin, Hmark, Hnd, Hkept, Htraced.
  set (start := mkPoint x y) in *.
  assert (set start) as Hstart by (by split).
  (* no pixel of the component of [start] is visited yet *)
  assert (forall q, conn start q -> peek visited (indexOf width q) = Some 0) as Hfresh.
  { intros q Hq. pose proof (connected_isSet _ _ _ _ _ Hstart Hq) as [Hqb Hqe].
    destruct (binary_defined _ _ _ Hlen Hbin Hqe) as [?|Hq1]; [done|]. exfalso.
    destruct (Htraced q (conj Hqb Hqe) Hq1) as (c & _ & Hc & Hcv & _).
    assert (start ∈ c) as Hs by (by apply Hc, connected_sym).
    apply Hcv in Hs. unfold indexOf in Hs; simpl in Hs. congruence. }
  pose proof (fun q => traceContour_component edgeData width height visited start
                Hstart Hlen Hbin Hfresh q Hb) as Hcomp.
  (* the final state of the loop *)
  subst r contours'. unfold traceContour in *. cbv zeta in *.
  cbn [fst snd pt_x pt_y start] in *.
  set (final := runLoop (traceStep edgeData width height) (traceFuel visited)
                  (mkTrace visited [] [start])) in *.
  assert (traceSafe edgeData width height visited final) as Hsafe.
  { apply runLoop_inv; [intros ? ? ?; by apply traceSafe_step|].
    by apply traceSafe_init. }
  destruct Hsafe as [Hlen' Hframe Hcont Hbnd Hnd'].
  set (V' := tr_visited final) in *. set (c := tr_contour final) in *.
  set (contours' := if decide (10 < length c)%nat then contours ++ [c] else contours).
  change (inv (V', contours') /\
          (forall i, peek visited i = Some 1 -> peek V' i = Some 1) /\
          peek V' (y * width + x) = Some 1).
  assert (forall i, peek visited i = Some 1 -> peek V' i = Some 1) as Hmono.
  { intros i Hi. destruct (Hframe i) as [->|[? _]]; done. }
  assert (forall c', c' ∈ contours' <-> c' ∈ contours \/ (c' = c /\ (10 < length c)%nat))
    as Hin'.
  { intros c'. subst contours'. case_decide as Hbig.
    - rewrite elem_of_app, list_elem_of_singleton.
      split; [intros [?| ->]; [by left|by right]|intros [?|[-> _]]; [by left|by right]].
    - split; [by left|intros [?|[_ ?]]; [done|lia]]. }
  assert (start ∈ c) as Hsc by (by apply Hcomp).
  split; [|split; [done|]].
  2: { destruct (Hcont start Hsc) as (_ & H1 & _). exact H1. }
  split; simpl.
  - congruence.
  - intros i v Hv. destruct (Hframe i) as [Heq|[H1 _]].
    + rewrite Heq in Hv. by eapply Hbin.
    + right. congruence.
  - intros c' p [Hc'|[-> _]]%Hin' Hp.
    + apply Hmono. by eapply Hmark.
    + by destruct (Hcont p Hp) as (_ & ? & _).
  - subst contours'. case_decide; [|done].
    rewrite concat_app. simpl. rewrite app_nil_r.
    apply NoDup_app. split_and!; [done| |done].
    intros p (c0 & Hp & Hc0)%elem_of_concat Hpc.
    destruct (Hcont p Hpc) as (H0 & _). rewrite (Hmark c0 p Hc0 Hp) in H0. done.
  - intros c' [Hc'|[-> Hbig]]%Hin'; [by apply Hkept|].
    split; [done|]. by exists start.
  - intros p Hp Hp1.
    destruct Hp as [Hpb Hpe].
    destruct (binary_defined _ _ _ Hlen Hbin Hpe) as [Hp0|HpV].
    + (* [p] was visited by this trace *)
      assert (p ∈ c) as Hpc.
      { destruct (Hframe (indexOf width p)) as [Heq|(_ & p' & Hp' & Hidx)];
          [congruence|].
        assert (p' = p) as <-; [|done].
        eapply indexOf_inj; [| |done]; [|done]. apply Hbnd. by left. }
      exists c. split_and!.
      * done.
      * intros q. etrans; [apply Hcomp|]. apply connected_same_component. by apply Hcomp.
      * intros q Hq. by destruct (Hcont q Hq) as (_ & ? & _).
      * intros Hbig. apply Hin'. by right.
      * intros Hsmall c' [Hc'|[_ ?]]%Hin' Hpc'; [|lia].
        rewrite (Hmark c' p Hc' Hpc') in Hp0. done.
    + (* [p] was visited before *)
      destruct (Htraced p (conj Hpb Hpe) HpV) as (c0 & Hnd0 & Hc0 & Hv0 & Hbig0 & Hsmall0).
      exists c0. split_and!; try done.
      * intros q Hq. by apply Hmono, Hv0.
      * intros Hbig. apply Hin'. left. by apply Hbig0.
      * intros Hsmall c' [Hc'|[-> _]]%Hin' Hpc'; [by eapply Hsmall0|].
        destruct (Hcont p Hpc') as (H0 & _). congruence.
Qed.

Lemma scanPixel_inv x y st :
  0 <= x < width -> 0 <= y < height -> inv st ->
  inv (scanPixel edgeData width height x y st) /\
  (forall i, peek st.1 i = Some 1 ->
             peek (scanPixel edgeData width height x y st).1 i = Some 1) /\
  (peek edgeData (y * width + x) = Some 255 ->
   peek (scanPixel edgeData width height x y st).1 (y * width + x) = Some 1).
Proof.
  intros Hx Hy Hinv. destruct st as [visited contours]. unfold scanPixel.
  destruct (decide _) as [[He HV]|Hno].
  - assert (inBounds width height (mkPoint x y)) as Hb by (unfold inBounds; simpl; lia).
    pose proof (scanInv_trace visited contours x y Hb He HV Hinv) as H.
    destruct (traceContour edgeData visited width height x y) as [V' c].
    cbv zeta in H. cbn [fst snd] in H |- *.
    destruct H as (H1 & H2 & H3). by case_decide.
  - split; [done|]. split; [done|]. intros He. cbn [fst].
    destruct (binary_defined visited _ _ (scan_len _ _ _ _ Hinv)
                (scan_bin _ _ _ _ Hinv) He) as [H0|H1]; [|done].
    exfalso. apply Hno. by split.
Qed.

Lemma scanRow_inv y st :
  0 <= y < height -> inv st ->
  (forall p, set p -> pt_y p < y -> peek st.1 (indexOf width p) = Some 1) ->
  let st' := forRange 0 width
               (fun x st => scanPixel edgeData width height x y st) st in
  inv st' /\
  (forall p, set p -> pt_y p < y + 1 -> peek st'.1 (indexOf width p) = Some 1).
Proof.
  intros Hy Hinv Hdone st'. subst st'.
  destruct (decide (0 <= width)) as [Hw|Hw].
  - pose (P := fun (x : Z) (st : list Z * list (list Point)) =>
        inv st /\
        forall p, set p -> pt_y p < y \/ (pt_y p = y /\ pt_x p < x) ->
                  peek st.1 (indexOf width p) = Some 1).
    assert (P width (forRange 0 width
              (fun x st => scanPixel edgeData width height x y st) st)) as [H1 H2].
    { apply forRange_ind; [done| |].
      - split; [done|]. intros p Hp [?|[_ ?]]; [by apply Hdone|].
        destruct Hp as [(? & _) _]. lia.
      - intros x s Hx [Hs Hvis].
        destruct (scanPixel_inv x y s Hx Hy Hs) as (Hs' & Hmono & Hhere).
        split; [done|]. intros p Hp Hpos.
        destruct (decide (pt_y p = y /\ pt_x p = x)) as [[Hpy Hpx]|Hne].
        + destruct Hp as [_ Hpe]. unfold indexOf in *. rewrite Hpy, Hpx in *.
          by apply Hhere.
        + apply Hmono, Hvis; [done|]. lia. }
    split; [done|]. intros p Hp Hlt. apply H2; [done|].
    destruct Hp as [(? & ? & _) _]. lia.
  - rewrite forRange_nil by lia. split; [done|].
    intros p [(? & ? & _) _]. lia.
Qed.

(** At the end of the scan every set pixel has been visited. *)
Lemma findContours_scanned :
  exists visited,
    inv (visited, findContours edgeData width height) /\
    forall p, set p -> peek visited (indexOf width p) = Some 1.
Proof.
  unfold findContours. cbv zeta.
  set (body := fun y st => forRange 0 width
                 (fun x st => scanPixel edgeData width height x y st) st).
  set (final := forRange 0 height body (replicate (length edgeData) 0, [])).
  exists final.1. destruct (decide (0 <= height)) as [Hh|Hh].
  - pose (P := fun (y : Z) (st : list Z * list (list Point)) =>
        inv st /\
        forall p, set p -> pt_y p < y -> peek st.1 (indexOf width p) = Some 1).
    assert (P height final) as [H1 H2].
    { apply forRange_ind; [done| |].
      - split; [apply scanInv_init|]. intros p [(_ & _ & ? & _) _]. lia.
      - intros y s Hy [Hs Hvis]. by apply scanRow_inv. }
    split; [by destruct final|].
    intros p Hp. apply H2; [done|]. destruct Hp as [(_ & _ & _ & ?) _]. done.
  - subst final. rewrite forRange_nil by lia. split; [apply scanInv_init|].
    intros p [(_ & _ & ? & ?) _]. lia.
Qed.

End Scan.

Lemma NoDup_concat_inv {A} (ls : list (list A)) :
  NoDup (concat ls) ->
  (forall l, l ∈ ls -> NoDup l) /\
  (forall (i j : nat) li lj x, i <> j -> ls !! i = Some li -> ls !! j = Some lj ->
     x ∈ li -> x ∉ lj).
Proof.
  induction ls as [|l ls IH]; simpl.
  - intros _. split; [intros l Hl; by apply elem_of_nil in Hl|]. by intros [|?] ? ? ? ? ?.
  - intros (Hl & Hdisj & Hls)%NoDup_app. destruct (IH Hls) as [IH1 IH2].
    split.
    + intros l' [->|Hin]%elem_of_cons; [done|by apply IH1].
    + intros [|i] [|j] li lj x Hij Hi Hj Hx Hx'; simpl in Hi, Hj.
      * done.
      * injection Hi as <-. apply (Hdisj x Hx).
        apply elem_of_concat. exists lj. split; [done|]. by eapply list_elem_of_lookup_2.
      * injection Hj as <-. apply (Hdisj x Hx').
        apply elem_of_concat. exists li. split; [done|]. by eapply list_elem_of_lookup_2.
      * apply (IH2 i j li lj x); [congruence|done..].
Qed.

(** Every contour the tracer returns has more than 10 points, so the
    selector never meets one it would skip for having fewer than 4. *)
Lemma findContours_lengths (edgeData : list Z) (width height : Z) :
  Forall (fun c => (4 <= length c)%nat) (findContours edgeData width height).
Proof.
  destruct (findContours_scanned edgeData width height) as (V & Hinv & _).
  apply Forall_forall. intros c Hc.
  destruct (scan_kept _ _ _ _ Hinv c Hc) as [Hlen _]. lia.
Qed.

(** ** The rectangle selector *)

Lemma Qltb_lt (a b : Q) : Qltb a b = true <-> (a < b)%Q.
Proof.
  unfold Qltb. rewrite negb_true_iff. split.
  - intros H. apply Qnot_le_lt. intros Hle. apply Qle_bool_iff in Hle. congruence.
  - intros H. destruct (Qle_bool b a) eqn:E; [|done].
    apply Qle_bool_iff in E. exfalso. by apply (Qlt_not_le a b).
Qed.

Lemma Qltb_ge (a b : Q) : Qltb a b = false <-> (b <= a)%Q.
Proof.
  unfold Qltb. rewrite negb_false_iff. apply Qle_bool_iff.
Qed.

Lemma foldr_min_acc a x l : foldr Z.min (Z.min a x) l = Z.min x (foldr Z.min a l).
Proof. induction l as [|y l IH]; simpl; [lia|]. rewrite IH. lia. Qed.

Lemma foldr_max_acc a x l : foldr Z.max (Z.max a x) l = Z.max x (foldr Z.max a l).
Proof. induction l as [|y l IH]; simpl; [lia|]. rewrite IH. lia. Qed.

Lemma foldl_min_foldr a l : foldl Z.min a l = foldr Z.min a l.
Proof.
  revert a. induction l as [|x l IH]; intros a; simpl; [done|].
  by rewrite IH, foldr_min_acc.
Qed.

Lemma foldl_max_foldr a l : foldl Z.max a l = foldr Z.max a l.
Proof.
  revert a. induction l as [|x l IH]; intros a; simpl; [done|].
  by rewrite IH, foldr_max_acc.
Qed.

Lemma boundingFold_split (l : list Point) a b c d :
  foldl (fun '(minX, maxX, minY, maxY) point =>
           (Z.min minX (pt_x point), Z.max maxX (pt_x point),
            Z.min minY (pt_y point), Z.max maxY (pt_y point)))
        (a, b, c, d) l
  = (foldl Z.min a (pt_x <$> l), foldl Z.max b (pt_x <$> l),
     foldl Z.min c (pt_y <$> l), foldl Z.max d (pt_y <$> l)).
Proof.
  revert a b c d. induction l as [|p l IH]; intros a b c d; simpl; [done|].
  by rewrite IH.
Qed.

Lemma getBoundingRect_spec (contour : list Point) :
  contour <> [] -> getBoundingRect contour = Ok (spec_box contour).
Proof.
  destruct contour as [|p0 l]; [done|]. intros _.
  unfold getBoundingRect. rewrite boundingFold_split.
  unfold spec_box. simpl.
  rewrite !Z.min_id, !Z.max_id, !foldl_min_foldr, !foldl_max_foldr. done.
Qed.

Lemma spec_box_nonneg (contour : list Point) :
  (0 <= b_width (spec_box contour) /\ 0 <= b_height (spec_box contour))%Z.
Proof.
  assert (forall l, leastOf l <= greatestOf l)%Z as H.
  { intros [|x l]; simpl; [done|].
    assert (foldr Z.min x l <= x /\ x <= foldr Z.max x l)%Z; [|lia].
    induction l as [|y l IH]; simpl; lia. }
  unfold spec_box; simpl.
  pose proof (H (pt_x <$> contour)). pose proof (H (pt_y <$> contour)). lia.
Qed.

Lemma calculateMinAreaRect_spec (M : JSMath) (contour : list Point) :
  (4 <= length contour)%nat ->
  calculateMinAreaRect M contour = Ok (sel_rect M contour).
Proof.
  intros Hlen. unfold calculateMinAreaRect.
  rewrite getBoundingRect_spec by (intros ->; simpl in Hlen; lia).
  unfold sel_rect, contourAngle, sel_angle. simpl.
  rewrite decide_True by lia. done.
Qed.

Lemma borderPadOf_spec (imageWidth imageHeight : Z) :
  borderPadOf imageWidth imageHeight
  = Math_round (jsMul (toDouble (2 # 100)) (inject_Z (Z.min imageWidth imageHeight))).
Proof.
  unfold borderPadOf, jsMul. f_equal. apply toDouble_eq, Qmult_comm.
Qed.

Section Selector.
Context (M : JSMath) (imageWidth imageHeight : Z) (pct : Q).

Local Abbreviation survives := (sel_survives imageWidth imageHeight pct).
Local Abbreviation consider :=
  (considerContour M imageWidth imageHeight
     (minAreaOf imageWidth imageHeight pct) (borderPadOf imageWidth imageHeight)).

Lemma considerContour_rejected best c :
  (4 <= length c)%nat -> ~ survives c -> consider best c = Ok best.
Proof.
  intros Hlen Hno. unfold considerContour.
  rewrite decide_False by lia.
  rewrite getBoundingRect_spec by (intros ->; simpl in Hlen; lia).
  unfold mbind, outcome_bind.
  destruct (Qltb _ _) eqn:Harea; [done|].
  destruct (decide _) as [Hb|Hb]; [done|].
  exfalso. apply Hno. split.
  - unfold sel_tooSmall, sel_area. fold (minAreaOf imageWidth imageHeight pct).
    apply Qle_not_lt. by apply Qltb_ge.
  - unfold sel_hugsBorder. rewrite <- borderPadOf_spec. cbv zeta.
    intros H. apply Hb. lia.
Qed.

Lemma considerContour_survivor best c :
  (4 <= length c)%nat -> survives c ->
  consider best c =
  Ok (Some match best with
           | Some (r, s) =>
               if Qltb s (sel_score M c)
               then (sel_rect M c, sel_score M c) else (r, s)
           | None => (sel_rect M c, sel_score M c)
           end).
Proof.
  intros Hlen [Harea Hborder]. unfold considerContour.
  rewrite decide_False by lia.
  rewrite getBoundingRect_spec by (intros ->; simpl in Hlen; lia).
  unfold mbind, outcome_bind.
  assert (Qltb (sel_area c) (minAreaOf imageWidth imageHeight pct) = false) as Hge.
  { apply Qltb_ge. by apply Qnot_lt_le. }
  unfold sel_area in Hge. rewrite Hge.
  rewrite decide_False.
  2: { intros H. apply Hborder. unfold sel_hugsBorder.
       rewrite <- borderPadOf_spec. cbv zeta. lia. }
  rewrite calculateMinAreaRect_spec by done.
  destruct best as [[r s]|]; [|done].
  change (jsMul (jsMul (inject_Z (b_width (spec_box c))) (inject_Z (b_height (spec_box c))))
            (axisAlignedScore (r_angle (sel_rect M c)))) with (sel_score M c).
  by destruct (Qltb s (sel_score M c)).
Qed.

Lemma survives_dec c : survives c \/ ~ survives c.
Proof.
  unfold sel_survives, sel_tooSmall.
  destruct (Qlt_le_dec (sel_area c)
              (jsMul (jsMul (inject_Z imageWidth) (inject_Z imageHeight))
                 (jsDiv pct 100))) as [Hs|Hs].
  - right. intros [H _]. by apply H.
  - assert (Decision (sel_hugsBorder imageWidth imageHeight c)) as [Hb|Hb]
      by (unfold sel_hugsBorder; apply _).
    + right. intros [_ H]. by apply H.
    + left. split; [by apply Qle_not_lt|done].
Qed.

Lemma selectionOf_step seen best c :
  (4 <= length c)%nat ->
  selectionOf M imageWidth imageHeight pct seen best ->
  exists best', consider best c = Ok best' /\
    selectionOf M imageWidth imageHeight pct (seen ++ [c]) best'.
Proof.
  intros Hlen Hinv. destruct (survives_dec c) as [Hc|Hc].
  - rewrite considerContour_survivor by done. eexists. split; [reflexivity|].
    destruct best as [[r s]|]; simpl in Hinv |- *.
    + destruct Hinv as (i & c0 & Hi & Hc0 & -> & -> & Hmax & Hfirst).
      destruct (Qltb _ _) eqn:Hlt.
      * (* strictly better: the new contour is selected *)
        apply Qltb_lt in Hlt.
        exists (length seen), c. split_and!; try done.
        -- by rewrite lookup_app_r, Nat.sub_diag by lia.
        -- intros c' [Hc'| ->%list_elem_of_singleton]%elem_of_app Hs.
           ++ apply Qlt_le_weak. eapply Qle_lt_trans; [by apply Hmax|done].
           ++ apply Qle_refl.
        -- intros j c' Hj Hj' Hs. rewrite lookup_app_l in Hj' by done.
           eapply Qle_lt_trans; [|exact Hlt]. apply Hmax; [|done].
           by eapply list_elem_of_lookup_2.
      * (* not better: the earlier selection stays *)
        apply Qltb_ge in Hlt.
        exists i, c0. split_and!; try done.
        -- rewrite lookup_app_l; [done|]. by eapply lookup_lt_Some.
        -- intros c' [Hc'| ->%list_elem_of_singleton]%elem_of_app Hs; [by apply Hmax|done].
        -- intros j c' Hj Hj' Hs. apply (Hfirst j c'); [done| |done].
           apply lookup_lt_Some in Hi. rewrite lookup_app_l in Hj' by lia. done.
    + exists (length seen), c. split_and!; try done.
      * by rewrite lookup_app_r, Nat.sub_diag by lia.
      * intros c' [Hc'| ->%list_elem_of_singleton]%elem_of_app Hs.
        -- by destruct (Hinv c' Hc').
        -- apply Qle_refl.
      * intros j c' Hj Hj' Hs. rewrite lookup_app_l in Hj' by done.
        destruct (Hinv c'); [by eapply list_elem_of_lookup_2|done].
  - rewrite considerContour_rejected by done. exists best. split; [done|].
    destruct best as [[r s]|]; simpl in Hinv |- *.
    + destruct Hinv as (i & c0 & Hi & Hc0 & -> & -> & Hmax & Hfirst).
      exists i, c0. split_and!; try done.
      * rewrite lookup_app_l; [done|]. by eapply lookup_lt_Some.
      * intros c' [Hc'| ->%list_elem_of_singleton]%elem_of_app Hs; [by apply Hmax|done].
      * intros j c' Hj Hj' Hs. apply (Hfirst j c'); [done| |done].
        apply lookup_lt_Some in Hi. rewrite lookup_app_l in Hj' by lia. done.
    + intros c' [Hc'| ->%list_elem_of_singleton]%elem_of_app; [by apply Hinv|done].
Qed.

Lemma findBestRectangle_fold contours :
  Forall (fun c => (4 <= length c)%nat) contours ->
  exists best,
    foldl (fun acc contour => best ← acc; consider best contour) (Ok None) contours
      = Ok best /\
    selectionOf M imageWidth imageHeight pct contours best.
Proof.
  induction contours as [|c contours IH] using rev_ind; intros Hall.
  - exists None. split; [done|]. intros c Hc. by apply elem_of_nil in Hc.
  - apply Forall_app in Hall as [Hall Hc]. apply Forall_inv in Hc.
    destruct (IH Hall) as (best & Hfold & Hinv).
    destruct (selectionOf_step contours best c Hc Hinv) as (best' & Hstep & Hinv').
    exists best'. split; [|done].
    rewrite foldl_app. simpl. rewrite Hfold. exact Hstep.
Qed.

End Selector.

Lemma borderPadOf_nonneg (imageWidth imageHeight : Z) :
  (0 <= imageWidth -> 0 <= imageHeight -> 0 <= borderPadOf imageWidth imageHeight)%Z.
Proof.
  intros Hw Hh. unfold borderPadOf, Math_round, jsMul.
  change 0%Z with (Qfloor 0). apply Qfloor_resp_le.
  assert (0 <= inject_Z (Z.min imageWidth imageHeight))%Q as H.
  { change 0%Q with (inject_Z 0). rewrite <- Zle_Qle. lia. }
  assert (0 <= toDouble (inject_Z (Z.min imageWidth imageHeight)
                         * toDouble (2 # 100)))%Q.
  { apply toDouble_nonneg. apply Qmult_le_0_compat; [done|]. by vm_compute. }
  lra.
Qed.

(** Whatever the contours, a selected rectangle passed the border test. *)
Lemma considerContour_insideBorder M imageWidth imageHeight minArea best c best' :
  considerContour M imageWidth imageHeight minArea
    (borderPadOf imageWidth imageHeight) best c = Ok best' ->
  (forall r s, best = Some (r, s) -> insideBorder imageWidth imageHeight r) ->
  forall r s, best' = Some (r, s) -> insideBorder imageWidth imageHeight r.
Proof.
  unfold considerContour. intros Hstep Hbest.
  destruct (decide _); [by injection Hstep as <-|].
  destruct c as [|p0 l]; [done|].
  rewrite getBoundingRect_spec in Hstep by done.
  unfold calculateMinAreaRect in Hstep.
  rewrite getBoundingRect_spec in Hstep by done.
  unfold mbind, outcome_bind in Hstep.
  destruct (Qltb _ _); [by injection Hstep as <-|].
  destruct (decide _) as [Hb|Hb]; [by injection Hstep as <-|].
  pose proof (spec_box_nonneg (p0 :: l)) as [Hw Hh].
  assert (insideBorder imageWidth imageHeight
            (mkRect (b_x (spec_box (p0 :: l))) (b_y (spec_box (p0 :: l)))
               (b_width (spec_box (p0 :: l))) (b_height (spec_box (p0 :: l)))
               (contourAngle M (p0 :: l)))) as Hin.
  { unfold insideBorder. cbn [r_x r_y r_width r_height]. lia. }
  destruct best as [[r0 s0]|].
  - destruct (Qltb _ _); injection Hstep as <-; intros r s [= <- <-];
      [done|by eapply Hbest].
  - injection Hstep as <-. by intros r s [= <- <-].
Qed.

Lemma findBestRectangle_insideBorder M contours imageWidth imageHeight pct rect :
  findBestRectangle M contours imageWidth imageHeight pct = Ok (Some rect) ->
  insideBorder imageWidth imageHeight rect.
Proof.
  unfold findBestRectangle. cbv zeta.
  set (f := fun acc contour => _).
  assert (forall acc best,
    foldl f acc contours = Ok best ->
    (forall b, acc = Ok b ->
       forall r s, b = Some (r, s) -> insideBorder imageWidth imageHeight r) ->
    forall r s, best = Some (r, s) -> insideBorder imageWidth imageHeight r) as Hfold.
  { induction contours as [|c contours IH]; intros acc best Hf Hacc; simpl in Hf.
    - by apply Hacc.
    - apply (IH _ _ Hf). intros b Hb. subst f. simpl in Hb.
      destruct acc as [b0|e]; [|done]. unfold mbind, outcome_bind in Hb.
      eapply considerContour_insideBorder; [exact Hb|]. by apply Hacc. }
  destruct (foldl f (Ok None) contours) as [best|e] eqn:E; [|done].
  unfold mbind, outcome_bind. intros [= Hr].
  destruct best as [[r s]|]; [|done]. injection Hr as ->.
  eapply (Hfold _ _ E); [|done]. by intros b [= <-] r0 s0.
Qed.

(** ** The cropper: one axis

    [pos] and [side] are the start and the length of a selected rectangle
    along one axis of a canvas of length [C]; [m] is the inset margin. *)

Local Open Scope Q_scope.

Lemma canvasSide_floor (default : Z) (q : Q) :
  0 <= q -> q <= 2147483647 -> canvasSide default q = Qfloor q.
Proof.
  intros H0 H1. unfold canvasSide, toUnsignedLong, Qtrunc.
  assert (Qle_bool 0 q = true) as -> by (by apply Qle_bool_iff).
  assert (0 <= Qfloor q <= 2147483647)%Z as Hf.
  { split.
    - change 0%Z with (Qfloor 0). by apply Qfloor_resp_le.
    - change 2147483647%Z with (Qfloor 2147483647). by apply Qfloor_resp_le. }
  cbv zeta. rewrite Z.mod_small by lia. by rewrite decide_True by lia.
Qed.

Lemma Qfloor_half (n : Z) : Qfloor (inject_Z n / 2) = (n / 2)%Z.
Proof. unfold Qfloor, Qdiv, Qmult, Qinv, inject_Z. simpl. by rewrite Z.mul_1_r. Qed.

Section CropAxis.
Context (m : Q) (pos side C : Z).
Hypothesis Hpos : (1 <= pos)%Z.
Hypothesis Hside : (0 <= side)%Z.
Hypothesis Hfit : (pos + side < C)%Z.
Hypothesis Hmax : (C <= 2147483647)%Z.

Local Abbreviation P := (inject_Z pos).
Local Abbreviation S := (inject_Z side).
Local Abbreviation inset := (Qmin m (jsDiv S 4)).
Local Abbreviation start := (Qmax 0 (jsAdd P inset)).
Local Abbreviation size := (Qmin (jsSub (inject_Z C) start) (jsSub S (jsMul 2 inset))).

Lemma crop_facts : 1 <= P /\ 0 <= S /\ P + S + 1 <= inject_Z C /\ inject_Z C <= 2147483647.
Proof using Hpos Hside Hfit Hmax.
  split_and!.
  - change 1 with (inject_Z 1). by rewrite <- Zle_Qle.
  - change 0 with (inject_Z 0). by rewrite <- Zle_Qle.
  - change 1 with (inject_Z 1). rewrite <- !inject_Z_plus, <- Zle_Qle. lia.
  - change 2147483647 with (inject_Z 2147483647). by rewrite <- Zle_Qle.
Qed.

Lemma quarter_exact : jsDiv S 4 == S / 4.
Proof using Hpos Hside Hfit Hmax. unfold jsDiv. apply toDouble_quarter. lia. Qed.

Lemma inset_le : inset <= S / 4.
Proof using Hpos Hside Hfit Hmax. rewrite <- quarter_exact. apply Q.le_min_r. Qed.

Lemma start_le : 0 <= start /\ start <= P + S / 4.
Proof using Hpos Hside Hfit Hmax.
  destruct crop_facts as (HP & HS & HC & HM). pose proof inset_le as Hi.
  split; [apply Q.le_max_l|].
  apply Q.max_lub; [qnorm; lra|]. unfold jsAdd.
  destruct (Qlt_le_dec (P + inset) 0) as [Hneg|Hnn].
  - pose proof (toDouble_nonpos (P + inset) ltac:(lra)). qnorm. lra.
  - pose proof (toDouble_le_over (P + inset) (4 * pos + side) 2 ltac:(lia) ltac:(lia) Hnn)
      as H.
    rewrite inject_Z_plus, inject_Z_mult in H.
    change (inject_Z (2 ^ 2)) with 4 in H. change (inject_Z 4) with 4 in H.
    assert ((4 * P + S) / 4 == P + S / 4) as E by field.
    rewrite E in H. apply H. qnorm. lra.
Qed.

Lemma twice_le : jsMul 2 inset <= S / 2.
Proof using Hpos Hside Hfit Hmax.
  destruct crop_facts as (HP & HS & HC & HM). pose proof inset_le as Hi.
  unfold jsMul.
  destruct (Qlt_le_dec (2 * inset) 0) as [Hneg|Hnn].
  - pose proof (toDouble_nonpos (2 * inset) ltac:(lra)). qnorm. lra.
  - pose proof (toDouble_le_over (2 * inset) side 1 ltac:(lia) ltac:(lia) Hnn) as H.
    change (inject_Z (2 ^ 1)) with 2 in H. apply H. qnorm. lra.
Qed.

Lemma size_bounds : S / 2 <= size /\ size <= inject_Z C.
Proof using Hpos Hside Hfit Hmax.
  destruct crop_facts as (HP & HS & HC & HM).
  destruct start_le as [Hs0 Hs1]. pose proof twice_le as Ht.
  unfold Qdiv in *. change (/ 2) with (1 # 2) in *. change (/ 4) with (1 # 4) in *.
  assert (S * (1 # 2) <= jsSub (inject_Z C) start <= inject_Z C) as [Ha1 Ha2].
  { unfold jsSub.
    pose proof (toDouble_between (inject_Z C - start) side (2 * C) 1
                  ltac:(lia) ltac:(lia) ltac:(lia)) as H.
    rewrite inject_Z_mult in H. change (inject_Z (2 ^ 1)) with 2 in H.
    change (inject_Z 2) with 2 in H.
    unfold Qdiv in H. change (/ 2) with (1 # 2) in H.
    destruct H as [H1 H2]; [lra|]. lra. }
  assert (S * (1 # 2) <= jsSub S (jsMul 2 inset)) as Hb.
  { unfold jsSub.
    pose proof (toDouble_ge_over (S - jsMul 2 inset) side 1 ltac:(lia) ltac:(lia)) as H.
    change (inject_Z (2 ^ 1)) with 2 in H.
    unfold Qdiv in H. change (/ 2) with (1 # 2) in H. apply H. lra. }
  split.
  - by apply Q.min_glb.
  - eapply Qle_trans; [apply Q.le_min_l|done].
Qed.

Hypothesis Hm : 0 <= m.

Lemma inset_nonneg : 0 <= inset /\ inset <= m.
Proof using Hpos Hside Hfit Hmax Hm.
  destruct crop_facts as (HP & HS & HC & HM).
  split; [|apply Q.le_min_l].
  apply Q.min_glb; [done|]. rewrite quarter_exact.
  unfold Qdiv. change (/ 4) with (1 # 4). lra.
Qed.

Lemma start_exact : start == jsAdd P inset.
Proof using Hpos Hside Hfit Hmax Hm.
  destruct crop_facts as (HP & HS & HC & HM). destruct inset_nonneg as [Hi _].
  apply Q.max_r. unfold jsAdd. apply toDouble_nonneg. lra.
Qed.

(** With [n] the least integer not below the inset: the start is at most
    [pos + n], and twice the inset at least [2 n - 2]. *)
Lemma inset_ceiling :
  let n := Qceiling inset in
  (0 <= n)%Z /\ start <= P + inject_Z n /\
  ((1 <= n)%Z -> 2 * inject_Z n - 2 <= jsMul 2 inset).
Proof using Hpos Hside Hfit Hmax Hm.
  destruct crop_facts as (HP & HS & HC & HM). destruct inset_nonneg as [Hi _].
  pose proof inset_le as Hq. pose proof (Qle_ceiling inset) as Hc1.
  pose proof (Qceiling_lt inset) as Hc2.
  intros n. fold n in Hc1. fold n in Hc2. clearbody n.
  unfold Z.sub in Hc2. rewrite inject_Z_plus in Hc2. change (inject_Z (- (1))) with (-1) in Hc2.
  assert (0 <= n)%Z as Hn0.
  { assert (-1 < n)%Z; [|lia]. rewrite Zlt_Qlt. change (inject_Z (-1)) with (-1). lra. }
  assert (inject_Z n <= S / 4 + 1) as Hn1.
  { unfold Qdiv in *. change (/ 4) with (1 # 4) in *. lra. }
  assert (n <= side + 1)%Z as Hn2.
  { rewrite Zle_Qle, inject_Z_plus. change (inject_Z 1) with 1. qnorm. lra. }
  assert (n < 2 ^ 32)%Z as Hn3 by lia.
  split; [done|]. split.
  - rewrite start_exact. unfold jsAdd.
    pose proof (toDouble_le_Z (P + inset) (pos + n) ltac:(lia) ltac:(lra)) as H.
    rewrite inject_Z_plus in H. apply H. lra.
  - intros Hn. unfold jsMul.
    pose proof (toDouble_ge_Z (2 * inset) (2 * n - 2) ltac:(lia)) as H.
    unfold Z.sub in H. rewrite inject_Z_plus, inject_Z_mult in H.
    change (inject_Z 2) with 2 in H. change (inject_Z (- (2))) with (-2) in H.
    assert (2 * inject_Z n - 2 == 2 * inject_Z n + -2) as -> by ring.
    apply H. lra.
Qed.

Lemma twice_nonneg : 0 <= jsMul 2 inset.
Proof using Hpos Hside Hfit Hmax Hm. destruct inset_nonneg as [Hi _]. unfold jsMul. apply toDouble_nonneg. lra. Qed.

Lemma shrunk_bounds :
  S / 2 <= jsSub S (jsMul 2 inset) /\ jsSub S (jsMul 2 inset) <= S.
Proof using Hpos Hside Hfit Hmax Hm.
  destruct crop_facts as (HP & HS & HC & HM).
  pose proof twice_le as Ht. pose proof twice_nonneg as Ht0.
  unfold jsSub.
  pose proof (toDouble_between (S - jsMul 2 inset) side (2 * side) 1
                ltac:(lia) ltac:(lia) ltac:(lia)) as H.
  rewrite inject_Z_mult in H. change (inject_Z (2 ^ 1)) with 2 in H.
  change (inject_Z 2) with 2 in H. qnorm.
  destruct H as [H1 H2]; [lra|]. lra.
Qed.

Lemma size_exact : size == jsSub S (jsMul 2 inset).
Proof using Hpos Hside Hfit Hmax Hm.
  destruct crop_facts as (HP & HS & HC & HM).
  destruct inset_ceiling as (Hn0 & Hn1 & Hn2).
  pose proof twice_le as Ht. pose proof twice_nonneg as Ht0.
  destruct start_le as [Hs0 Hs1].
  apply Q.min_r. unfold jsSub. apply toDouble_mono; [qnorm; lra|].
  set (n := Qceiling inset) in *. clearbody n.
  destruct (decide (n = 0)%Z) as [->|Hne].
  - change (inject_Z 0) with 0 in Hn1. lra.
  - assert (1 <= inject_Z n) as Hn by (change 1 with (inject_Z 1); rewrite <- Zle_Qle; lia).
    specialize (Hn2 ltac:(lia)). lra.
Qed.

Lemma crop_inside : start + size < inject_Z C.
Proof using Hpos Hside Hfit Hmax Hm.
  destruct crop_facts as (HP & HS & HC & HM).
  destruct inset_ceiling as (Hn0 & Hn1 & Hn2).
  destruct inset_nonneg as [Hi _]. pose proof (Qceiling_lt inset) as Hc.
  pose proof (Qle_ceiling inset) as Hc'.
  pose proof twice_le as Ht. pose proof twice_nonneg as Ht0.
  destruct shrunk_bounds as [Hb1 Hb2].
  rewrite size_exact.
  set (n := Qceiling inset) in *. clearbody n.
  unfold Z.sub in Hc. rewrite inject_Z_plus in Hc. change (inject_Z (- (1))) with (-1) in Hc.
  destruct (Qlt_le_dec (1 # 2) inset) as [Hbig|Hsmall].
  - (* twice the inset is at least 1 and at least 2 n - 2 *)
    assert (1 <= n)%Z as Hn.
    { assert (0 < n)%Z; [|lia]. rewrite Zlt_Qlt. change (inject_Z 0) with 0. lra. }
    specialize (Hn2 Hn).
    assert (1 <= jsMul 2 inset) as H1.
    { unfold jsMul. change 1 with (inject_Z 1). apply toDouble_ge_Z; [lia|].
      change (inject_Z 1) with 1. lra. }
    assert (n <= side + 1)%Z as Hns.
    { pose proof inset_le. rewrite Zle_Qle, inject_Z_plus. change (inject_Z 1) with 1.
      qnorm. lra. }
    set (k := Z.max 1 (2 * n - 2)).
    assert (inject_Z k <= jsMul 2 inset) as Hk.
    { subst k. destruct (Z.max_spec 1 (2 * n - 2)) as [[_ ->]|[_ ->]].
      - unfold Z.sub. rewrite inject_Z_plus, inject_Z_mult.
        change (inject_Z 2) with 2. change (inject_Z (- (2))) with (-2). lra.
      - done. }
    assert (jsSub S (jsMul 2 inset) <= inject_Z (side - k)) as Hsz.
    { unfold jsSub. apply toDouble_le_Z; [lia|qnorm; lra|].
      unfold Z.sub. rewrite inject_Z_plus, inject_Z_opp. lra. }
    assert (n - k <= 0)%Z as Hnk by lia.
    rewrite Zle_Qle in Hnk. unfold Z.sub in Hnk, Hsz.
    rewrite inject_Z_plus, inject_Z_opp in Hnk, Hsz.
    change (inject_Z 0) with 0 in Hnk. lra.
  - (* the start is at most pos + 1/2 *)
    assert (start <= P + (1 # 2)) as Hst.
    { rewrite start_exact. unfold jsAdd.
      pose proof (toDouble_le_over (P + inset) (2 * pos + 1) 1 ltac:(lia) ltac:(lia)
                    ltac:(lra)) as H.
      rewrite inject_Z_plus, inject_Z_mult in H. change (inject_Z (2 ^ 1)) with 2 in H.
      change (inject_Z 2) with 2 in H. change (inject_Z 1) with 1 in H.
      assert ((2 * P + 1) / 2 == P + (1 # 2)) as E by field.
      rewrite E in H. apply H. lra. }
    lra.
Qed.
End CropAxis.

Local Close Scope Q_scope.

(** A selected rectangle starts after the first pixel of the canvas and
    ends before its last one. *)
Lemma selected_axes M contours canvas pct rect :
  (0 <= canvas_width canvas)%Z -> (0 <= canvas_height canvas)%Z ->
  findBestRectangle M contours (canvas_width canvas) (canvas_height canvas) pct
    = Ok (Some rect) ->
  (1 <= r_x rect /\ 0 <= r_width rect /\
   r_x rect + r_width rect < canvas_width canvas /\
   1 <= r_y rect /\ 0 <= r_height rect /\
   r_y rect + r_height rect < canvas_height canvas)%Z.
Proof.
  intros Hcw Hch Hsel.
  apply findBestRectangle_insideBorder in Hsel as (Hx & Hy & Hxw & Hyh & Hw & Hh).
  pose proof (borderPadOf_nonneg _ _ Hcw Hch) as Hpad. lia.
Qed.

(** ** traceWeakEdges terminates within its fuel *)

Section WeakEdges.
Context (suppressedData : list Z) (width height : Z).

Lemma weakNeighbour_measure x y s o :
  (weakMeasure (weakNeighbour suppressedData width height x y s o) <= weakMeasure s)%nat.
Proof.
  unfold weakNeighbour. destruct o as [dx dy]. cbv zeta.
  destruct (decide _); [|done].
  destruct (decide _) as [[_ He]|]; [|done].
  unfold weakMeasure. cbn [we_edge we_stack length].
  pose proof (zeros_poke (we_edge s) _ 255 He). lia.
Qed.

Lemma weakNeighbours_measure x y l s :
  (weakMeasure (foldl (weakNeighbour suppressedData width height x y) s l)
   <= weakMeasure s)%nat.
Proof.
  revert s. induction l as [|o l IH]; intros s; simpl; [done|].
  etrans; [apply IH|]. apply weakNeighbour_measure.
Qed.

Lemma weakStep_decreases s s' :
  weakStep suppressedData width height s = Some s' ->
  (weakMeasure s' < weakMeasure s)%nat.
Proof.
  unfold weakStep. destruct s as [e stk]. cbn [we_stack we_edge].
  destruct stk as [|p stk]; [done|]. intros Heq.
  apply (inj Some) in Heq. subst s'.
  eapply Nat.le_lt_trans; [apply weakNeighbours_measure|].
  unfold weakMeasure. cbn [we_edge we_stack length]. lia.
Qed.

Lemma traceWeakEdges_terminates edgeData startX startY :
  weakStep suppressedData width height
    (runLoop (weakStep suppressedData width height) (weakFuel edgeData)
       (mkWeak edgeData [mkPoint startX startY])) = None.
Proof.
  apply (runLoop_terminates weakMeasure); [apply weakStep_decreases|].
  unfold weakMeasure, weakFuel, zeros; simpl.
  pose proof (length_filter (fun v => v = 0) edgeData). lia.
Qed.

End WeakEdges.

(** ** Dilation of a mask whose border is clear *)

Section ClearBorder.
Context (width height : Z).

Lemma index_inj x y x' y' :
  inImage width height x y -> inImage width height x' y' ->
  y * width + x = y' * width + x' -> x = x' /\ y = y'.
Proof.
  intros [Hx Hy] [Hx' Hy'] Heq.
  pose proof (indexOf_inj width height (mkPoint x y) (mkPoint x' y')) as H.
  unfold inBounds, indexOf in H. simpl in H.
  assert (mkPoint x y = mkPoint x' y') as [= -> ->]; [|done].
  apply H; [lia|lia|done].
Qed.

Lemma index_range (len : nat) x y :
  Z.of_nat len = width * height -> inImage width height x y ->
  0 <= y * width + x < Z.of_nat len.
Proof. intros -> [Hx Hy]. nia. Qed.

Lemma peek_dilateOnce_image d x y :
  Z.of_nat (length d) = width * height -> inImage width height x y ->
  peek (dilateOnce d width height) (y * width + x) = Some 255 <->
  peek d (y * width + x) = Some 255 \/
  exists qx qy, interior width height qx qy /\
    peek d (qy * width + qx) = Some 255 /\ within 1 x y qx qy.
Proof.
  intros Hlen Himg. pose proof (index_range _ x y Hlen Himg) as Hr.
  unfold peek at 1. rewrite decide_True by lia.
  rewrite dilateOnce_pokeAll, lookup_pokeAll.
  rewrite Z2Nat.id by lia.
  destruct (decide _) as [[Hin _]|Hno].
  - split; [intros _|done]. apply elem_of_dilationTargets in Hin
      as (qx & qy & dx & dy & Hq & Hset & Hdx & Hdy & Heq).
    right. exists qx, qy. split; [done|]. split; [done|].
    apply index_inj in Heq as [-> ->]; [unfold within; lia|done|].
    destruct Hq. unfold inImage. lia.
  - assert (peek d (y * width + x) = d !! Z.to_nat (y * width + x)) as <-.
    { unfold peek. by rewrite decide_True by lia. }
    split; [by left|]. intros [?|(qx & qy & Hq & Hset & [Hdx Hdy])]; [done|].
    exfalso. apply Hno. split; [|lia].
    apply elem_of_dilationTargets. exists qx, qy, (x - qx), (y - qy).
    split_and!; try done; lia.
Qed.

Lemma length_applyDilation d n :
  length (applyDilation d width height n) = length d.
Proof.
  unfold applyDilation. induction (Z.to_nat n) as [|k IH]; simpl; [done|].
  by rewrite dilateOnce_pokeAll, length_pokeAll.
Qed.

(** On a mask with a clear border, [n] iterations set exactly the pixels
    of the image within [n] steps of a set pixel. *)
Lemma applyDilation_clearBorder d n x y :
  Z.of_nat (length d) = width * height -> clearBorder d width height ->
  0 <= n -> inImage width height x y ->
  peek (applyDilation d width height n) (y * width + x) = Some 255 <->
  exists sx sy, inImage width height sx sy /\
    peek d (sy * width + sx) = Some 255 /\ within n x y sx sy.
Proof.
  intros Hlen Hclear Hn. revert x y.
  pattern n. apply natlike_ind; [| |done]; clear n Hn.
  - intros x y Himg. change (applyDilation d width height 0) with d. split.
    + intros Hset. exists x, y. unfold within. split_and!; try done; lia.
    + intros (sx & sy & _ & Hset & [Hdx Hdy]).
      by replace x with sx by lia; replace y with sy by lia.
  - intros n Hn IH x y Himg. replace (Z.succ n) with (n + 1) by lia.
    rewrite applyDilation_succ by done.
    rewrite peek_dilateOnce_image by (by rewrite ?length_applyDilation).
    split.
    + intros [Hset|(qx & qy & Hq & Hset & [Hdx Hdy])].
      * apply IH in Hset as (sx & sy & Hs & Hset & [? ?]); [|done].
        exists sx, sy. unfold within. split_and!; try done; lia.
      * apply IH in Hset as (sx & sy & Hs & Hset & [? ?]).
        2: { destruct Hq. unfold inImage. lia. }
        exists sx, sy. unfold within. split_and!; try done; lia.
    + intros (sx & sy & Hs & Hset & [Hdx Hdy]).
      pose proof (Hclear sx sy Hs Hset) as [Hsx Hsy].
      (* one step from (x, y) towards (sx, sy) *)
      set (qx := x - Z.sgn (x - sx)). set (qy := y - Z.sgn (y - sy)).
      assert (interior width height qx qy) as Hq.
      { destruct Himg. unfold interior. subst qx qy. lia. }
      right. exists qx, qy. split; [done|]. split.
      * apply IH; [destruct Hq; unfold inImage; lia|].
        exists sx, sy. split; [done|]. split; [done|].
        unfold within. subst qx qy. lia.
      * unfold within. subst qx qy. lia.
Qed.

End ClearBorder.

(** * Part IX: the claims of the specification *)

(** ** Non-maximum suppression *)

Lemma computeGradients_example (M : JSMath) :
  ieeeOnExample M -> computeGradients M exampleGray 5 5 = exampleGradients.
Proof.
  destruct M as [sqrt atan2 fround]. unfold ieeeOnExample.
  cbn [Math_sqrt Math_atan2 Math_fround].
  intros (H0 & H1 & H3 & H4 & A00 & A0p3 & A0p4 & Ap40 & Am10 & Am30 & A0m3 & A0m4).
  vm_compute.
  rewrite H0, H1, H3, H4, A00, A0p3, A0p4, Ap40, Am10, Am30, A0m3, A0m4.
  reflexivity.
Qed.

(** C4, on [exampleGray] with thresholds 60 and 140: the gradient at the
    centre pixel (index 12) has direction -pi/2, straight up, and magnitude
    300; the neighbour below it along that direction (index 17) has the
    larger magnitude 400.  The direction falls in none of the three tested
    bins, so the neighbours compared are the anti-diagonal ones (indices 8
    and 16, magnitudes 0 and 300), and the pixel is kept as a strong edge
    (255) although it is not a maximum along its gradient direction. *)
Theorem nonMaxSuppression_upward_gradient_compares_diagonal (M : JSMath) :
  ieeeOnExample M ->
  readCell (gradientDirection (computeGradients M exampleGray 5 5)) 12
    = Some (-13176795 # 8388608)%Q /\
  readCell (gradientMagnitude (computeGradients M exampleGray 5 5)) 12 = Some 300%Q /\
  readCell (gradientMagnitude (computeGradients M exampleGray 5 5)) 17 = Some 400%Q /\
  directionalNeighbours
    (readCell (gradientDirection (computeGradients M exampleGray 5 5)) 12) 12 5
    = (8, 16)%Z /\
  peek (nonMaxSuppression (computeGradients M exampleGray 5 5) 25 5 5 60 140) 12
    = Some 255%Z /\
  peek (applyCannyEdgeDetection M exampleGray 5 5 60 140) 12 = Some 255%Z.
Proof.
  intros HM. unfold applyCannyEdgeDetection. cbv zeta.
  rewrite (computeGradients_example M HM). by vm_compute.
Qed.

Lemma approxMath_ieeeOnExample : ieeeOnExample approxMath.
Proof. by vm_compute. Qed.

Lemma nonMaxSuppression_upward_gradient_compares_diagonal_witness :
  ieeeOnExample approxMath /\
  peek (applyCannyEdgeDetection approxMath exampleGray 5 5 60 140) 12 = Some 255%Z.
Proof.
  split; [exact approxMath_ieeeOnExample|].
  apply (nonMaxSuppression_upward_gradient_compares_diagonal approxMath
           approxMath_ieeeOnExample).
Defined.

(** ** The dilator *)

(** C6, as stated, fails: the corner pixel (0,0) of [cornerMask] is set, one
    pass of the dilator returns the mask unchanged, and the neighbour (1,1)
    of the set pixel is still 0, so not every set pixel spreads to its
    neighbours. *)
Lemma applyDilation_border_pixel_does_not_spread :
  peek cornerMask (0 * 3 + 0) = Some 255 /\
  applyDilation cornerMask 3 3 1 = cornerMask /\
  peek (applyDilation cornerMask 3 3 1) (1 * 3 + 1) = Some 0 /\
  ~ spreadsFromEverySetPixel cornerMask (applyDilation cornerMask 3 3 1) 3 3.
Proof.
  repeat split; try reflexivity.
  intros H. specialize (H 0 0 1 1).
  assert (peek (applyDilation cornerMask 3 3 1) ((0 + 1) * 3 + (0 + 1)) = Some 255) as Hc.
  { apply H; unfold inImage; try lia. reflexivity. }
  vm_compute in Hc. discriminate.
Qed.

(** C6, amended: with 0 iterations the dilator returns the mask unchanged;
    each further iteration is one pass over the result of the previous ones;
    one pass keeps the length of the buffer, writes 255 into the pixel and
    the 8 neighbours of every pixel that is set in the buffer it reads and
    lies off the one-pixel border (1 <= x < width-1, 1 <= y < height-1), and
    leaves every other cell as it was in the buffer it reads.  So on a mask
    of width x height cells whose border is clear, every pixel of the image
    that touches a set pixel after n iterations is set after n + 1. *)
Theorem applyDilation_spreads_from_interior (edgeData : list Z) (width height : Z) :
  applyDilation edgeData width height 0 = edgeData /\
  (forall n, 0 <= n ->
     applyDilation edgeData width height (n + 1) =
     dilateOnce (applyDilation edgeData width height n) width height) /\
  (forall d, length (dilateOnce d width height) = length d) /\
  (forall d (j : nat), (j < length d)%nat -> spreadsTo d width height (Z.of_nat j) ->
     dilateOnce d width height !! j = Some 255) /\
  (forall d (j : nat), ~ spreadsTo d width height (Z.of_nat j) ->
     dilateOnce d width height !! j = d !! j) /\
  (Z.of_nat (length edgeData) = width * height ->
   clearBorder edgeData width height ->
   forall n, 0 <= n ->
     spreadsFromEverySetPixel (applyDilation edgeData width height n)
       (applyDilation edgeData width height (n + 1)) width height).
Proof.
  split; [reflexivity|]. split; [apply applyDilation_succ|].
  split; [intros d; rewrite dilateOnce_pokeAll; apply length_pokeAll|].
  split; [intros d j; apply dilateOnce_spread|].
  split; [intros d j; apply dilateOnce_other|].
  intros Hlen Hclear n Hn x y dx dy Hp Hq Hdx Hdy Hset.
  apply (applyDilation_clearBorder width height edgeData n x y) in Hset
    as (sx & sy & Hs & Hset & [Hwx Hwy]); try done.
  apply (applyDilation_clearBorder width height edgeData (n + 1)); try done; [lia|].
  exists sx, sy. split; [done|]. split; [done|]. unfold within. lia.
Qed.

(** C10: the dilator never clears a pixel: a cell that holds 255 in the
    input mask holds 255 in the output, for every iteration count. *)
Theorem applyDilation_monotone (edgeData : list Z) (width height iterations : Z) (j : nat) :
  edgeData !! j = Some 255 ->
  applyDilation edgeData width height iterations !! j = Some 255.
Proof.
  intros Hj. unfold applyDilation.
  induction (Z.to_nat iterations) as [|n IH]; simpl; [done|].
  by apply dilateOnce_keeps.
Qed.

Lemma applyDilation_monotone_witness :
  centreMask !! 12%nat = Some 255 /\
  applyDilation centreMask 5 5 2 !! 12%nat = Some 255.
Proof.
  split; [reflexivity|]. apply (applyDilation_monotone centreMask 5 5 2 12). reflexivity.
Defined.

(** ** The contour tracer *)

(** C7, as stated, fails: the pixels (1,1) .. (10,1) of [tenPixelRow] form
    an 8-connected component of exactly 10 pixels, and the tracer returns no
    contour for that mask. *)
Lemma findContours_drops_component_of_ten :
  exists comp : list Point,
    length comp = 10%nat /\ NoDup comp /\
    isSet tenPixelRow 12 3 (mkPoint 1 1) /\
    (forall q, q ∈ comp <-> connected tenPixelRow 12 3 (mkPoint 1 1) q) /\
    findContours tenPixelRow 12 3 = [].
Proof.
  exists (traceContour tenPixelRow (replicate 36 0) 12 3 1 1).2.
  assert (isSet tenPixelRow 12 3 (mkPoint 1 1)) as Hset.
  { split; [unfold inBounds; simpl; lia|reflexivity]. }
  split; [by vm_compute|]. split.
  { vm_compute. repeat (constructor; [by rewrite ?elem_of_cons, elem_of_nil; intuition congruence|]). constructor. }
  split; [done|]. split; [|by vm_compute].
  intros q.
  apply (traceContour_component tenPixelRow 12 3 (replicate 36 0) (mkPoint 1 1)).
  - done.
  - reflexivity.
  - intros i v Hv. left. by eapply peek_replicate.
  - intros p Hp. destruct (connected_isSet _ _ _ _ _ Hset Hp) as [_ Hpe].
    apply peek_Some_range in Hpe. unfold peek. rewrite decide_True by lia.
    apply lookup_replicate. split; [done|]. simpl in Hpe. simpl. lia.
  - by destruct Hset.
Qed.

(** A component of eleven pixels is kept, whole. *)
Lemma findContours_keeps_component_of_eleven :
  findContours elevenPixelRow 14 3 = [(fun x => mkPoint x 1) <$> seqZ 1 11].
Proof. by vm_compute. Qed.

(** C7, amended: the tracer keeps exactly the components with more than 10
    pixels.  Every contour returned has more than 10 points and its points
    are those of one 8-connected component of set pixels; and for every set
    pixel, the points of its component, listed once each, form a contour of
    the output when they are more than 10, and none of them belongs to any
    contour of the output when they are 10 or fewer. *)
Theorem findContours_keeps_components_over_ten
    (edgeData : list Z) (width height : Z) :
  (forall c, c ∈ findContours edgeData width height ->
     (10 < length c)%nat /\
     exists p, isSet edgeData width height p /\
               forall q, q ∈ c <-> connected edgeData width height p q) /\
  (forall p, isSet edgeData width height p ->
     exists c, NoDup c /\
       (forall q, q ∈ c <-> connected edgeData width height p q) /\
       ((10 < length c)%nat -> c ∈ findContours edgeData width height) /\
       ((length c <= 10)%nat ->
        forall c' q, c' ∈ findContours edgeData width height -> q ∈ c -> q ∉ c')).
Proof.
  destruct (findContours_scanned edgeData width height) as (V & Hinv & Hall).
  split; [apply (scan_kept _ _ _ _ Hinv)|].
  intros p Hp.
  destruct (scan_traced _ _ _ _ Hinv p Hp (Hall p Hp)) as (c & Hnd & Hc & _ & Hbig & _).
  exists c. split_and!; try done.
  intros Hsmall c' q Hc' Hq.
  assert (connected edgeData width height p q) as Hpq by (by apply Hc).
  pose proof (connected_isSet _ _ _ _ _ Hp Hpq) as Hqset.
  destruct (scan_traced _ _ _ _ Hinv q Hqset (Hall q Hqset))
    as (cq & Hndq & Hcq & _ & _ & Hsmallq).
  apply (Hsmallq); [|done].
  assert (cq ≡ₚ c) as ->; [|done].
  apply NoDup_Permutation; [done..|].
  intros r. rewrite Hc, Hcq. symmetry. by apply connected_same_component.
Qed.

(** C9: the contours returned by the tracer have no repeated point and are
    pairwise disjoint: no point appears in two different contours. *)
Theorem findContours_disjoint (edgeData : list Z) (width height : Z) :
  (forall c, c ∈ findContours edgeData width height -> NoDup c) /\
  (forall (i j : nat) ci cj p, i <> j ->
     findContours edgeData width height !! i = Some ci ->
     findContours edgeData width height !! j = Some cj ->
     p ∈ ci -> p ∉ cj).
Proof.
  destruct (findContours_scanned edgeData width height) as (V & Hinv & _).
  apply NoDup_concat_inv. exact (scan_nodup _ _ _ _ Hinv).
Qed.

(** ** The rectangle selector and the cropper *)

(** C5, as stated, fails: in a 10x10 image with minAreaPercent = 7 the
    bounding box of [thinBlock] measures 7 x 1 = 7, which is not below
    10 x 10 x 7 / 100 = 7, and it keeps clear of the border pad; yet the
    selector rejects it and returns nothing.  It compares the area with
    100 * (7 / 100), and in doubles that product is above 7. *)
Lemma findBestRectangle_rejects_area_at_the_bound :
  (4 <= length thinBlock)%nat /\
  spec_boxArea thinBlock = 7%Z /\
  spec_survives 10 10 7 thinBlock /\
  findBestRectangle approxMath [thinBlock] 10 10 7 = Ok None /\
  (7 < minAreaOf 10 10 7)%Q.
Proof.
  split; [simpl; lia|]. split; [reflexivity|]. split.
  - split.
    + unfold spec_tooSmall. change (spec_boxArea thinBlock) with 7%Z. by vm_compute.
    + unfold spec_hugsBorder. cbv zeta.
      change (spec_box thinBlock) with (mkBounds 1 1 7 1).
      change (Math_round ((2 # 100) * inject_Z (Z.min 10 10))) with 0%Z.
      cbn [b_x b_y b_width b_height]. lia.
  - split; by vm_compute.
Qed.

(** C5, amended: the tests and the score in the arithmetic of doubles.  On
    contours of at least 4 points (the tracer returns none shorter than
    11) the selector never throws; it returns nothing exactly when no
    contour survives the area test
    box.width x box.height < imageWidth x imageHeight x (minAreaPercent / 100)
    and the border test applied to its axis-aligned bounding box;
    otherwise it returns the bounding box and angle of a surviving contour
    whose score
    boxArea x (1 - min(|angle mod 90|, 90 - |angle mod 90|) / 10) is
    greatest among the survivors, and every survivor before it in the list
    scores strictly less (ties go to the first encountered).  Every
    product, quotient and difference is rounded to a double, as the code
    computes it. *)
Theorem findBestRectangle_first_maximum (M : JSMath) (contours : list (list Point))
    (imageWidth imageHeight : Z) (minAreaPercent : Q) :
  Forall (fun c => (4 <= length c)%nat) contours ->
  match findBestRectangle M contours imageWidth imageHeight minAreaPercent with
  | Throw _ => False
  | Ok None =>
      forall c, c ∈ contours ->
        ~ sel_survives imageWidth imageHeight minAreaPercent c
  | Ok (Some rect) =>
      exists (i : nat) c,
        contours !! i = Some c /\
        sel_survives imageWidth imageHeight minAreaPercent c /\
        rect = sel_rect M c /\
        (forall c', c' ∈ contours ->
           sel_survives imageWidth imageHeight minAreaPercent c' ->
           (sel_score M c' <= sel_score M c)%Q) /\
        (forall (j : nat) c', (j < i)%nat -> contours !! j = Some c' ->
           sel_survives imageWidth imageHeight minAreaPercent c' ->
           (sel_score M c' < sel_score M c)%Q)
  end.
Proof.
  intros Hall.
  destruct (findBestRectangle_fold M imageWidth imageHeight minAreaPercent contours Hall)
    as (best & Hfold & Hsel).
  unfold findBestRectangle. cbv zeta. rewrite Hfold.
  unfold mbind, outcome_bind.
  destruct best as [[rect score]|]; simpl in Hsel |- *; [|done].
  destruct Hsel as (i & c & Hi & Hc & -> & _ & Hmax & Hfirst).
  by exists i, c.
Qed.

Lemma findBestRectangle_first_maximum_witness :
  Forall (fun c => (4 <= length c)%nat) [boxB; boxA; boxC] /\
  findBestRectangle approxMath [boxB; boxA; boxC] 40 40 20 =
    Ok (Some (sel_rect approxMath boxA)) /\
  match findBestRectangle approxMath [boxB; boxA; boxC] 40 40 20 with
  | Throw _ => False
  | Ok None => forall c, c ∈ [boxB; boxA; boxC] -> ~ sel_survives 40 40 20 c
  | Ok (Some rect) =>
      exists (i : nat) c,
        [boxB; boxA; boxC] !! i = Some c /\
        sel_survives 40 40 20 c /\
        rect = sel_rect approxMath c /\
        (forall c', c' ∈ [boxB; boxA; boxC] -> sel_survives 40 40 20 c' ->
           (sel_score approxMath c' <= sel_score approxMath c)%Q) /\
        (forall (j : nat) c', (j < i)%nat -> [boxB; boxA; boxC] !! j = Some c' ->
           sel_survives 40 40 20 c' ->
           (sel_score approxMath c' < sel_score approxMath c)%Q)
  end.
Proof.
  assert (Forall (fun c => (4 <= length c)%nat) [boxB; boxA; boxC]) as Hall.
  { repeat constructor; simpl; lia. }
  split; [exact Hall|]. split; [by vm_compute|].
  exact (findBestRectangle_first_maximum approxMath [boxB; boxA; boxC] 40 40 20 Hall).
Defined.

(** C8, as stated, fails: with minAreaPercent = 0 the selector returns the
    bounding box of [flatContour], whose height is 0, and the crop computed
    for it with insetMargin = 10 has height 0: the crop is not strictly
    positive in both dimensions, and the crop canvas has no pixels. *)
Lemma cropRegion_zero_height :
  exists rect,
    findBestRectangle approxMath [flatContour] 20 20 0 = Ok (Some rect) /\
    r_width rect = 10%Z /\ r_height rect = 0%Z /\
    (cropHeight (cropRegion canvas20 rect 10) == 0)%Q /\
    ~ (0 < cropHeight (cropRegion canvas20 rect 10))%Q /\
    canvasSide 150 (cropHeight (cropRegion canvas20 rect 10)) = 0%Z.
Proof.
  eexists. split; [by vm_compute|]. split; [done|]. split; [done|].
  split; [by vm_compute|]. split; by vm_compute.
Qed.

(** A selected rectangle of width 1 has a crop of width 1/2, and its crop
    canvas is 0 pixels wide. *)
Lemma cropRegion_width_one :
  exists rect,
    findBestRectangle approxMath [narrowContour] 20 20 0 = Ok (Some rect) /\
    r_width rect = 1%Z /\ r_height rect = 5%Z /\
    (cropWidth (cropRegion canvas20 rect 10) == 1 # 2)%Q /\
    canvasSide 300 (cropWidth (cropRegion canvas20 rect 10)) = 0%Z /\
    canvasSide 150 (cropHeight (cropRegion canvas20 rect 10)) = 2%Z.
Proof.
  eexists. split; [by vm_compute|]. split; [done|]. split; [done|].
  split; [by vm_compute|]. split; by vm_compute.
Qed.

(** C8, amended: for every rectangle the selector returns for a canvas, and
    every insetMargin, the inset is clamped to at most one quarter of the
    rectangle's width and of its height, so that the crop is never
    negative: its width and height are at least half the rectangle's, and
    the sides of the crop canvas, which are their integer parts, are at
    least half the rectangle's width and height, rounded down.  A crop
    canvas without pixels is not excluded: it is only sure to have pixels
    when the rectangle's width and height are both at least 2. *)
Theorem cropRegion_never_negative (M : JSMath) (contours : list (list Point))
    (canvas : Canvas) (minAreaPercent insetMargin : Q) (rect : Rect) :
  (0 <= canvas_width canvas <= 2147483647)%Z ->
  (0 <= canvas_height canvas <= 2147483647)%Z ->
  findBestRectangle M contours (canvas_width canvas) (canvas_height canvas)
    minAreaPercent = Ok (Some rect) ->
  (clampedInset insetMargin (r_width rect) <= inject_Z (r_width rect) / 4 /\
   clampedInset insetMargin (r_height rect) <= inject_Z (r_height rect) / 4 /\
   inject_Z (r_width rect) / 2 <= cropWidth (cropRegion canvas rect insetMargin) /\
   inject_Z (r_height rect) / 2 <= cropHeight (cropRegion canvas rect insetMargin))%Q /\
  canvasSide 300 (cropWidth (cropRegion canvas rect insetMargin))
    = Qfloor (cropWidth (cropRegion canvas rect insetMargin)) /\
  canvasSide 150 (cropHeight (cropRegion canvas rect insetMargin))
    = Qfloor (cropHeight (cropRegion canvas rect insetMargin)) /\
  (r_width rect / 2
   <= canvasSide 300 (cropWidth (cropRegion canvas rect insetMargin)))%Z /\
  (r_height rect / 2
   <= canvasSide 150 (cropHeight (cropRegion canvas rect insetMargin)))%Z.
Proof.
  intros [Hcw Hcw'] [Hch Hch'] Hsel.
  destruct (selected_axes _ _ _ _ _ Hcw Hch Hsel) as (Hx & Hw & Hxw & Hy & Hh & Hyh).
  unfold cropRegion, clampedInset. cbn [cropWidth cropHeight].
  pose proof (inset_le insetMargin _ _ _ Hx Hw Hxw Hcw') as Hix.
  pose proof (inset_le insetMargin _ _ _ Hy Hh Hyh Hch') as Hiy.
  destruct (size_bounds insetMargin _ _ _ Hx Hw Hxw Hcw') as [Hx1 Hx2].
  destruct (size_bounds insetMargin _ _ _ Hy Hh Hyh Hch') as [Hy1 Hy2].
  assert (0 <= inject_Z (r_width rect) / 2)%Q as Hw0.
  { apply Qle_shift_div_l; [done|]. rewrite Qmult_0_l.
    change 0%Q with (inject_Z 0). by rewrite <- Zle_Qle. }
  assert (0 <= inject_Z (r_height rect) / 2)%Q as Hh0.
  { apply Qle_shift_div_l; [done|]. rewrite Qmult_0_l.
    change 0%Q with (inject_Z 0). by rewrite <- Zle_Qle. }
  assert (inject_Z (canvas_width canvas) <= 2147483647)%Q as Hcq.
  { change 2147483647%Q with (inject_Z 2147483647). by rewrite <- Zle_Qle. }
  assert (inject_Z (canvas_height canvas) <= 2147483647)%Q as Hcq'.
  { change 2147483647%Q with (inject_Z 2147483647). by rewrite <- Zle_Qle. }
  rewrite !canvasSide_floor by lra.
  split; [split; [exact Hix|split; [exact Hiy|split; [exact Hx1|exact Hy1]]]|].
  split; [reflexivity|]. split; [reflexivity|]. split.
  - rewrite <- Qfloor_half. apply Qfloor_resp_le. exact Hx1.
  - rewrite <- Qfloor_half. apply Qfloor_resp_le. exact Hy1.
Qed.

Lemma cropRegion_never_negative_witness :
  findBestRectangle approxMath [boxA] 40 40 20 = Ok (Some (sel_rect approxMath boxA)) /\
  canvasSide 300 (cropWidth (cropRegion canvas40 (sel_rect approxMath boxA) 20)) = 12%Z /\
  (r_width (sel_rect approxMath boxA) / 2
   <= canvasSide 300 (cropWidth (cropRegion canvas40 (sel_rect approxMath boxA) 20)))%Z.
Proof.
  assert (findBestRectangle approxMath [boxA] 40 40 20
          = Ok (Some (sel_rect approxMath boxA))) as Hsel by (by vm_compute).
  split; [exact Hsel|]. split; [by vm_compute|].
  apply (cropRegion_never_negative approxMath [boxA] canvas40 20 20
           (sel_rect approxMath boxA)); [simpl; lia|simpl; lia|exact Hsel].
Defined.


(** ** The pipeline *)

(** A canvas whose pixel data was read is origin-clean. *)
Lemma getImageData_clean (B : Browser) (canvas : Canvas) (data : list Z) :
  getImageData B canvas = Ok data ->
  securityError B (drawnImage (canvas_drawing canvas)) = None.
Proof. unfold getImageData. by destruct (securityError B _). Qed.

Lemma locateRectangle_clean (B : Browser) (M : JSMath) (canvas : Canvas)
    (config : CropConfig) (found : option Rect) :
  locateRectangle B M canvas config = Ok found ->
  securityError B (drawnImage (canvas_drawing canvas)) = None.
Proof.
  unfold locateRectangle. cbv zeta.
  destruct (getImageData B canvas) as [data|] eqn:Hdata; [|done].
  intros _. by eapply getImageData_clean.
Qed.

Lemma toDataURL_clean (B : Browser) (canvas : Canvas) :
  securityError B (drawnImage (canvas_drawing canvas)) = None ->
  toDataURL B canvas = Ok (PngOf canvas).
Proof. unfold toDataURL. by intros ->. Qed.

Lemma processImage_throw_falls_back (B : Browser) (M : JSMath) (imageUrl : string)
    (config : CropConfig) (img : HTMLImage) (e : JsError) :
  loadImage B imageUrl = Some img -> getContext2d B 0 = true ->
  drawImageError B img = None -> securityError B img = None ->
  processImageWithJavaScript B M (scaledCanvas img) config = Throw e ->
  cropToInnerRectangle B M imageUrl config = Resolved (fallback (scaledCanvas img)).
Proof.
  intros Hload Hctx Hdraw Hclean Hthrow. unfold cropToInnerRectangle.
  rewrite Hload, Hctx, Hdraw, Hthrow. cbn [negb].
  by rewrite toDataURL_clean.
Qed.

(** C1: when the image decodes and the canvas is prepared (a 2D context is
    obtained and the image is drawn), and then either no contour yields a
    qualifying rectangle or processing throws on a canvas that is
    origin-clean - as it is whenever its pixel data was read, that is, at
    every stage from grayscale through crop - the promise resolves with the
    PNG of the scaled canvas itself, and the width and height reported are
    the width and height of that canvas. *)
Theorem cropToInnerRectangle_degrades_to_scaled_image (B : Browser) (M : JSMath)
    (imageUrl : string) (config : CropConfig) (img : HTMLImage) :
  loadImage B imageUrl = Some img -> getContext2d B 0 = true ->
  drawImageError B img = None ->
  locateRectangle B M (scaledCanvas img) config = Ok None \/
  ((securityError B img = None \/
    exists data, getImageData B (scaledCanvas img) = Ok data) /\
   exists e, processImageWithJavaScript B M (scaledCanvas img) config = Throw e) ->
  cropToInnerRectangle B M imageUrl config =
    Resolved (mkProcessed (PngOf (scaledCanvas img))
                (canvas_width (scaledCanvas img)) (canvas_height (scaledCanvas img))).
Proof.
  intros Hload Hctx Hdraw [Hnone|[Hclean [e Hthrow]]].
  - unfold cropToInnerRectangle. rewrite Hload, Hctx, Hdraw. cbn [negb].
    unfold processImageWithJavaScript. rewrite Hnone.
    apply locateRectangle_clean in Hnone.
    unfold mbind at 1, outcome_bind at 1. by rewrite toDataURL_clean.
  - eapply processImage_throw_falls_back; [done..| |exact Hthrow].
    destruct Hclean as [Hclean|[data Hdata]]; [done|].
    by apply getImageData_clean in Hdata.
Qed.

Lemma cropToInnerRectangle_degrades_to_scaled_image_witness :
  locateRectangle (browserShowing blackPixels) approxMath (scaledCanvas planImage)
    DEFAULT_CROP_CONFIG = Ok None /\
  cropToInnerRectangle (browserShowing blackPixels) approxMath "plan.png"
    DEFAULT_CROP_CONFIG =
    Resolved (mkProcessed (PngOf (scaledCanvas planImage))
                (canvas_width (scaledCanvas planImage))
                (canvas_height (scaledCanvas planImage))).
Proof.
  assert (locateRectangle (browserShowing blackPixels) approxMath
            (scaledCanvas planImage) DEFAULT_CROP_CONFIG = Ok None) as Hnone
    by (by vm_compute).
  split; [exact Hnone|].
  apply (cropToInnerRectangle_degrades_to_scaled_image (browserShowing blackPixels)
           approxMath "plan.png" DEFAULT_CROP_CONFIG planImage);
    [reflexivity|reflexivity|reflexivity|by left].
Defined.

(** Each stage that can throw makes the whole of processing throw. *)
Lemma processImage_throws_when_a_stage_throws (B : Browser) (M : JSMath)
    (canvas : Canvas) (config : CropConfig) (e : JsError) :
  getImageData B canvas = Throw e \/
  (exists rect, locateRectangle B M canvas config = Ok (Some rect) /\
     cropWithPerspectiveTransform B canvas rect (insetMargin config) = Throw e) ->
  processImageWithJavaScript B M canvas config = Throw e.
Proof.
  unfold processImageWithJavaScript, locateRectangle. cbv zeta.
  intros [H|(rect & H1 & H2)].
  - by rewrite H.
  - unfold locateRectangle in H1. cbv zeta in H1. rewrite H1.
    unfold mbind at 1, outcome_bind at 1. by rewrite H2.
Qed.

(** C2, the values reported when a rectangle is selected: the image is the
    PNG of a crop canvas whose width and height are the crop's (the
    rectangle's reduced by twice the clamped inset, as a canvas keeps
    them: truncated to pixels), while the width and height reported beside
    it are the rectangle's own, without the inset. *)
Theorem processImage_reports_rectangle_not_crop (B : Browser) (M : JSMath)
    (canvas : Canvas) (config : CropConfig) (rect : Rect) :
  locateRectangle B M canvas config = Ok (Some rect) ->
  getContext2d B 1 = true ->
  exists cropCanvas,
    processImageWithJavaScript B M canvas config =
      Ok (mkProcessed (PngOf cropCanvas) (r_width rect) (r_height rect)) /\
    canvas_width cropCanvas =
      canvasSide 300 (cropWidth (cropRegion canvas rect (insetMargin config))) /\
    canvas_height cropCanvas =
      canvasSide 150 (cropHeight (cropRegion canvas rect (insetMargin config))).
Proof.
  intros Hsel Hctx. eexists. split.
  - unfold processImageWithJavaScript. rewrite Hsel.
    unfold mbind at 1, outcome_bind at 1.
    unfold cropWithPerspectiveTransform. rewrite Hctx. cbv zeta.
    rewrite toDataURL_clean; [reflexivity|].
    by apply locateRectangle_clean in Hsel.
  - split; reflexivity.
Qed.

(** On the specification's example the crop canvas is 580x380 (600x400
    less twice the inset of 10); the rectangle is 600x400. *)
Lemma cropRegion_centredRect :
  canvasSide 300 (cropWidth (cropRegion canvas1000 centredRect 10)) = 580%Z /\
  canvasSide 150 (cropHeight (cropRegion canvas1000 centredRect 10)) = 380%Z /\
  r_width centredRect = 600%Z /\ r_height centredRect = 400%Z.
Proof. by vm_compute. Qed.

Lemma processImage_reports_rectangle_not_crop_witness :
  exists rect cropCanvas,
    locateRectangle (browserShowing squarePixels) approxMath (scaledCanvas planImage)
      DEFAULT_CROP_CONFIG = Ok (Some rect) /\
    processImageWithJavaScript (browserShowing squarePixels) approxMath
      (scaledCanvas planImage) DEFAULT_CROP_CONFIG =
      Ok (mkProcessed (PngOf cropCanvas) 10 10) /\
    canvas_width cropCanvas = 5%Z /\ canvas_height cropCanvas = 5%Z.
Proof.
  eexists.
  assert (locateRectangle (browserShowing squarePixels) approxMath
            (scaledCanvas planImage) DEFAULT_CROP_CONFIG = Ok (Some _)) as Hsel
    by (vm_compute; reflexivity).
  destruct (processImage_reports_rectangle_not_crop (browserShowing squarePixels)
              approxMath (scaledCanvas planImage) DEFAULT_CROP_CONFIG _ Hsel eq_refl)
    as (cropCanvas & Hrun & Hw & Hh).
  exists cropCanvas. split; [exact Hsel|]. split; [exact Hrun|].
  split; [rewrite Hw|rewrite Hh]; by vm_compute.
Defined.

(** C3, as stated, fails: in [browserWithoutContext] the image decodes, yet
    the promise is rejected, with the error raised when no 2D context can
    be obtained for the canvas. *)
Lemma cropToInnerRectangle_rejects_without_context :
  loadImage browserWithoutContext "plan.png" = Some planImage /\
  cropToInnerRectangle browserWithoutContext approxMath "plan.png" DEFAULT_CROP_CONFIG
    = Rejected (Err "Could not get canvas context").
Proof. split; reflexivity. Qed.

(** C3, amended: the promise is rejected in exactly four cases: the image
    fails to decode; the image decodes but no 2D context is obtained for
    the canvas; the context is obtained and drawing the image on the
    canvas throws; or the image is drawn and leaves the canvas not
    origin-clean, so that reading its pixel data throws a SecurityError
    and encoding the canvas for the fallback throws it again.  Every other
    exception thrown once the canvas is prepared, by reading the pixel
    data or by any stage of processing, is caught, and the promise
    resolves with the scaled image. *)
Theorem cropToInnerRectangle_rejections (B : Browser) (M : JSMath)
    (imageUrl : string) (config : CropConfig) :
  (forall e, cropToInnerRectangle B M imageUrl config = Rejected e <->
     (loadImage B imageUrl = None /\ e = Err "Failed to load image") \/
     (exists img, loadImage B imageUrl = Some img /\ getContext2d B 0 = false /\
                  e = Err "Could not get canvas context") \/
     (exists img, loadImage B imageUrl = Some img /\ getContext2d B 0 = true /\
                  drawImageError B img = Some e) \/
     (exists img, loadImage B imageUrl = Some img /\ getContext2d B 0 = true /\
                  drawImageError B img = None /\ securityError B img = Some e)) /\
  (forall img e, loadImage B imageUrl = Some img -> getContext2d B 0 = true ->
     drawImageError B img = None -> securityError B img = None ->
     processImageWithJavaScript B M (scaledCanvas img) config = Throw e ->
     cropToInnerRectangle B M imageUrl config = Resolved (fallback (scaledCanvas img))).
Proof.
  split; [|intros img e; apply processImage_throw_falls_back].
  intros e. unfold cropToInnerRectangle.
  destruct (loadImage B imageUrl) as [img|] eqn:Hload.
  - destruct (getContext2d B 0) eqn:Hctx; cbn [negb].
    + destruct (drawImageError B img) as [e'|] eqn:Hdraw.
      * split.
        -- intros [= <-]. right; right; left. by exists img.
        -- intros [[? _]|[(? & _ & ? & _)|[(img' & [= <-] & _ & Hd)
                  |(img' & [= <-] & _ & Hd & _)]]]; try done; congruence.
      * unfold processImageWithJavaScript, locateRectangle, toDataURL, getImageData.
        cbv zeta. change (drawnImage (canvas_drawing (scaledCanvas img))) with img.
        destruct (securityError B img) as [e'|] eqn:Hsec.
        -- cbn [mbind outcome_bind]. split.
           ++ intros [= <-]. right; right; right. by exists img.
           ++ intros [[? _]|[(? & _ & ? & _)|[(img' & [= <-] & _ & Hd)
                     |(img' & [= <-] & _ & _ & Hs)]]]; try done; congruence.
        -- split.
           ++ intros Hrej. exfalso.
              destruct (readPixels B (scaledCanvas img)); cbn [mbind outcome_bind] in Hrej;
                [|done].
              destruct (findBestRectangle _ _ _ _ _) as [[rect|]|];
                cbn [mbind outcome_bind] in Hrej; try done.
              destruct (cropWithPerspectiveTransform _ _ _ _);
                cbn [mbind outcome_bind] in Hrej; done.
           ++ intros [[? _]|[(? & _ & ? & _)|[(img' & [= <-] & _ & Hd)
                     |(img' & [= <-] & _ & _ & Hs)]]]; try done; congruence.
    + split.
      * intros [= <-]. right; left. by exists img.
      * intros [[? _]|[(? & _ & _ & ->)|[(? & _ & ? & _)|(? & _ & ? & _)]]]; done.
  - split.
    + intros [= <-]. by left.
    + intros [[_ ->]|[(? & ? & _)|[(? & ? & _)|(? & ? & _)]]]; done.
Qed.

(** * Part X: further properties of the pipeline *)

(** ** Loops over the interior of the image *)

Lemma forRange_ext {T} lo hi (f g : Z -> T -> T) init :
  (forall i s, lo <= i < hi -> f i s = g i s) ->
  forRange lo hi f init = forRange lo hi g init.
Proof.
  intros H. unfold forRange. apply foldl_ext_in. intros a x Hx.
  apply elem_of_seqZ in Hx. apply H. lia.
Qed.

Lemma peek_out_of_range {A} (buf : list A) i :
  ~ (0 <= i < Z.of_nat (length buf)) -> peek buf i = None.
Proof.
  intros H. destruct (peek buf i) eqn:E; [|done]. apply peek_Some_range in E. lia.
Qed.

Lemma index_div_mod width x y :
  0 <= x < width -> (y * width + x) / width = y /\ (y * width + x) mod width = x.
Proof.
  intros Hx. split.
  - rewrite Z.add_comm, Z.div_add by lia. rewrite Z.div_small by lia. lia.
  - rewrite Z.add_comm, Z.mod_add by lia. apply Z.mod_small; lia.
Qed.

Lemma pixelOf_index width p :
  0 <= pt_x p < width -> pixelOf width (indexOf width p) = p.
Proof.
  intros Hx. destruct p as [x y]. unfold pixelOf, indexOf. simpl in *.
  destruct (index_div_mod width x y Hx) as [-> ->]. done.
Qed.

Lemma index_of_div_mod width i : 0 < width -> (i / width) * width + i mod width = i.
Proof. intros Hw. pose proof (Z.div_mod i width). lia. Qed.

Section Raster.
Context {A : Type} (width height : Z) (g : Z -> Z -> option A) (init : list A).

Local Abbreviation partial := (rasterPartial width height g init).

Lemma rasterPartial_ext x y x' y' buf :
  (forall i, rasterDone width height x y i <-> rasterDone width height x' y' i) ->
  partial x y buf -> partial x' y' buf.
Proof.
  intros Hiff [Hlen H]. split; [done|]. intros i.
  destruct (H i) as [H1 H2]. rewrite <- Hiff. done.
Qed.

Lemma rasterPartial_step x y buf :
  1 <= x < width - 1 -> 1 <= y < height - 1 ->
  partial x y buf -> partial (x + 1) y (rasterWrite width g x y buf).
Proof.
  intros Hx Hy [Hlen H].
  assert (0 <= x < width) as Hxw by lia.
  destruct (index_div_mod width x y Hxw) as [Hdiv Hmod].
  assert (interiorPoint width height (pixelOf width (y * width + x))) as Hint.
  { unfold interiorPoint, pixelOf, interior. simpl. rewrite Hdiv, Hmod. lia. }
  assert (forall i, i <> y * width + x ->
            (rasterDone width height (x + 1) y i <-> rasterDone width height x y i))
    as Hother.
  { intros i Hne. unfold rasterDone.
    pose proof (index_of_div_mod width i). intuition lia. }
  assert (rasterDone width height (x + 1) y (y * width + x)) as Hnow.
  { split; [done|]. right. lia. }
  assert (~ rasterDone width height x y (y * width + x)) as Hnot.
  { intros [_ Hd]. lia. }
  split.
  - unfold rasterWrite. destruct (g x y); [by rewrite length_poke|done].
  - intros i. destruct (decide (i = y * width + x)) as [->|Hne].
    + split; [intros _|done].
      unfold rasterWrite, rasterCell. rewrite decide_True by done.
      rewrite Hdiv, Hmod. destruct (g x y) as [v|].
      * rewrite peek_poke, Hlen.
        destruct (decide (0 <= y * width + x < Z.of_nat (length init))) as [Hr|Hr].
        -- by rewrite decide_True.
        -- rewrite decide_False by tauto. apply peek_out_of_range. by rewrite Hlen.
      * by apply H.
    + rewrite (Hother i Hne).
      assert (peek (rasterWrite width g x y buf) i = peek buf i) as ->; [|apply H].
      unfold rasterWrite. destruct (g x y); [|done]. by rewrite peek_poke_ne.
Qed.

Lemma rasterPartial_row y buf :
  1 <= y < height - 1 ->
  partial 1 y buf ->
  partial 1 (y + 1)
    (forRange 1 (width - 1) (fun x buf => rasterWrite width g x y buf) buf).
Proof.
  intros Hy Hbuf. destruct (decide (1 <= width - 1)) as [Hw|Hw].
  - apply (rasterPartial_ext (width - 1) y).
    { intros i. unfold rasterDone, interiorPoint, interior, pixelOf. simpl. lia. }
    apply (forRange_ind (fun x buf => partial x y buf)); [done|done|].
    intros x s Hx Hs. by apply rasterPartial_step.
  - rewrite forRange_nil by lia. revert Hbuf. apply rasterPartial_ext.
    intros i. unfold rasterDone, interiorPoint, interior, pixelOf. simpl. lia.
Qed.

Lemma length_rasterLoop : length (rasterLoop width height g init) = length init.
Proof.
  unfold rasterLoop.
  apply (forRange_inv (fun buf => length buf = length init)); [done|].
  intros y buf _ Hb.
  apply (forRange_inv (fun buf => length buf = length init)); [done|].
  intros x buf' _ Hb'. unfold rasterWrite.
  destruct (g x y); [by rewrite length_poke|done].
Qed.

Lemma peek_rasterLoop i :
  peek (rasterLoop width height g init) i = rasterCell width height g init i.
Proof.
  assert (partial 1 1 init) as H0.
  { split; [done|]. intros j. split; [|done].
    unfold rasterDone, interiorPoint, interior, pixelOf. simpl. lia. }
  unfold rasterLoop. destruct (decide (1 <= height - 1)) as [Hh|Hh].
  - assert (partial 1 (height - 1)
              (forRange 1 (height - 1) (fun y buf =>
                 forRange 1 (width - 1) (fun x buf => rasterWrite width g x y buf) buf)
                 init)) as [_ H].
    { apply (forRange_ind (fun y buf => partial 1 y buf)); [done|done|].
      intros y s Hy Hs. by apply rasterPartial_row. }
    destruct (H i) as [H1 H2].
    destruct (decide (interiorPoint width height (pixelOf width i))) as [Hi|Hi].
    + apply H1. split; [done|]. left.
      unfold interiorPoint, interior, pixelOf in Hi. simpl in Hi. lia.
    + rewrite H2 by (by intros [? _]). unfold rasterCell. by rewrite decide_False.
  - rewrite forRange_nil by lia. unfold rasterCell. rewrite decide_False; [done|].
    unfold interiorPoint, interior. lia.
Qed.

End Raster.

(** ** Rounding *)

(** [Math.round] of a quotient of integers. *)
Lemma Math_round_quotient (n : Z) (d : positive) :
  Math_round (inject_Z n / inject_Z (Zpos d)) = (2 * n + Zpos d) / (2 * Zpos d).
Proof.
  unfold Math_round.
  assert (inject_Z n / inject_Z (Z.pos d) + (1 # 2) == (2 * n + Zpos d) # (2 * d))%Q as ->.
  { unfold Qeq, Qdiv, Qmult, Qplus, Qinv, inject_Z. simpl. lia. }
  reflexivity.
Qed.

Lemma Math_round_quotient_bounds (n : Z) (d : positive) lo hi :
  Zpos d * lo <= n <= Zpos d * hi ->
  lo <= Math_round (inject_Z n / inject_Z (Zpos d)) <= hi.
Proof.
  intros H. rewrite Math_round_quotient. split.
  - apply Z.div_le_lower_bound; lia.
  - apply Z.lt_succ_r. apply Z.div_lt_upper_bound; lia.
Qed.

Lemma toUint8_byte v : 0 <= v <= 255 -> toUint8 v = v.
Proof. intros H. unfold toUint8. apply Z.mod_small. lia. Qed.

(** ** Grayscale *)

Lemma luminance_mono r g b r' g' b' :
  0 <= r <= r' -> 0 <= g <= g' -> 0 <= b <= b' ->
  luminance r g b <= luminance r' g' b'.
Proof.
  intros [Hr Hrr] [Hg Hgg] [Hb Hbb]. unfold luminance, Math_round.
  assert (forall a a', 0 <= a -> a <= a' ->
            (0 <= inject_Z a)%Q /\ (inject_Z a <= inject_Z a')%Q) as Hq.
  { intros a a' H0 H1. split; [change 0%Q with (inject_Z 0)|]; by rewrite <- Zle_Qle. }
  destruct (Hq r r' Hr Hrr) as [Hr0 Hr1]. destruct (Hq g g' Hg Hgg) as [Hg0 Hg1].
  destruct (Hq b b' Hb Hbb) as [Hb0 Hb1].
  assert (0 <= toDouble (299 # 1000))%Q as Hc1 by (by vm_compute).
  assert (0 <= toDouble (587 # 1000))%Q as Hc2 by (by vm_compute).
  assert (0 <= toDouble (114 # 1000))%Q as Hc3 by (by vm_compute).
  destruct (jsMul_mono _ _ _ Hc1 Hr0 Hr1) as [Hr2 Hr3].
  destruct (jsMul_mono _ _ _ Hc2 Hg0 Hg1) as [Hg2 Hg3].
  destruct (jsMul_mono _ _ _ Hc3 Hb0 Hb1) as [Hb2 Hb3].
  destruct (jsAdd_mono _ _ _ _ Hr2 Hr3 Hg2 Hg3) as [Hs0 Hs1].
  destruct (jsAdd_mono _ _ _ _ Hs0 Hs1 Hb2 Hb3) as [_ Ht].
  by apply Qfloor_resp_le, Qplus_le_l.
Qed.

Lemma luminance_byte r g b :
  0 <= r <= 255 -> 0 <= g <= 255 -> 0 <= b <= 255 -> 0 <= luminance r g b <= 255.
Proof.
  intros Hr Hg Hb. split.
  - change 0 with (luminance 0 0 0). apply luminance_mono; lia.
  - change 255 with (luminance 255 255 255). apply luminance_mono; lia.
Qed.

Lemma luminance_gray v : 0 <= v <= 255 -> luminance v v v = v.
Proof.
  intros Hv.
  assert (forallb (fun v => luminance v v v =? v) (seqZ 0 256) = true) as Hall
    by (by vm_compute).
  rewrite forallb_forall in Hall. apply Z.eqb_eq, Hall.
  apply list_elem_of_In, elem_of_seqZ. lia.
Qed.

(** The sum is rounded as the doubles are: at (0, 36, 12) and (0, 80, 110)
    the weighted sum is 22.5 and 59.5 in exact arithmetic and just below in
    doubles. *)
Lemma luminance_below_half :
  luminance 0 36 12 = 22 /\ luminance 0 80 110 = 59 /\
  Math_round ((299 # 1000) * 0 + (587 # 1000) * 36 + (114 # 1000) * 12) = 23 /\
  Math_round ((299 # 1000) * 0 + (587 # 1000) * 80 + (114 # 1000) * 110) = 60.
Proof. by vm_compute. Qed.

Lemma convertToGrayscale_cells (data : list Z) :
  length (convertToGrayscale data) = (length data / 4)%nat /\
  forall k v, 0 <= k < Z.of_nat (length data) / 4 ->
    grayAt data k = Some v -> peek (convertToGrayscale data) k = Some v.
Proof.
  unfold convertToGrayscale. cbv zeta.
  set (len := Z.of_nat (length data)).
  set (n := Z.to_nat (len / 4)).
  assert (n = (length data / 4)%nat) as Hn.
  { subst n len. rewrite <- (Nat2Z.id (length data / 4)). f_equal.
    by rewrite Nat2Z.inj_div. }
  assert (Z.of_nat n = len / 4) as Hn'.
  { subst n. rewrite Z2Nat.id; [done|]. apply Z.div_pos; lia. }
  set (body := fun (k : Z) (grayData : list Z) => _).
  assert (length (forRange 0 ((len + 3) / 4) body (replicate n 0)) = n /\
          forall k v, 0 <= k < Z.min ((len + 3) / 4) (len / 4) -> grayAt data k = Some v ->
            peek (forRange 0 ((len + 3) / 4) body (replicate n 0)) k = Some v) as [Hl Hc].
  { apply (forRange_ind (fun i buf => length buf = n /\
             forall k v, 0 <= k < Z.min i (len / 4) -> grayAt data k = Some v ->
                         peek buf k = Some v)).
    { apply Z.div_pos; lia. }
    { split; [apply length_replicate|]. intros; lia. }
    intros i buf Hi [Hbl Hb].
    assert (exists gray, body i buf = poke i gray buf /\
              forall v, grayAt data i = Some v -> gray = v) as (gray & -> & Hgray).
    { unfold body, grayAt.
      destruct (peek data (4 * i)), (peek data (4 * i + 1)), (peek data (4 * i + 2));
        eexists; (split; [reflexivity|]); intros v Hv; congruence. }
    split; [by rewrite length_poke|].
    intros k v Hk Hv. rewrite peek_poke.
    destruct (decide (i = k /\ _)) as [[-> _]|Hne]; [f_equal; by apply Hgray|].
    apply Hb; [|done]. destruct (decide (i = k)) as [->|]; [|lia].
    exfalso. apply Hne. split; [done|]. lia. }
  split; [by rewrite Hl|]. intros k v Hk Hv. apply Hc; [|done].
  assert (len / 4 <= (len + 3) / 4) by (apply Z.div_le_mono; lia). lia.
Qed.

(** X1: the grayscale conversion returns one value for every complete
    RGBA pixel of its input (a quarter of the input's length, rounded
    down).  When the bytes are in 0..255, the value of a pixel is
    [luminance r g b], the result of
    Math.round(0.299 * r + 0.587 * g + 0.114 * b) in doubles, whatever the
    alpha byte.  That value is again in 0..255, so nothing wraps around in
    the Uint8Array, and a pixel with r = g = b keeps that value. *)
Theorem convertToGrayscale_weighs_channels (data : list Z) :
  Forall (fun c => 0 <= c <= 255) data ->
  length (convertToGrayscale data) = (length data / 4)%nat /\
  forall (k : nat) r g b a,
    data !! (4 * k)%nat = Some r -> data !! (4 * k + 1)%nat = Some g ->
    data !! (4 * k + 2)%nat = Some b -> data !! (4 * k + 3)%nat = Some a ->
    convertToGrayscale data !! k = Some (luminance r g b) /\
    0 <= luminance r g b <= 255 /\
    (r = g -> g = b -> luminance r g b = r).
Proof.
  intros Hall.
  destruct (convertToGrayscale_cells data) as [Hl Hcells].
  split; [done|].
  intros k r g b a Hr Hg Hb Ha.
  pose proof (Forall_lookup_1 _ _ _ _ Hall Hr) as Hr'.
  pose proof (Forall_lookup_1 _ _ _ _ Hall Hg) as Hg'.
  pose proof (Forall_lookup_1 _ _ _ _ Hall Hb) as Hb'. cbv beta in Hr', Hg', Hb'.
  pose proof (luminance_byte r g b Hr' Hg' Hb') as Hlum.
  split; [|split; [done|intros <- <-; by apply luminance_gray]].
  specialize (Hcells (Z.of_nat k) (luminance r g b)).
  unfold peek in Hcells. rewrite decide_True, Nat2Z.id in Hcells by lia.
  apply Hcells.
  - apply lookup_lt_Some in Ha.
    assert (Z.of_nat k + 1 <= Z.of_nat (length data) / 4)
      by (apply Z.div_le_lower_bound; lia).
    lia.
  - unfold grayAt, peek. rewrite !decide_True by lia.
    replace (Z.to_nat (4 * Z.of_nat k)) with (4 * k)%nat by lia.
    replace (Z.to_nat (4 * Z.of_nat k + 1)) with (4 * k + 1)%nat by lia.
    replace (Z.to_nat (4 * Z.of_nat k + 2)) with (4 * k + 2)%nat by lia.
    rewrite Hr, Hg, Hb. by rewrite toUint8_byte.
Qed.

Lemma convertToGrayscale_weighs_channels_witness :
  convertToGrayscale twoPixels = [76; 90] /\
  length (convertToGrayscale twoPixels) = (length twoPixels / 4)%nat.
Proof.
  split; [by vm_compute|].
  apply (convertToGrayscale_weighs_channels twoPixels). repeat constructor; lia.
Defined.

(** ** The 3x3 window and the blur *)

Lemma forRange_3 {T} (body : Z -> T -> T) init :
  forRange (-1) 2 body init = body 1 (body 0 (body (-1) init)).
Proof. reflexivity. Qed.

Lemma convolve3_Some k d w x y s :
  convolve3 k d w x y = Some s ->
  windowDefined d w x y /\ s = weightedSum k d w x y.
Proof.
  unfold convolve3. rewrite !forRange_3. cbn [mbind option_bind].
  unfold weightedSum, windowCell.
  destruct (peek d ((y + -1) * w + (x + -1))) as [a1|] eqn:E1; [|done].
  destruct (peek d ((y + -1) * w + (x + 0))) as [a2|] eqn:E2; [|done].
  destruct (peek d ((y + -1) * w + (x + 1))) as [a3|] eqn:E3; [|done].
  destruct (peek d ((y + 0) * w + (x + -1))) as [a4|] eqn:E4; [|done].
  destruct (peek d ((y + 0) * w + (x + 0))) as [a5|] eqn:E5; [|done].
  destruct (peek d ((y + 0) * w + (x + 1))) as [a6|] eqn:E6; [|done].
  destruct (peek d ((y + 1) * w + (x + -1))) as [a7|] eqn:E7; [|done].
  destruct (peek d ((y + 1) * w + (x + 0))) as [a8|] eqn:E8; [|done].
  destruct (peek d ((y + 1) * w + (x + 1))) as [a9|] eqn:E9; [|done].
  cbn [mbind option_bind default]. intros [= <-]. split; [|done].
  intros kx ky Hkx Hky.
  assert (kx = -1 \/ kx = 0 \/ kx = 1) as [->|[->| ->]] by lia;
  assert (ky = -1 \/ ky = 0 \/ ky = 1) as [->|[->| ->]] by lia;
  by eexists.
Qed.

Lemma convolve3_defined k d w x y :
  windowDefined d w x y -> convolve3 k d w x y = Some (weightedSum k d w x y).
Proof.
  intros H. unfold convolve3. rewrite !forRange_3. cbn [mbind option_bind].
  unfold weightedSum, windowCell.
  destruct (H (-1) (-1)) as [a1 ->]; [lia..|].
  destruct (H 0 (-1)) as [a2 ->]; [lia..|].
  destruct (H 1 (-1)) as [a3 ->]; [lia..|].
  destruct (H (-1) 0) as [a4 ->]; [lia..|].
  destruct (H 0 0) as [a5 ->]; [lia..|].
  destruct (H 1 0) as [a6 ->]; [lia..|].
  destruct (H (-1) 1) as [a7 ->]; [lia..|].
  destruct (H 0 1) as [a8 ->]; [lia..|].
  destruct (H 1 1) as [a9 ->]; [lia..|].
  reflexivity.
Qed.

Lemma windowDefined_interior d w h x y :
  Z.of_nat (length d) = w * h -> interior w h x y -> windowDefined d w x y.
Proof.
  intros Hlen [Hx Hy] kx ky Hkx Hky. unfold peek.
  assert (0 <= (y + ky) * w + (x + kx) < Z.of_nat (length d)) as Hr by nia.
  rewrite decide_True by lia. apply lookup_lt_is_Some. lia.
Qed.

Lemma windowCell_bounds d w x y kx ky lo hi :
  Forall (fun v => lo <= v <= hi) d ->
  is_Some (peek d ((y + ky) * w + (x + kx))) ->
  lo <= windowCell d w x y kx ky <= hi.
Proof.
  intros Hall [v Hv]. unfold windowCell. rewrite Hv. simpl.
  unfold peek in Hv. case_decide; [|done].
  by apply (Forall_lookup_1 _ _ _ _ Hall Hv).
Qed.

Lemma gauss_sum_bounds d w x y lo hi :
  Forall (fun v => lo <= v <= hi) d -> windowDefined d w x y ->
  16 * lo <= weightedSum gaussKernel d w x y <= 16 * hi.
Proof.
  intros Hall Hdef. unfold weightedSum.
  pose proof (fun kx ky Hx Hy =>
    windowCell_bounds d w x y kx ky lo hi Hall (Hdef kx ky Hx Hy)) as Hb.
  pose proof (Hb (-1) (-1)). pose proof (Hb 0 (-1)). pose proof (Hb 1 (-1)).
  pose proof (Hb (-1) 0). pose proof (Hb 0 0). pose proof (Hb 1 0).
  pose proof (Hb (-1) 1). pose proof (Hb 0 1). pose proof (Hb 1 1).
  change (kernelAt gaussKernel (-1) (-1)) with 1.
  change (kernelAt gaussKernel (-1) 0) with 2.
  change (kernelAt gaussKernel (-1) 1) with 1.
  change (kernelAt gaussKernel 0 (-1)) with 2.
  change (kernelAt gaussKernel 0 0) with 4.
  change (kernelAt gaussKernel 0 1) with 2.
  change (kernelAt gaussKernel 1 (-1)) with 1.
  change (kernelAt gaussKernel 1 0) with 2.
  change (kernelAt gaussKernel 1 1) with 1.
  lia.
Qed.

Lemma applyGaussianBlur_raster grayData width height :
  applyGaussianBlur grayData width height =
  rasterLoop width height (fun x y => Some (blurredValue grayData width x y))
    (replicate (length grayData) 0).
Proof. reflexivity. Qed.

Lemma interior_pixelOf width height x y :
  interior width height x y ->
  interiorPoint width height (pixelOf width (y * width + x)).
Proof.
  intros [Hx Hy]. unfold interiorPoint, pixelOf. simpl.
  destruct (index_div_mod width x y) as [-> ->]; [lia|]. done.
Qed.

(** X2: the blur returns a buffer as long as its input in which every
    pixel of the one-pixel border of the image (first and last row, first
    and last column) is 0, whatever the input holds there: the border is
    not copied. *)
Theorem applyGaussianBlur_leaves_border_black (grayData : list Z) (width height : Z) :
  length (applyGaussianBlur grayData width height) = length grayData /\
  forall x y v, inImage width height x y -> ~ interior width height x y ->
    peek (applyGaussianBlur grayData width height) (y * width + x) = Some v -> v = 0.
Proof.
  rewrite applyGaussianBlur_raster. split.
  - by rewrite length_rasterLoop, length_replicate.
  - intros x y v [Hx Hy] Hno. rewrite peek_rasterLoop. unfold rasterCell.
    rewrite decide_False.
    + apply peek_replicate.
    + unfold interiorPoint, pixelOf. simpl.
      destruct (index_div_mod width x y) as [-> ->]; done.
Qed.

(** X3: on a width x height image whose pixels all lie between lo and hi
    (0 <= lo, hi <= 255), the blurred value of every pixel off the border
    is the rounded sixteenth of the 1-2-1 / 2-4-2 / 1-2-1 weighted sum of
    its 3x3 window, and lies between lo and hi as well. *)
Theorem applyGaussianBlur_stays_in_range (grayData : list Z) (width height lo hi x y : Z) :
  Z.of_nat (length grayData) = width * height -> 0 <= lo -> hi <= 255 ->
  Forall (fun v => lo <= v <= hi) grayData ->
  interior width height x y ->
  exists v, peek (applyGaussianBlur grayData width height) (y * width + x) = Some v /\
            v = Math_round (inject_Z (weightedSum gaussKernel grayData width x y) / 16) /\
            lo <= v <= hi.
Proof.
  intros Hlen Hlo Hhi Hall Hint.
  pose proof (windowDefined_interior _ _ _ _ _ Hlen Hint) as Hdef.
  pose proof (gauss_sum_bounds _ _ _ _ _ _ Hall Hdef) as Hsum.
  pose proof (Math_round_quotient_bounds _ 16 lo hi Hsum) as Hround.
  eexists. split; [|split; [reflexivity|exact Hround]].
  rewrite applyGaussianBlur_raster, peek_rasterLoop. unfold rasterCell.
  rewrite decide_True by (by apply interior_pixelOf).
  destruct (index_div_mod width x y) as [-> ->]; [destruct Hint; lia|].
  rewrite length_replicate, decide_True by (destruct Hint; nia).
  unfold blurredValue. rewrite convolve3_defined by done.
  rewrite toUint8_byte; [done|]. change (16%Q) with (inject_Z (Zpos 16)). lia.
Qed.

Lemma applyGaussianBlur_stays_in_range_witness :
  exists v, peek (applyGaussianBlur flatGray 3 3) (1 * 3 + 1) = Some v /\
            v = Math_round (inject_Z (weightedSum gaussKernel flatGray 3 1 1) / 16) /\
            100 <= v <= 100.
Proof.
  apply (applyGaussianBlur_stays_in_range flatGray 3 3 100 100 1 1);
    [reflexivity|lia|lia| |unfold interior; lia].
  apply Forall_replicate. lia.
Defined.

(** ** Hysteresis *)

Lemma peek_poke_keeps {A} (buf : list A) i j (v : A) :
  peek buf i = Some v -> peek (poke j v buf) i = Some v.
Proof. intros H. rewrite peek_poke. by case_decide. Qed.

Section Hysteresis.
Context (suppressedData : list Z) (width height : Z).

Local Abbreviation inv := (weakInv suppressedData width height).
Local Abbreviation linked := (linkedToStrong suppressedData width height).
Local Abbreviation link := (weakLink suppressedData width height).
Local Abbreviation weak := (weakAt suppressedData width height).
Local Abbreviation strong := (strongAt suppressedData width height).
Local Abbreviation nbr := (weakNeighbour suppressedData width height).
Local Abbreviation scan := (weakScan suppressedData width height).

Lemma weakScan_neighbour p e0 seen s o :
  inBounds width height p -> peek e0 (indexOf width p) = Some 255 ->
  o ∈ offsets ->
  scan p e0 seen s -> scan p e0 (seen ++ [o]) (nbr (pt_x p) (pt_y p) s o).
Proof.
  intros Hp Hp0 Ho [Hlen Hbin Hsound Hstack Hmono Hclosed Hseen].
  destruct o as [dx dy]. apply elem_of_offsets in Ho.
  unfold weakNeighbour. cbv zeta.
  set (q := mkPoint (pt_x p + dx) (pt_y p + dy)).
  set (idx := (pt_y p + dy) * width + (pt_x p + dx)).
  assert (indexOf width q = idx) as Hidx by done.
  assert (touches p q) as Htouch by (unfold touches, q; simpl; lia).
  destruct (decide (inBounds width height q)) as [Hq|Hq].
  - destruct (decide (peek suppressedData idx = Some 128 /\
                      peek (we_edge s) idx = Some 0)) as [[Hw He]|Hno].
    + destruct s as [e stk]. cbn [we_edge we_stack] in *.
      assert (forall a, inBounds width height a ->
                peek (poke idx 255 e) (indexOf width a) = Some 255 ->
                a = q \/ peek e (indexOf width a) = Some 255) as Hnew.
      { intros a Ha. rewrite peek_poke.
        destruct (decide (idx = indexOf width a /\ _)) as [[Heq _]|_]; [|by right].
        intros _. left. apply (indexOf_inj width height); [done..|]. by rewrite Hidx. }
      split; cbn [we_edge we_stack].
      * by rewrite length_poke.
      * intros i v. rewrite peek_poke. case_decide; [intros [= <-]; by right|apply Hbin].
      * intros a Ha Hset. destruct (Hnew a Ha Hset) as [->|Hold]; [|by apply Hsound].
        destruct (Hsound p Hp (Hmono _ Hp0)) as (p0 & Hp0s & Hchain).
        exists p0. split; [done|]. eapply rtc_r; [exact Hchain|].
        split; [done|]. split; [done|]. by rewrite Hidx.
      * intros a [->|Ha]%elem_of_cons.
        -- split; [done|]. rewrite Hidx. by eapply peek_poke_eq.
        -- destruct (Hstack a Ha) as [Hb Hs]. split; [done|]. by apply peek_poke_keeps.
      * intros i Hi. by apply peek_poke_keeps, Hmono.
      * intros a b Ha Hset Hnot Hne Hlink. apply not_elem_of_cons in Hnot as [Haq Hnot].
        destruct (Hnew a Ha Hset) as [->|Hold]; [done|].
        apply peek_poke_keeps. by apply (Hclosed a b).
      * intros dx' dy' [Hin|Hin]%elem_of_app Hweak.
        -- by apply peek_poke_keeps, Hseen.
        -- apply list_elem_of_singleton in Hin. injection Hin as -> ->.
           by eapply peek_poke_eq.
    + split; try done.
      intros dx' dy' [Hin|Hin]%elem_of_app Hweak; [by apply Hseen|].
      apply list_elem_of_singleton in Hin. injection Hin as -> ->.
      destruct Hweak as [_ Hweak]. change (peek suppressedData idx = Some 128) in Hweak.
      apply peek_Some_range in Hweak as Hr.
      destruct (peek (we_edge s) idx) as [v|] eqn:Hv.
      * destruct (Hbin _ _ Hv) as [->| ->]; [|done]. by destruct Hno.
      * exfalso. unfold peek in Hv. rewrite decide_True in Hv by lia.
        apply lookup_ge_None in Hv. lia.
  - split; try done.
    intros dx' dy' [Hin|Hin]%elem_of_app Hweak; [by apply Hseen|].
    apply list_elem_of_singleton in Hin. injection Hin as -> ->.
    by destruct Hweak as [Hb _].
Qed.

Lemma weakScan_neighbours p e0 l seen s :
  inBounds width height p -> peek e0 (indexOf width p) = Some 255 ->
  (forall o, o ∈ l -> o ∈ offsets) ->
  scan p e0 seen s -> scan p e0 (seen ++ l) (foldl (nbr (pt_x p) (pt_y p)) s l).
Proof.
  intros Hp Hp0. revert seen s.
  induction l as [|o l IH]; intros seen s Hl Hs; cbn [foldl].
  - by rewrite app_nil_r.
  - replace (seen ++ o :: l) with ((seen ++ [o]) ++ l) by (by rewrite <- app_assoc).
    apply IH; [intros o' Ho'; apply Hl; by right|].
    apply weakScan_neighbour; [done..|apply Hl; by left|done].
Qed.

Lemma weakStep_inv s s' :
  inv s -> weakStep suppressedData width height s = Some s' ->
  inv s' /\ forall i, peek (we_edge s) i = Some 255 -> peek (we_edge s') i = Some 255.
Proof.
  intros [Hlen Hbin Hsound Hstack Hclosed]. unfold weakStep.
  destruct s as [e stk]. cbn [we_edge we_stack] in *.
  destruct stk as [|p stk]; [done|]. intros Heq. apply (inj Some) in Heq.
  destruct (Hstack p) as [Hp Hp0]; [by left|].
  assert (scan p e [] (mkWeak e stk)) as H0.
  { split; cbn [we_edge we_stack]; try done.
    - intros a Ha. apply Hstack. by right.
    - intros a b Ha Hset Hnot Hne. apply Hclosed; [done..|].
      intros [->|?]%elem_of_cons; done.
    - intros dx dy Hin. by apply elem_of_nil in Hin. }
  apply (weakScan_neighbours p e offsets [] _ Hp Hp0) in H0; [|done].
  rewrite Heq in H0. cbn [app] in H0.
  destruct H0 as [Hlen' Hbin' Hsound' Hstack' Hmono' Hclosed' Hseen'].
  split; [|done]. split; try done.
  intros a b Ha Hset Hnot Hlink.
  destruct (decide (a = p)) as [->|Hne]; [|by apply (Hclosed' a b)].
  destruct Hlink as [Htouch Hweak]. destruct b as [bx byy].
  unfold touches in Htouch. simpl in Htouch.
  specialize (Hseen' (bx - pt_x p) (byy - pt_y p)).
  replace (pt_x p + (bx - pt_x p)) with bx in Hseen' by lia.
  replace (pt_y p + (byy - pt_y p)) with byy in Hseen' by lia.
  apply Hseen'; [|done]. apply elem_of_offsets. lia.
Qed.

Lemma traceWeakEdges_inv e x y :
  inv (mkWeak e []) -> interior width height x y ->
  peek suppressedData (y * width + x) = Some 255 ->
  inv (mkWeak (traceWeakEdges suppressedData (poke (y * width + x) 255 e)
                 width height x y) []) /\
  (forall i, peek e i = Some 255 ->
     peek (traceWeakEdges suppressedData (poke (y * width + x) 255 e)
             width height x y) i = Some 255) /\
  peek (traceWeakEdges suppressedData (poke (y * width + x) 255 e)
          width height x y) (y * width + x) = Some 255.
Proof.
  intros [Hlen Hbin Hsound _ Hclosed] Hint Hstrong. cbn [we_edge we_stack] in *.
  set (idx := y * width + x) in *. set (p := mkPoint x y).
  assert (inBounds width height p) as Hp.
  { unfold inBounds, interior in *. simpl. lia. }
  assert (peek (poke idx 255 e) idx = Some 255) as Hset.
  { rewrite peek_poke, decide_True; [done|].
    apply peek_Some_range in Hstrong. split; [done|]. lia. }
  assert (forall a, inBounds width height a ->
            peek (poke idx 255 e) (indexOf width a) = Some 255 ->
            a = p \/ peek e (indexOf width a) = Some 255) as Hnew.
  { intros a Ha. rewrite peek_poke.
    destruct (decide (idx = indexOf width a /\ _)) as [[Heq _]|_]; [|by right].
    intros _. left. by apply (indexOf_inj width height). }
  assert (inv (mkWeak (poke idx 255 e) [p])) as Hinit.
  { split; cbn [we_edge we_stack].
    - by rewrite length_poke.
    - intros i v. rewrite peek_poke. case_decide; [intros [= <-]; by right|apply Hbin].
    - intros a Ha Ha'. destruct (Hnew a Ha Ha') as [->|Hold]; [|by apply Hsound].
      exists p. split; [|done]. split; done.
    - intros a ->%list_elem_of_singleton. done.
    - intros a b Ha Ha' Hnot Hlink. apply not_elem_of_cons in Hnot as [Hne _].
      destruct (Hnew a Ha Ha') as [->|Hold]; [done|].
      apply peek_poke_keeps. apply (Hclosed a b); try done. apply not_elem_of_nil. }
  unfold traceWeakEdges.
  pose proof (traceWeakEdges_terminates suppressedData width height
                (poke idx 255 e) x y) as Hstop.
  set (final := runLoop _ _ _) in *.
  assert (inv final /\
          forall i, peek (poke idx 255 e) i = Some 255 ->
                    peek (we_edge final) i = Some 255) as [Hfinal Hmono].
  { apply (runLoop_inv (fun s => inv s /\
             forall i, peek (poke idx 255 e) i = Some 255 ->
                       peek (we_edge s) i = Some 255)); [|done].
    intros s s' [Hs Hm] Hstep. destruct (weakStep_inv s s' Hs Hstep) as [Hs' Hm'].
    split; [done|]. intros i Hi. by apply Hm', Hm. }
  assert (we_stack final = []) as Hempty.
  { unfold weakStep in Hstop. by destruct (we_stack final). }
  split; [|split].
  - destruct final as [ef stkf]. cbn [we_edge we_stack] in *. by subst stkf.
  - intros i Hi. by apply Hmono, peek_poke_keeps.
  - by apply Hmono.
Qed.

Lemma weakInv_init n :
  length suppressedData = n -> inv (mkWeak (replicate n 0) []).
Proof.
  intros Hn. split; cbn [we_edge we_stack].
  - by rewrite length_replicate.
  - intros i v Hv. left. by eapply peek_replicate.
  - intros q _ Hq. apply peek_replicate in Hq. done.
  - intros p Hp. by apply elem_of_nil in Hp.
  - intros p q _ Hp. apply peek_replicate in Hp. done.
Qed.

Lemma hysteresis_scanned n :
  length suppressedData = n ->
  inv (mkWeak (hysteresis suppressedData n width height) []) /\
  forall p, strong p ->
    peek (hysteresis suppressedData n width height) (indexOf width p) = Some 255.
Proof.
  intros Hn. unfold hysteresis.
  set (body := fun y edgeData => forRange 1 (width - 1) _ edgeData).
  pose proof (weakInv_init n Hn) as H0.
  destruct (decide (1 <= height - 1)) as [Hh|Hh].
  2:{ rewrite forRange_nil by lia. split; [done|].
      intros p [[_ Hy] _]. lia. }
  assert (inv (mkWeak (forRange 1 (height - 1) body (replicate n 0)) []) /\
          forall p, strong p -> pt_y p < height - 1 ->
            peek (forRange 1 (height - 1) body (replicate n 0)) (indexOf width p)
            = Some 255) as [Hinv Hall].
  { apply (forRange_ind (fun y e => inv (mkWeak e []) /\
             forall p, strong p -> pt_y p < y -> peek e (indexOf width p) = Some 255));
      [done| |].
    { split; [done|]. intros p [[_ Hy] _] ?. lia. }
    intros y e Hy [He Hrows]. unfold body.
    destruct (decide (1 <= width - 1)) as [Hw|Hw].
    2:{ rewrite forRange_nil by lia. split; [done|].
        intros p Hp Hlt. destruct (decide (pt_y p < y)); [by apply Hrows|].
        destruct Hp as [[Hx _] _]. lia. }
    assert (let e' := forRange 1 (width - 1) (fun x edgeData =>
                let index := y * width + x in
                if decide (peek suppressedData index = Some 255)
                then traceWeakEdges suppressedData (poke index 255 edgeData)
                       width height x y
                else edgeData) e in
            inv (mkWeak e' []) /\
            (forall p, strong p -> pt_y p < y -> peek e' (indexOf width p) = Some 255) /\
            (forall p, strong p -> pt_y p = y -> pt_x p < width - 1 ->
               peek e' (indexOf width p) = Some 255)) as (He' & Hrows' & Hrow').
    { apply (forRange_ind (fun x e' => inv (mkWeak e' []) /\
               (forall p, strong p -> pt_y p < y -> peek e' (indexOf width p) = Some 255) /\
               (forall p, strong p -> pt_y p = y -> pt_x p < x ->
                  peek e' (indexOf width p) = Some 255))); [done| |].
      { split; [done|]. split; [done|]. intros p [[Hx _] _] _ ?. lia. }
      intros x e' Hx (Hi & Hr & Hc). cbv zeta.
      destruct (decide (peek suppressedData (y * width + x) = Some 255)) as [Hs|Hs].
      - destruct (traceWeakEdges_inv e' x y Hi) as (Hi' & Hm & Hxy);
          [unfold interior; lia|done|].
        split; [done|]. split; [intros p Hp Hlt; by apply Hm, Hr|].
        intros p Hp Hpy Hpx. destruct (decide (pt_x p < x)); [by apply Hm, Hc|].
        assert (p = mkPoint x y) as -> by (destruct p; simpl in *; f_equal; lia).
        exact Hxy.
      - split; [done|]. split; [done|].
        intros p Hp Hpy Hpx. destruct (decide (pt_x p < x)); [by apply Hc|].
        assert (p = mkPoint x y) as -> by (destruct p; simpl in *; f_equal; lia).
        by destruct Hp as [_ Hp]. }
    split; [done|]. intros p Hp Hlt.
    destruct (decide (pt_y p < y)); [by apply Hrows'|].
    apply Hrow'; [done|lia|]. destruct Hp as [[Hx _] _]. lia. }
  split; [done|]. intros p Hp. apply Hall; [done|]. destruct Hp as [[_ Hy] _]. lia.
Qed.

Lemma hysteresis_linked n q :
  length suppressedData = n -> inBounds width height q ->
  peek (hysteresis suppressedData n width height) (indexOf width q) = Some 255 <->
  linked q.
Proof.
  intros Hn Hq. destruct (hysteresis_scanned n Hn) as [Hinv Hstrong].
  split; [by apply (weak_sound _ _ _ _ Hinv)|].
  intros (p & Hp & Hchain).
  assert (inBounds width height q /\
          peek (hysteresis suppressedData n width height) (indexOf width q) = Some 255)
    as [_ H]; [|done].
  clear Hq. revert q Hchain.
  apply (rtc_ind_r (fun q => inBounds width height q /\
           peek (hysteresis suppressedData n width height) (indexOf width q) = Some 255)).
  - split; [|by apply Hstrong]. destruct Hp as [[Hx Hy] _].
    unfold inBounds. lia.
  - intros a b _ Hlink [Ha Hset]. split; [by destruct Hlink as [_ [Hb _]]|].
    apply (weak_closed _ _ _ _ Hinv a b); try done. apply not_elem_of_nil.
Qed.

End Hysteresis.

(** ** The loops of the edge detector, cell by cell *)

Lemma forRange_proj {S T} (proj : S -> T) lo hi (body : Z -> S -> S)
    (body' : Z -> T -> T) init :
  (forall i s, lo <= i < hi -> proj (body i s) = body' i (proj s)) ->
  proj (forRange lo hi body init) = forRange lo hi body' (proj init).
Proof.
  intros H. destruct (decide (lo <= hi)) as [Hle|Hgt].
  - apply (forRange_ind (fun i s => proj s = forRange lo i body' (proj init)));
      [done|by rewrite forRange_nil|].
    intros i s Hi Hs. rewrite forRange_snoc by lia. rewrite H by done. by rewrite Hs.
  - by rewrite !forRange_nil by lia.
Qed.

Lemma gradientMagnitude_raster (M : JSMath) grayData width height :
  gradientMagnitude (computeGradients M grayData width height) =
  rasterLoop width height (fun x y => Some (gradientAt M grayData width x y).1)
    (replicate (length grayData) (Some 0%Q)).
Proof.
  unfold computeGradients, rasterLoop.
  apply (forRange_proj gradientMagnitude). intros y g _.
  apply (forRange_proj gradientMagnitude). intros x g' _.
  unfold rasterWrite, gradientAt. cbv zeta.
  by destruct (convolve3 sobelX grayData width x y), (convolve3 sobelY grayData width x y).
Qed.

Lemma nonMaxSuppression_raster g n width height lowThreshold highThreshold :
  nonMaxSuppression g n width height lowThreshold highThreshold =
  rasterLoop width height (suppressedCell g width lowThreshold highThreshold)
    (replicate n 0).
Proof.
  unfold nonMaxSuppression, rasterLoop.
  apply forRange_ext. intros y s _. apply forRange_ext. intros x s' _.
  unfold rasterWrite, suppressedCell. cbv zeta.
  destruct (directionalNeighbours _ _ _) as [i1 i2].
  by destruct (cellGe _ _ && cellGe _ _).
Qed.

(** What non-maximum suppression leaves in a cell. *)
Lemma nonMaxSuppression_cell g n width height lowThreshold highThreshold i v :
  peek (nonMaxSuppression g n width height lowThreshold highThreshold) i = Some v ->
  v = 0 \/
  (interiorPoint width height (pixelOf width i) /\
   exists m, readCell (gradientMagnitude g) i = Some m /\
     (let '(i1, i2) :=
        directionalNeighbours (readCell (gradientDirection g) i) i width in
      cellGe (Some m) (readCell (gradientMagnitude g) i1) = true /\
      cellGe (Some m) (readCell (gradientMagnitude g) i2) = true) /\
     ((v = 255 /\ (highThreshold < m)%Q) \/
      (v = 128 /\ (lowThreshold < m)%Q /\ (m <= highThreshold)%Q))).
Proof.
  rewrite nonMaxSuppression_raster, peek_rasterLoop. unfold rasterCell.
  destruct (decide (interiorPoint _ _ _)) as [Hint|_];
    [|intros H%peek_replicate; by left].
  destruct (suppressedCell _ _ _ _ _ _) as [c|] eqn:Hc;
    [|intros H%peek_replicate; by left].
  case_decide; [|done]. intros [= ->].
  unfold suppressedCell in Hc. cbv zeta in Hc.
  assert (i / width * width + i mod width = i) as Hi.
  { apply index_of_div_mod. destruct Hint as [Hx _]. simpl in Hx. lia. }
  rewrite Hi in Hc.
  destruct (directionalNeighbours _ _ _) as [i1 i2].
  destruct (readCell (gradientMagnitude g) i) as [m|]; [|done].
  destruct (cellGe (Some m) _) eqn:H1; [|done].
  destruct (cellGe (Some m) (readCell _ i2)) eqn:H2; [|done].
  cbn [andb] in Hc. injection Hc as <-. cbn [cellLt].
  destruct (Qltb highThreshold m) eqn:Hhigh.
  - right. split; [done|]. exists m. split; [done|]. split; [done|].
    left. split; [done|]. by apply Qltb_lt.
  - destruct (Qltb lowThreshold m) eqn:Hlow; [|by left].
    right. split; [done|]. exists m. split; [done|]. split; [done|].
    right. split; [done|]. split; [by apply Qltb_lt|by apply Qltb_ge].
Qed.

Lemma length_nonMaxSuppression g n width height lowThreshold highThreshold :
  length (nonMaxSuppression g n width height lowThreshold highThreshold) = n.
Proof. by rewrite nonMaxSuppression_raster, length_rasterLoop, length_replicate. Qed.

Lemma nonMaxSuppression_interior g n width height lowThreshold highThreshold p v :
  inBounds width height p -> v <> 0 ->
  peek (nonMaxSuppression g n width height lowThreshold highThreshold)
    (indexOf width p) = Some v ->
  interiorPoint width height p.
Proof.
  intros Hp Hv Hpeek. apply nonMaxSuppression_cell in Hpeek as [->|[Hint _]]; [done|].
  rewrite pixelOf_index in Hint; [done|]. destruct Hp as (?&?&_). lia.
Qed.

Lemma applyCanny_hysteresis (M : JSMath) grayData width height low high :
  applyCannyEdgeDetection M grayData width height low high =
  hysteresis
    (nonMaxSuppression (computeGradients M grayData width height) (length grayData)
       width height low high)
    (length grayData) width height.
Proof. reflexivity. Qed.

Lemma applyCanny_inv (M : JSMath) grayData width height low high :
  weakInv
    (nonMaxSuppression (computeGradients M grayData width height) (length grayData)
       width height low high) width height
    (mkWeak (applyCannyEdgeDetection M grayData width height low high) []).
Proof.
  rewrite applyCanny_hysteresis.
  apply hysteresis_scanned, length_nonMaxSuppression.
Qed.

Lemma applyCanny_clearBorder (M : JSMath) grayData width height low high :
  clearBorder (applyCannyEdgeDetection M grayData width height low high) width height.
Proof.
  intros x y Hxy Hset.
  pose proof (applyCanny_inv M grayData width height low high) as Hinv.
  assert (inBounds width height (mkPoint x y)) as Hb.
  { unfold inBounds, inImage in *. simpl. lia. }
  destruct (weak_sound _ _ _ _ Hinv (mkPoint x y) Hb Hset) as (p & Hp & Hchain).
  apply rtc_inv_r in Hchain as [->|(a & _ & _ & _ & Hweak)].
  - by destruct Hp as [Hp _].
  - by apply (nonMaxSuppression_interior _ _ _ _ _ _ (mkPoint x y) 128) in Hweak.
Qed.

(** ** The edge detector *)

(** X4: the edge detector returns a mask as long as its input whose cells
    hold 0 or 255, and in which no pixel of the one-pixel border of the
    image is set. *)
Theorem applyCannyEdgeDetection_returns_clear_border_mask (M : JSMath)
    (grayData : list Z) (width height : Z) (lowThreshold highThreshold : Q) :
  length (applyCannyEdgeDetection M grayData width height lowThreshold highThreshold)
    = length grayData /\
  (forall i v,
     peek (applyCannyEdgeDetection M grayData width height lowThreshold highThreshold) i
       = Some v -> v = 0 \/ v = 255) /\
  clearBorder (applyCannyEdgeDetection M grayData width height lowThreshold highThreshold)
    width height.
Proof.
  pose proof (applyCanny_inv M grayData width height lowThreshold highThreshold) as Hinv.
  split_and!.
  - pose proof (weak_len _ _ _ _ Hinv) as Hlen. cbn [we_edge] in Hlen.
    rewrite Hlen. apply length_nonMaxSuppression.
  - apply (weak_bin _ _ _ _ Hinv).
  - apply applyCanny_clearBorder.
Qed.

(** X5: hysteresis.  A pixel of the image is set in the edge detector's
    output exactly when non-maximum suppression left it strong (255, off
    the border) or left it weak (128) and a chain of touching weak pixels
    leads to it from a strong one. *)
Theorem applyCannyEdgeDetection_keeps_weak_linked_to_strong (M : JSMath)
    (grayData : list Z) (width height : Z) (lowThreshold highThreshold : Q)
    (q : Point) :
  inBounds width height q ->
  peek (applyCannyEdgeDetection M grayData width height lowThreshold highThreshold)
    (indexOf width q) = Some 255 <->
  linkedToStrong
    (nonMaxSuppression (computeGradients M grayData width height) (length grayData)
       width height lowThreshold highThreshold) width height q.
Proof.
  intros Hq. rewrite applyCanny_hysteresis.
  apply hysteresis_linked; [apply length_nonMaxSuppression|done].
Qed.

Lemma applyCannyEdgeDetection_keeps_weak_linked_to_strong_witness :
  nonMaxSuppression (computeGradients approxMath exampleGray 5 5) 25 5 5 60 350
    = exampleSuppressed /\
  (peek (applyCannyEdgeDetection approxMath exampleGray 5 5 60 350)
     (indexOf 5 (mkPoint 2 2)) = Some 255 <->
   linkedToStrong
     (nonMaxSuppression (computeGradients approxMath exampleGray 5 5)
        (length exampleGray) 5 5 60 350) 5 5 (mkPoint 2 2)).
Proof.
  split; [by vm_compute|].
  apply (applyCannyEdgeDetection_keeps_weak_linked_to_strong approxMath exampleGray
           5 5 60 350 (mkPoint 2 2)).
  unfold inBounds. simpl. lia.
Defined.

(** X6: what non-maximum suppression leaves in a cell.  Every cell holds
    0, 128 or 255.  A cell that is not 0 belongs to a pixel off the border
    whose gradient magnitude is a number at least as large as the
    magnitudes of the two neighbours it is compared with; it holds 255
    only if the magnitude exceeds the high threshold, and 128 only if the
    magnitude exceeds the low threshold without exceeding the high one. *)
Theorem nonMaxSuppression_classifies (g : Gradients) (n : nat) (width height : Z)
    (lowThreshold highThreshold : Q) (i v : Z) :
  peek (nonMaxSuppression g n width height lowThreshold highThreshold) i = Some v ->
  v = 0 \/
  (interiorPoint width height (pixelOf width i) /\
   exists m, readCell (gradientMagnitude g) i = Some m /\
     (let '(i1, i2) :=
        directionalNeighbours (readCell (gradientDirection g) i) i width in
      cellGe (Some m) (readCell (gradientMagnitude g) i1) = true /\
      cellGe (Some m) (readCell (gradientMagnitude g) i2) = true) /\
     ((v = 255 /\ (highThreshold < m)%Q) \/
      (v = 128 /\ (lowThreshold < m)%Q /\ (m <= highThreshold)%Q))).
Proof. apply nonMaxSuppression_cell. Qed.

Lemma nonMaxSuppression_classifies_witness :
  peek (nonMaxSuppression exampleGradients 25 5 5 60 350) 12 = Some 128 /\
  (128 = 0 \/
   (interiorPoint 5 5 (pixelOf 5 12) /\
    exists m, readCell (gradientMagnitude exampleGradients) 12 = Some m /\
      (let '(i1, i2) :=
         directionalNeighbours (readCell (gradientDirection exampleGradients) 12) 12 5 in
       cellGe (Some m) (readCell (gradientMagnitude exampleGradients) i1) = true /\
       cellGe (Some m) (readCell (gradientMagnitude exampleGradients) i2) = true) /\
      ((128 = 255 /\ (350 < m)%Q) \/
       (128 = 128 /\ (60 < m)%Q /\ (m <= 350)%Q)))).
Proof.
  assert (peek (nonMaxSuppression exampleGradients 25 5 5 60 350) 12 = Some 128) as H
    by (by vm_compute).
  split; [exact H|].
  exact (nonMaxSuppression_classifies exampleGradients 25 5 5 60 350 12 128 H).
Defined.

(** X7: when the low threshold is not below the high one, no pixel is
    weak, and the edge detector's output is exactly the set of strong
    pixels: a pixel of the image is set in the output if and only if
    non-maximum suppression left 255 in it. *)
Theorem applyCannyEdgeDetection_without_weak_band (M : JSMath)
    (grayData : list Z) (width height : Z) (lowThreshold highThreshold : Q)
    (q : Point) :
  (highThreshold <= lowThreshold)%Q -> inBounds width height q ->
  peek (applyCannyEdgeDetection M grayData width height lowThreshold highThreshold)
    (indexOf width q) = Some 255 <->
  peek (nonMaxSuppression (computeGradients M grayData width height) (length grayData)
          width height lowThreshold highThreshold) (indexOf width q) = Some 255.
Proof.
  intros Hth Hq. rewrite applyCanny_hysteresis.
  rewrite hysteresis_linked by (apply length_nonMaxSuppression || done).
  split.
  - intros (p & [_ Hp] & Hchain).
    apply rtc_inv_r in Hchain as [->|(a & _ & _ & _ & Hweak)]; [done|].
    apply nonMaxSuppression_cell in Hweak
      as [?|(_ & m & _ & _ & [[? _]|(_ & Hlow & Hhigh)])]; [done..|].
    exfalso. apply (Qlt_not_le _ _ Hlow).
    eapply Qle_trans; [exact Hhigh|exact Hth].
  - intros Hs. exists q. split; [|done]. split; [|done].
    by apply (nonMaxSuppression_interior _ _ _ _ _ _ q 255) in Hs.
Qed.

Lemma applyCannyEdgeDetection_without_weak_band_witness :
  peek (applyCannyEdgeDetection approxMath exampleGray 5 5 350 60)
    (indexOf 5 (mkPoint 2 2)) = Some 255 <->
  peek (nonMaxSuppression (computeGradients approxMath exampleGray 5 5)
          (length exampleGray) 5 5 350 60) (indexOf 5 (mkPoint 2 2)) = Some 255.
Proof.
  apply (applyCannyEdgeDetection_without_weak_band approxMath exampleGray 5 5 350 60
           (mkPoint 2 2)); [by vm_compute|unfold inBounds; simpl; lia].
Defined.

(** ** Images without edges *)

Lemma eq_replicate {A} (l : list A) n v :
  length l = n -> (forall i w, peek l i = Some w -> w = v) -> l = replicate n v.
Proof.
  intros Hlen Hall. apply list_eq_same_length with n; [by rewrite length_replicate|done|].
  intros i x y Hi Hx Hy. apply lookup_replicate in Hy as [-> _].
  apply (Hall (Z.of_nat i)). unfold peek. rewrite decide_True by lia.
  by rewrite Nat2Z.id.
Qed.

Lemma windowCell_replicate n v width x y kx ky :
  is_Some (peek (replicate n v) ((y + ky) * width + (x + kx))) ->
  windowCell (replicate n v) width x y kx ky = v.
Proof.
  intros [w Hw]. unfold windowCell. rewrite Hw. simpl. by eapply peek_replicate.
Qed.

Lemma weightedSum_replicate kernel n v width x y :
  windowDefined (replicate n v) width x y ->
  weightedSum kernel (replicate n v) width x y =
  v * (kernelAt kernel (-1) (-1) + kernelAt kernel (-1) 0 + kernelAt kernel (-1) 1
       + kernelAt kernel 0 (-1) + kernelAt kernel 0 0 + kernelAt kernel 0 1
       + kernelAt kernel 1 (-1) + kernelAt kernel 1 0 + kernelAt kernel 1 1).
Proof.
  intros Hdef. unfold weightedSum.
  rewrite !windowCell_replicate by (apply Hdef; lia). lia.
Qed.

Lemma sobel_replicate n v width x y gx gy :
  convolve3 sobelX (replicate n v) width x y = Some gx ->
  convolve3 sobelY (replicate n v) width x y = Some gy ->
  gx = 0 /\ gy = 0.
Proof.
  intros [Hdef ->]%convolve3_Some [_ ->]%convolve3_Some.
  rewrite !weightedSum_replicate by done. split.
  - change (kernelAt sobelX (-1) (-1) + kernelAt sobelX (-1) 0 + kernelAt sobelX (-1) 1
       + kernelAt sobelX 0 (-1) + kernelAt sobelX 0 0 + kernelAt sobelX 0 1
       + kernelAt sobelX 1 (-1) + kernelAt sobelX 1 0 + kernelAt sobelX 1 1) with 0. lia.
  - change (kernelAt sobelY (-1) (-1) + kernelAt sobelY (-1) 0 + kernelAt sobelY (-1) 1
       + kernelAt sobelY 0 (-1) + kernelAt sobelY 0 0 + kernelAt sobelY 0 1
       + kernelAt sobelY 1 (-1) + kernelAt sobelY 1 0 + kernelAt sobelY 1 1) with 0. lia.
Qed.

Lemma flat_magnitude (M : JSMath) n v width height i m :
  (Math_fround M (Math_sqrt M 0) == 0)%Q ->
  readCell (gradientMagnitude (computeGradients M (replicate n v) width height)) i
    = Some m ->
  (m == 0)%Q.
Proof.
  intros Hzero. unfold readCell.
  rewrite gradientMagnitude_raster, peek_rasterLoop. unfold rasterCell.
  destruct (decide (interiorPoint _ _ _)) as [_|_].
  - case_decide; [|done]. unfold gradientAt.
    destruct (convolve3 sobelX _ _ _ _) as [gx|] eqn:Hx; [|done].
    destruct (convolve3 sobelY _ _ _ _) as [gy|] eqn:Hy; [|done].
    destruct (sobel_replicate _ _ _ _ _ _ _ Hx Hy) as [-> ->].
    simpl. by intros [= <-].
  - destruct (peek _ i) as [c|] eqn:Hc; [|done].
    apply peek_replicate in Hc as ->. simpl. by intros [= <-].
Qed.

Lemma hysteresis_no_strong suppressedData n width height :
  (forall i, peek suppressedData i <> Some 255) ->
  hysteresis suppressedData n width height = replicate n 0.
Proof.
  intros Hno. unfold hysteresis.
  apply (forRange_inv (fun e => e = replicate n 0)); [done|].
  intros y e _ ->.
  apply (forRange_inv (fun e => e = replicate n 0)); [done|].
  intros x e _ ->. cbv zeta. rewrite decide_False; [done|apply Hno].
Qed.

Lemma applyCanny_flat (M : JSMath) (n : nat) (v : Z)
    (width height : Z) (lowThreshold highThreshold : Q) :
  (Math_fround M (Math_sqrt M 0) == 0)%Q -> (0 <= highThreshold)%Q ->
  applyCannyEdgeDetection M (replicate n v) width height lowThreshold highThreshold
    = replicate n 0.
Proof.
  intros Hzero Hhigh. rewrite applyCanny_hysteresis.
  rewrite length_replicate. apply hysteresis_no_strong.
  intros i Hi. apply nonMaxSuppression_cell in Hi
    as [?|(_ & m & Hm & _ & [[_ Hlt]|[? _]])]; [done| |done].
  apply (flat_magnitude M n v width height i m Hzero) in Hm.
  rewrite Hm in Hlt. by apply (Qlt_not_le _ _ Hlt).
Qed.

(** X8: a buffer whose cells all hold the same value has no edges: when
    the high threshold is not negative (and the engine's square root of 0
    is 0), the edge detector returns the all-zero mask, for every width
    and height. *)
Theorem applyCannyEdgeDetection_flat_image (M : JSMath) (n : nat) (v : Z)
    (width height : Z) (lowThreshold highThreshold : Q) :
  (Math_fround M (Math_sqrt M 0) == 0)%Q -> (0 <= highThreshold)%Q ->
  applyCannyEdgeDetection M (replicate n v) width height lowThreshold highThreshold
    = replicate n 0.
Proof. apply applyCanny_flat. Qed.

Lemma applyCannyEdgeDetection_flat_image_witness :
  applyCannyEdgeDetection approxMath flatGray 3 3 60 140 = replicate 9 0.
Proof.
  apply (applyCannyEdgeDetection_flat_image approxMath 9 100 3 3 60 140); by vm_compute.
Defined.


(** ** A uniform change of brightness *)

Lemma peek_fmap {A B} (f : A -> B) (l : list A) i : peek (f <$> l) i = f <$> peek l i.
Proof. unfold peek. case_decide; [apply list_lookup_fmap|done]. Qed.

Lemma windowDefined_fmap (f : Z -> Z) data width x y :
  windowDefined (f <$> data) width x y <-> windowDefined data width x y.
Proof.
  unfold windowDefined. split; intros H kx ky Hkx Hky; specialize (H kx ky Hkx Hky);
    rewrite peek_fmap in *; by rewrite fmap_is_Some in *.
Qed.

Lemma convolve3_None kernel data width x y :
  ~ windowDefined data width x y -> convolve3 kernel data width x y = None.
Proof.
  intros Hno. destruct (convolve3 kernel data width x y) as [s|] eqn:E; [|done].
  by apply convolve3_Some in E as [? _].
Qed.

Lemma windowDefined_dec data width x y :
  windowDefined data width x y \/ ~ windowDefined data width x y.
Proof.
  destruct (convolve3 [] data width x y) as [s|] eqn:E.
  - left. by apply convolve3_Some in E as [? _].
  - right. intros H. by rewrite (convolve3_defined _ _ _ _ _ H) in E.
Qed.

Lemma convolve3_shift kernel data width x y c :
  kernelTotal kernel = 0 ->
  convolve3 kernel ((fun v => v + c) <$> data) width x y
  = convolve3 kernel data width x y.
Proof.
  intros Hk. destruct (windowDefined_dec data width x y) as [Hdef|Hno].
  - rewrite !convolve3_defined by (by try apply windowDefined_fmap).
    f_equal. unfold weightedSum, windowCell.
    assert (forall kx ky, -1 <= kx <= 1 -> -1 <= ky <= 1 ->
              default 0 (peek ((fun v => v + c) <$> data) ((y + ky) * width + (x + kx)))
              = default 0 (peek data ((y + ky) * width + (x + kx))) + c) as Hcell.
    { intros kx ky Hkx Hky. rewrite peek_fmap.
      by destruct (Hdef kx ky Hkx Hky) as [v ->]. }
    rewrite !Hcell by lia. unfold kernelTotal in Hk. lia.
  - rewrite !convolve3_None; [done|done|]. by rewrite windowDefined_fmap.
Qed.

(** X9: the edge mask does not change when the same constant is added to
    every pixel of the gray image: the Sobel kernels sum to 0. *)
Theorem applyCannyEdgeDetection_ignores_brightness_offset (M : JSMath)
    (grayData : list Z) (c width height : Z) (lowThreshold highThreshold : Q) :
  applyCannyEdgeDetection M ((fun v => v + c) <$> grayData) width height
    lowThreshold highThreshold
  = applyCannyEdgeDetection M grayData width height lowThreshold highThreshold.
Proof.
  unfold applyCannyEdgeDetection. cbv zeta. rewrite length_fmap.
  assert (computeGradients M ((fun v => v + c) <$> grayData) width height
          = computeGradients M grayData width height) as ->; [|done].
  unfold computeGradients. rewrite length_fmap.
  apply forRange_ext. intros y g _. apply forRange_ext. intros x g' _.
  by rewrite !convolve3_shift.
Qed.


(** ** The dilator on the edge detector's masks *)

(** X10: on a width x height mask with no set pixel on the border of the
    image (as the edge detector returns), n iterations of the dilator set
    exactly the pixels that lie within n steps, diagonal steps included, of
    a pixel set in the input: one more pixel in every direction per
    iteration, cut off at the border of the image. *)
Theorem applyDilation_grows_one_pixel_per_iteration (edgeData : list Z)
    (width height n x y : Z) :
  Z.of_nat (length edgeData) = width * height ->
  clearBorder edgeData width height ->
  0 <= n -> inImage width height x y ->
  peek (applyDilation edgeData width height n) (y * width + x) = Some 255 <->
  exists sx sy, inImage width height sx sy /\
    peek edgeData (sy * width + sx) = Some 255 /\ within n x y sx sy.
Proof. apply applyDilation_clearBorder. Qed.

Lemma applyDilation_grows_one_pixel_per_iteration_witness :
  peek (applyDilation (applyCannyEdgeDetection approxMath exampleGray 5 5 60 140)
          5 5 1) (1 * 5 + 0) = Some 255 <->
  exists sx sy, inImage 5 5 sx sy /\
    peek (applyCannyEdgeDetection approxMath exampleGray 5 5 60 140) (sy * 5 + sx)
      = Some 255 /\ within 1 0 1 sx sy.
Proof.
  apply (applyDilation_grows_one_pixel_per_iteration
           (applyCannyEdgeDetection approxMath exampleGray 5 5 60 140) 5 5 1 0 1);
    [by vm_compute|apply applyCanny_clearBorder|lia|unfold inImage; lia].
Defined.

(** ** The order of the contours *)

Section ScanOrder.
Context (edgeData : list Z) (width height : Z).

Local Abbreviation step := (traceStep edgeData width height).
Local Abbreviation set := (isSet edgeData width height).
Local Abbreviation inv := (scanInv edgeData width height).
Local Abbreviation ordered := (scanOrder edgeData width height).

Lemma traceContour_head visited x y :
  peek visited (y * width + x) = Some 0 ->
  peek edgeData (y * width + x) = Some 255 ->
  head (traceContour edgeData visited width height x y).2 = Some (mkPoint x y).
Proof.
  intros HV He. unfold traceContour, traceFuel. cbv zeta. cbn [snd].
  assert (step (mkTrace visited [] [mkPoint x y]) =
          Some (mkTrace (poke (y * width + x) 1 visited) [mkPoint x y]
                  (unvisitedNeighbours edgeData (poke (y * width + x) 1 visited)
                     width height x y ++ []))) as Hfirst.
  { unfold traceStep. cbn [tr_stack tr_visited tr_contour pt_x pt_y].
    by rewrite decide_True. }
  rewrite Nat.add_1_r. cbn [runLoop]. rewrite Hfirst.
  apply (runLoop_inv (fun s => head (tr_contour s) = Some (mkPoint x y))); [|done].
  intros s s' Hs Hstep. unfold traceStep in Hstep.
  destruct (tr_stack s) as [|p stk]; [done|].
  destruct (decide _); injection Hstep as <-; cbn [tr_contour]; [|done].
  destruct (tr_contour s); [done|]. done.
Qed.

Lemma traceContour_fresh visited x y q :
  inBounds width height (mkPoint x y) ->
  q ∈ (traceContour edgeData visited width height x y).2 ->
  set q /\ peek visited (indexOf width q) = Some 0.
Proof.
  intros Hb. unfold traceContour. cbv zeta. cbn [snd].
  set (final := runLoop _ _ _).
  assert (traceSafe edgeData width height visited final) as Hsafe.
  { apply runLoop_inv; [intros ? ? ?; by apply traceSafe_step|].
    by apply traceSafe_init. }
  intros Hq. destruct (safe_contour _ _ _ _ _ Hsafe q Hq) as (H0 & _ & He).
  split; [|done]. split; [|done]. apply (safe_bounds _ _ _ _ _ Hsafe). by left.
Qed.

Lemma scanPixel_contours x y st :
  0 <= x < width -> 0 <= y < height ->
  (scanPixel edgeData width height x y st).2 = st.2 \/
  exists c, (scanPixel edgeData width height x y st).2 = st.2 ++ [c] /\
    head c = Some (mkPoint x y) /\
    forall q, q ∈ c -> set q /\ peek st.1 (indexOf width q) = Some 0.
Proof.
  intros Hx Hy. destruct st as [visited contours]. unfold scanPixel.
  destruct (decide _) as [[He HV]|Hno]; [|by left].
  assert (inBounds width height (mkPoint x y)) as Hb by (unfold inBounds; simpl; lia).
  pose proof (traceContour_head visited x y HV He) as Hhead.
  pose proof (fun q => traceContour_fresh visited x y q Hb) as Hfresh.
  destruct (traceContour edgeData visited width height x y) as [V' c].
  cbn [fst snd] in *. case_decide; [|by left].
  right. by exists c.
Qed.

Lemma scanOrder_step x y st :
  0 <= x < width -> 0 <= y < height -> inv st ->
  ordered (mkPoint x y) st ->
  ordered (mkPoint (x + 1) y) (scanPixel edgeData width height x y st).
Proof.
  intros Hx Hy Hinv [Hvis Hheads Hsorted].
  destruct (scanPixel_inv edgeData width height x y st Hx Hy Hinv)
    as (_ & Hmono & Hhere).
  assert (forall c, c ∈ st.2 ->
            exists p, head c = Some p /\ inBounds width height p /\
              scansStrictlyBefore p (mkPoint (x + 1) y) /\
              forall q, q ∈ c -> scansBefore p q) as Hold.
  { intros c Hc. destruct (Hheads c Hc) as (p & Hp & Hb & Hlt & Hall).
    exists p. split_and!; try done. unfold scansStrictlyBefore in *. simpl in *. lia. }
  split.
  - intros p Hp Hlt.
    destruct (decide (pt_y p = y /\ pt_x p = x)) as [[Hpy Hpx]|Hne].
    + destruct Hp as [_ Hpe]. unfold indexOf in *. rewrite Hpy, Hpx in *.
      by apply Hhere.
    + apply Hmono, Hvis; [done|]. unfold scansStrictlyBefore in *. simpl in *. lia.
  - destruct (scanPixel_contours x y st Hx Hy) as [->|(c & -> & Hhead & Hfresh)];
      [done|].
    intros c' [Hc'| ->%list_elem_of_singleton]%elem_of_app; [by apply Hold|].
    exists (mkPoint x y). split_and!.
    + done.
    + unfold inBounds. simpl. lia.
    + unfold scansStrictlyBefore. simpl. lia.
    + intros q Hq. destruct (Hfresh q Hq) as [Hset H0].
      destruct (decide (scansStrictlyBefore q (mkPoint x y))) as [Hlt|Hge].
      * rewrite (Hvis q Hset Hlt) in H0. done.
      * unfold scansBefore, scansStrictlyBefore in *. simpl in *. lia.
  - destruct (scanPixel_contours x y st Hx Hy) as [->|(c & -> & Hhead & Hfresh)];
      [done|].
    intros i j ci cj pi pj Hij Hi Hj Hpi Hpj.
    assert (i < length st.2)%nat as Hil.
    { apply lookup_lt_Some in Hj. rewrite length_app in Hj. simpl in Hj. lia. }
    rewrite lookup_app_l in Hi by done.
    destruct (decide (j < length st.2)%nat) as [Hjl|Hjl].
    + rewrite lookup_app_l in Hj by done. by apply (Hsorted i j ci cj pi pj).
    + rewrite lookup_app_r in Hj by lia.
      destruct (j - length st.2)%nat; [|done]. injection Hj as <-.
      rewrite Hhead in Hpj. injection Hpj as <-.
      destruct (Hheads ci) as (p & Hp & _ & Hlt & _).
      { eapply list_elem_of_lookup_2. exact Hi. }
      congruence.
Qed.

Lemma findContours_ordered :
  exists visited,
    ordered (mkPoint 0 height) (visited, findContours edgeData width height).
Proof.
  unfold findContours. cbv zeta.
  set (body := fun y st => forRange 0 width
                 (fun x st => scanPixel edgeData width height x y st) st).
  set (final := forRange 0 height body (replicate (length edgeData) 0, [])).
  exists final.1.
  assert (ordered (mkPoint 0 0) (replicate (length edgeData) 0, [])) as H0.
  { split; simpl.
    - intros p [(? & _ & ? & _) _] Hlt. unfold scansStrictlyBefore in Hlt. simpl in Hlt. lia.
    - intros c Hc. by apply elem_of_nil in Hc.
    - intros i j ci cj pi pj _ Hi. done. }
  assert (forall y st, ordered (mkPoint width y) st \/ (width <= 0 /\ ordered (mkPoint 0 y) st) ->
            ordered (mkPoint 0 (y + 1)) st) as Hrow.
  { intros y st H. split.
    - intros p Hp Hlt. destruct Hp as [(? & ? & ? & ?) Hpe].
      destruct H as [[Hvis _ _]|[Hw [Hvis _ _]]]; [|lia].
      apply Hvis; [by split|]. unfold scansStrictlyBefore in *. simpl in *. lia.
    - intros c Hc.
      assert (exists p, head c = Some p /\ inBounds width height p /\
                (scansStrictlyBefore p (mkPoint width y) \/
                 scansStrictlyBefore p (mkPoint 0 y)) /\
                forall q, q ∈ c -> scansBefore p q) as (p & Hp & Hb & Hlt & Hall).
      { destruct H as [[_ Hh _]|[_ [_ Hh _]]];
          destruct (Hh c Hc) as (p & ? & ? & ? & ?); exists p; auto. }
      exists p. split_and!; try done.
      destruct Hb as (? & ? & ? & ?).
      unfold scansStrictlyBefore in *. simpl in *. lia.
    - destruct H as [[_ _ Hs]|[_ [_ _ Hs]]]; exact Hs. }
  destruct (decide (0 <= height)) as [Hh|Hh].
  2:{ subst final. rewrite forRange_nil by lia. cbn [fst].
      split; simpl.
      - intros p [(_ & _ & ? & ?) _]. lia.
      - intros c Hc. by apply elem_of_nil in Hc.
      - intros i j ci cj pi pj _ Hi. done. }
  assert (inv final /\ ordered (mkPoint 0 height) final) as [_ H]; [|by destruct final].
  apply (forRange_ind (fun y st => inv st /\ ordered (mkPoint 0 y) st)); [done| |].
  { split; [apply scanInv_init|done]. }
  intros y st Hy [Hinv Hord]. unfold body.
  destruct (decide (0 <= width)) as [Hw|Hw].
  - assert (inv (forRange 0 width (fun x st => scanPixel edgeData width height x y st) st) /\
            ordered (mkPoint width y)
              (forRange 0 width (fun x st => scanPixel edgeData width height x y st) st))
      as [Hi' Ho'].
    { apply (forRange_ind (fun x st => inv st /\ ordered (mkPoint x y) st)); [done|done|].
      intros x s Hx [Hs Ho]. split.
      - by apply scanPixel_inv.
      - by apply scanOrder_step. }
    split; [done|]. apply Hrow. by left.
  - rewrite forRange_nil by lia. split; [done|]. apply Hrow. right. split; [lia|done].
Qed.

End ScanOrder.

(** X11: every contour the tracer returns starts with the first pixel of its
    component in the order of the scan (the leftmost pixel of its topmost
    row), and the contours are listed in the scan order of these first
    pixels. *)
Theorem findContours_lists_in_scan_order (edgeData : list Z) (width height : Z) :
  (forall c, c ∈ findContours edgeData width height ->
     exists p, head c = Some p /\ forall q, q ∈ c -> scansBefore p q) /\
  (forall (i j : nat) ci cj pi pj, (i < j)%nat ->
     findContours edgeData width height !! i = Some ci ->
     findContours edgeData width height !! j = Some cj ->
     head ci = Some pi -> head cj = Some pj -> scansStrictlyBefore pi pj).
Proof.
  destruct (findContours_ordered edgeData width height) as (V & [_ Hheads Hsorted]).
  split; [|exact Hsorted].
  intros c Hc. destruct (Hheads c Hc) as (p & Hp & _ & _ & Hall). by exists p.
Qed.

(** ** The contract of traceContour *)

(** X12: the contract of [traceContour].  Started at a set pixel whose
    8-connected component holds no visited pixel, it returns the pixels of
    that component, each once and the start pixel first, and it marks
    exactly these pixels in the visited-mask, leaving every other cell and
    the length of the mask as they were. *)
Theorem traceContour_returns_component (edgeData visited : list Z)
    (width height : Z) (start : Point) :
  isSet edgeData width height start ->
  length visited = length edgeData -> binaryMask visited ->
  (forall q, connected edgeData width height start q ->
             peek visited (indexOf width q) = Some 0) ->
  head (traceContour edgeData visited width height (pt_x start) (pt_y start)).2
    = Some start /\
  NoDup (traceContour edgeData visited width height (pt_x start) (pt_y start)).2 /\
  (forall q,
     q ∈ (traceContour edgeData visited width height (pt_x start) (pt_y start)).2 <->
     connected edgeData width height start q) /\
  length (traceContour edgeData visited width height (pt_x start) (pt_y start)).1
    = length visited /\
  (forall q,
     q ∈ (traceContour edgeData visited width height (pt_x start) (pt_y start)).2 ->
     peek (traceContour edgeData visited width height (pt_x start) (pt_y start)).1
       (indexOf width q) = Some 1) /\
  (forall i,
     (forall q,
        q ∈ (traceContour edgeData visited width height (pt_x start) (pt_y start)).2 ->
        indexOf width q <> i) ->
     peek (traceContour edgeData visited width height (pt_x start) (pt_y start)).1 i
     = peek visited i).
Proof.
  intros Hstart Hlen Hbin Hfresh. destruct Hstart as [Hb He].
  pose proof (fun q => traceContour_component edgeData width height visited start
                (conj Hb He) Hlen Hbin Hfresh q Hb) as Hcomp.
  pose proof (traceContour_head edgeData width height visited (pt_x start) (pt_y start))
    as Hhead.
  assert (mkPoint (pt_x start) (pt_y start) = start) as Heq by (by destruct start).
  rewrite Heq in Hhead.
  assert (traceSafe edgeData width height visited
            (runLoop (traceStep edgeData width height) (traceFuel visited)
               (mkTrace visited [] [mkPoint (pt_x start) (pt_y start)]))) as Hsafe.
  { apply runLoop_inv; [intros ? ? ?; by apply traceSafe_step|].
    apply traceSafe_init. by rewrite Heq. }
  destruct Hsafe as [Hl Hframe Hcont _ Hnd].
  unfold traceContour in *. cbv zeta in *. cbn [fst snd] in *.
  split_and!; try done.
  - apply Hhead; [|done]. apply Hfresh. done.
  - intros q Hq. by destruct (Hcont q Hq) as (_ & ? & _).
  - intros i Hi. destruct (Hframe i) as [?|(_ & p & Hp & Hpi)]; [done|].
    by destruct (Hi p Hp).
Qed.

Lemma traceContour_returns_component_witness :
  (traceContour tenPixelRow (replicate 36 0) 12 3 1 1).2
    = (fun x => mkPoint x 1) <$> seqZ 1 10 /\
  forall q,
    q ∈ (traceContour tenPixelRow (replicate 36 0) 12 3 1 1).2 <->
    connected tenPixelRow 12 3 (mkPoint 1 1) q.
Proof.
  split; [by vm_compute|].
  assert (isSet tenPixelRow 12 3 (mkPoint 1 1)) as Hset.
  { split; [unfold inBounds; simpl; lia|reflexivity]. }
  apply (traceContour_returns_component tenPixelRow (replicate 36 0) 12 3 (mkPoint 1 1)).
  - exact Hset.
  - reflexivity.
  - intros i v Hv. left. by eapply peek_replicate.
  - intros p Hp. destruct (connected_isSet _ _ _ _ _ Hset Hp) as [_ Hpe].
    apply peek_Some_range in Hpe. unfold peek. rewrite decide_True by lia.
    apply lookup_replicate. split; [done|]. simpl in Hpe. simpl. lia.
Defined.


(** ** The bounding box *)

Lemma leastOf_spec (l : list Z) :
  l <> [] -> leastOf l ∈ l /\ forall x, x ∈ l -> leastOf l <= x.
Proof.
  destruct l as [|a l]; [done|]. intros _. simpl.
  induction l as [|b l IH]; simpl.
  - split; [by left|]. intros x ->%list_elem_of_singleton. lia.
  - destruct IH as [Hin Hle]. split.
    + destruct (Z.min_spec b (foldr Z.min a l)) as [[_ ->]|[_ ->]].
      * right. by left.
      * apply elem_of_cons in Hin as [->|Hin]; [by left|]. right. by right.
    + intros x [->|[->|Hx]%elem_of_cons]%elem_of_cons.
      * etrans; [apply Z.le_min_r|]. apply Hle. by left.
      * apply Z.le_min_l.
      * etrans; [apply Z.le_min_r|]. apply Hle. by right.
Qed.

Lemma greatestOf_spec (l : list Z) :
  l <> [] -> greatestOf l ∈ l /\ forall x, x ∈ l -> x <= greatestOf l.
Proof.
  destruct l as [|a l]; [done|]. intros _. simpl.
  induction l as [|b l IH]; simpl.
  - split; [by left|]. intros x ->%list_elem_of_singleton. lia.
  - destruct IH as [Hin Hle]. split.
    + destruct (Z.max_spec b (foldr Z.max a l)) as [[_ ->]|[_ ->]].
      * apply elem_of_cons in Hin as [->|Hin]; [by left|]. right. by right.
      * right. by left.
    + intros x [->|[->|Hx]%elem_of_cons]%elem_of_cons.
      * etrans; [|apply Z.le_max_r]. apply Hle. by left.
      * apply Z.le_max_l.
      * etrans; [|apply Z.le_max_r]. apply Hle. by right.
Qed.

(** X13: the bounding box.  On an empty contour [getBoundingRect] throws.
    On any other it returns the tight box of the points: every point lies
    between x and x + width and between y and y + height, ends included,
    and each of the four sides holds a point of the contour.  (So a
    contour that spans k columns has width k - 1.) *)
Theorem getBoundingRect_tight (contour : list Point) :
  (contour = [] -> exists e, getBoundingRect contour = Throw e) /\
  (contour <> [] ->
   exists b, getBoundingRect contour = Ok b /\
     (forall p, p ∈ contour ->
        b_x b <= pt_x p <= b_x b + b_width b /\
        b_y b <= pt_y p <= b_y b + b_height b) /\
     (exists p, p ∈ contour /\ pt_x p = b_x b) /\
     (exists p, p ∈ contour /\ pt_x p = b_x b + b_width b) /\
     (exists p, p ∈ contour /\ pt_y p = b_y b) /\
     (exists p, p ∈ contour /\ pt_y p = b_y b + b_height b)).
Proof.
  split; [intros ->; by eexists|]. intros Hne.
  exists (spec_box contour). split; [by apply getBoundingRect_spec|].
  assert (pt_x <$> contour <> []) as Hxs by (by destruct contour).
  assert (pt_y <$> contour <> []) as Hys by (by destruct contour).
  destruct (leastOf_spec _ Hxs) as [Hx1 Hx2], (greatestOf_spec _ Hxs) as [Hx3 Hx4].
  destruct (leastOf_spec _ Hys) as [Hy1 Hy2], (greatestOf_spec _ Hys) as [Hy3 Hy4].
  unfold spec_box. cbn [b_x b_y b_width b_height].
  split_and!.
  - intros p Hp.
    assert (pt_x p ∈ pt_x <$> contour) as Hpx by (by apply list_elem_of_fmap_2).
    assert (pt_y p ∈ pt_y <$> contour) as Hpy by (by apply list_elem_of_fmap_2).
    specialize (Hx2 _ Hpx). specialize (Hx4 _ Hpx).
    specialize (Hy2 _ Hpy). specialize (Hy4 _ Hpy). lia.
  - apply list_elem_of_fmap in Hx1 as (p & Hp & Hin). by exists p.
  - apply list_elem_of_fmap in Hx3 as (p & Hp & Hin). exists p. split; [done|]. lia.
  - apply list_elem_of_fmap in Hy1 as (p & Hp & Hin). by exists p.
  - apply list_elem_of_fmap in Hy3 as (p & Hp & Hin). exists p. split; [done|]. lia.
Qed.

(** ** The selector on arbitrary lists of contours *)

Lemma considerContour_short M imageWidth imageHeight minArea borderPad best c :
  ~ longEnough c ->
  considerContour M imageWidth imageHeight minArea borderPad best c = Ok best.
Proof.
  intros Hc. unfold considerContour. rewrite decide_True; [done|].
  unfold longEnough in Hc. lia.
Qed.

Lemma findBestRectangle_filter M contours imageWidth imageHeight pct :
  findBestRectangle M contours imageWidth imageHeight pct =
  findBestRectangle M (filter longEnough contours) imageWidth imageHeight pct.
Proof.
  unfold findBestRectangle. cbv zeta. f_equal.
  set (f := fun acc contour => _).
  generalize (Ok None : outcome (option (Rect * Q))).
  induction contours as [|c contours IH]; intros acc; [done|].
  rewrite filter_cons. destruct (decide (longEnough c)) as [Hc|Hc]; simpl; [apply IH|].
  rewrite <- IH. f_equal. unfold f. destruct acc as [best|e]; [|done].
  cbn [mbind outcome_bind]. by apply considerContour_short.
Qed.

Lemma findBestRectangle_selection M contours imageWidth imageHeight pct :
  exists best,
    findBestRectangle M contours imageWidth imageHeight pct = Ok (fst <$> best) /\
    selectionOf M imageWidth imageHeight pct (filter longEnough contours) best.
Proof.
  rewrite findBestRectangle_filter.
  destruct (findBestRectangle_fold M imageWidth imageHeight pct
              (filter longEnough contours)) as (best & Hfold & Hsel).
  { apply Forall_forall. intros c Hc. by apply list_elem_of_filter in Hc as [Hc _]. }
  exists best. split; [|done].
  unfold findBestRectangle. cbv zeta. by rewrite Hfold.
Qed.

Lemma findBestRectangle_candidate M contours imageWidth imageHeight pct rect :
  findBestRectangle M contours imageWidth imageHeight pct = Ok (Some rect) ->
  exists c, c ∈ contours /\ longEnough c /\
    sel_survives imageWidth imageHeight pct c /\ rect = sel_rect M c.
Proof.
  destruct (findBestRectangle_selection M contours imageWidth imageHeight pct)
    as (best & -> & Hsel).
  destruct best as [[r s]|]; [|done]. simpl. intros [= <-].
  destruct Hsel as (i & c & Hi & Hc & -> & _).
  apply list_elem_of_lookup_2, list_elem_of_filter in Hi as [Hlong Hin].
  by exists c.
Qed.

(** X14: the selector never throws, whatever the list of contours: a
    contour with fewer than 4 points, an empty one included, is skipped
    before its bounding box is computed, and the result is the same as on
    the list without such contours. *)
Theorem findBestRectangle_skips_short_contours (M : JSMath)
    (contours : list (list Point)) (imageWidth imageHeight : Z) (minAreaPercent : Q) :
  (exists best, findBestRectangle M contours imageWidth imageHeight minAreaPercent
                = Ok best) /\
  findBestRectangle M contours imageWidth imageHeight minAreaPercent =
  findBestRectangle M (filter longEnough contours)
    imageWidth imageHeight minAreaPercent.
Proof.
  split; [|apply findBestRectangle_filter].
  destruct (findBestRectangle_selection M contours imageWidth imageHeight minAreaPercent)
    as (best & -> & _). by eexists.
Qed.

Lemma findBestRectangle_area M contours imageWidth imageHeight pct rect :
  findBestRectangle M contours imageWidth imageHeight pct = Ok (Some rect) ->
  (minAreaOf imageWidth imageHeight pct
   <= jsMul (inject_Z (r_width rect)) (inject_Z (r_height rect)))%Q.
Proof.
  intros (c & _ & _ & [Harea _] & ->)%findBestRectangle_candidate.
  apply Qnot_lt_le. exact Harea.
Qed.

(** A product of integers below [2 ^ 53] is exact. *)
Lemma jsMul_Z (a b : Z) :
  Z.abs (a * b) < 2 ^ 53 -> (jsMul (inject_Z a) (inject_Z b) == inject_Z (a * b))%Q.
Proof.
  intros H. unfold jsMul.
  rewrite (toDouble_eq _ (inject_Z (a * b))) by (by rewrite inject_Z_mult).
  by apply toDouble_Z.
Qed.

Lemma findBestRectangle_full_area M contours imageWidth imageHeight pct :
  0 <= imageWidth -> 0 <= imageHeight -> imageWidth * imageHeight < 2 ^ 53 ->
  (100 <= pct)%Q ->
  findBestRectangle M contours imageWidth imageHeight pct = Ok None.
Proof.
  intros Hw Hh Hsmall Hpct.
  destruct (findBestRectangle_selection M contours imageWidth imageHeight pct)
    as (best & Hrun & _).
  destruct best as [[rect s]|]; [|done]. exfalso. simpl in Hrun.
  pose proof (findBestRectangle_area _ _ _ _ _ _ Hrun) as Harea.
  apply findBestRectangle_insideBorder in Hrun as (Hx & Hy & Hxw & Hyh & Hrw & Hrh).
  pose proof (borderPadOf_nonneg _ _ Hw Hh) as Hpad.
  assert (r_width rect * r_height rect < imageWidth * imageHeight) as Hlt by nia.
  assert (0 <= r_width rect * r_height rect) as Hnn by nia.
  pose proof (jsMul_Z (r_width rect) (r_height rect) ltac:(lia)) as Erect.
  pose proof (jsMul_Z imageWidth imageHeight ltac:(lia)) as Eimg.
  unfold minAreaOf in Harea. unfold jsMul at 1 in Harea.
  rewrite (toDouble_eq _ _ (Qmult_comp _ _ Eimg _ _ (Qeq_refl _))) in Harea.
  fold (jsMul (inject_Z (imageWidth * imageHeight)) (jsDiv pct 100)) in Harea.
  rewrite Erect in Harea.
  assert (1 <= jsDiv pct 100)%Q as Hone.
  { unfold jsDiv. change 1%Q with (inject_Z 1). apply toDouble_ge_Z; [lia|].
    change (inject_Z 1) with 1%Q. apply Qle_shift_div_l; [done|]. lra. }
  assert (inject_Z (imageWidth * imageHeight)
          <= jsMul (inject_Z (imageWidth * imageHeight)) (jsDiv pct 100))%Q as Hmin.
  { unfold jsMul. apply toDouble_ge_Z; [lia|].
    assert (0 <= inject_Z (imageWidth * imageHeight))%Q
      by (change 0%Q with (inject_Z 0); rewrite <- Zle_Qle; lia).
    nra. }
  assert (inject_Z (r_width rect * r_height rect)
          < inject_Z (imageWidth * imageHeight))%Q by (by rewrite <- Zlt_Qlt).
  lra.
Qed.

(** ** The cropper on selected rectangles *)

Lemma cropRegion_exact (M : JSMath) (contours : list (list Point))
    (canvas : Canvas) (minAreaPercent insetMargin : Q) (rect : Rect) :
  0 <= canvas_width canvas <= 2147483647 ->
  0 <= canvas_height canvas <= 2147483647 ->
  (0 <= insetMargin)%Q ->
  findBestRectangle M contours (canvas_width canvas) (canvas_height canvas)
    minAreaPercent = Ok (Some rect) ->
  (0 <= clampedInset insetMargin (r_width rect) <= insetMargin /\
   0 <= clampedInset insetMargin (r_height rect) <= insetMargin /\
   cropX (cropRegion canvas rect insetMargin)
     == jsAdd (inject_Z (r_x rect)) (clampedInset insetMargin (r_width rect)) /\
   cropY (cropRegion canvas rect insetMargin)
     == jsAdd (inject_Z (r_y rect)) (clampedInset insetMargin (r_height rect)) /\
   cropWidth (cropRegion canvas rect insetMargin)
     == jsSub (inject_Z (r_width rect))
          (jsMul 2 (clampedInset insetMargin (r_width rect))) /\
   cropHeight (cropRegion canvas rect insetMargin)
     == jsSub (inject_Z (r_height rect))
          (jsMul 2 (clampedInset insetMargin (r_height rect))) /\
   inject_Z (r_width rect) / 2 <= cropWidth (cropRegion canvas rect insetMargin)
     <= inject_Z (r_width rect) /\
   inject_Z (r_height rect) / 2 <= cropHeight (cropRegion canvas rect insetMargin)
     <= inject_Z (r_height rect) /\
   cropX (cropRegion canvas rect insetMargin) + cropWidth (cropRegion canvas rect insetMargin)
     < inject_Z (canvas_width canvas) /\
   cropY (cropRegion canvas rect insetMargin) + cropHeight (cropRegion canvas rect insetMargin)
     < inject_Z (canvas_height canvas))%Q.
Proof.
  intros [Hcw Hcw'] [Hch Hch'] Hin Hsel.
  destruct (selected_axes _ _ _ _ _ Hcw Hch Hsel) as (Hx & Hw & Hxw & Hy & Hh & Hyh).
  unfold cropRegion, clampedInset. cbn [cropX cropY cropWidth cropHeight].
  pose proof (inset_nonneg insetMargin _ _ _ Hx Hw Hxw Hcw' Hin) as Hix.
  pose proof (inset_nonneg insetMargin _ _ _ Hy Hh Hyh Hch' Hin) as Hiy.
  pose proof (start_exact insetMargin _ _ _ Hx Hw Hxw Hcw' Hin) as Hsx.
  pose proof (start_exact insetMargin _ _ _ Hy Hh Hyh Hch' Hin) as Hsy.
  pose proof (size_exact insetMargin _ _ _ Hx Hw Hxw Hcw' Hin) as Hzx.
  pose proof (size_exact insetMargin _ _ _ Hy Hh Hyh Hch' Hin) as Hzy.
  pose proof (shrunk_bounds insetMargin _ _ _ Hx Hw Hxw Hcw' Hin) as Hbx.
  pose proof (shrunk_bounds insetMargin _ _ _ Hy Hh Hyh Hch' Hin) as Hby.
  pose proof (crop_inside insetMargin _ _ _ Hx Hw Hxw Hcw' Hin) as Hex.
  pose proof (crop_inside insetMargin _ _ _ Hy Hh Hyh Hch' Hin) as Hey.
  split; [exact Hix|]. split; [exact Hiy|]. split; [exact Hsx|]. split; [exact Hsy|].
  split; [exact Hzx|]. split; [exact Hzy|].
  split; [rewrite Hzx; exact Hbx|]. split; [rewrite Hzy; exact Hby|].
  split; [exact Hex|exact Hey].
Qed.

(** X15: for a rectangle the selector returns for a canvas (whose sides
    are at most 2^31 - 1, as every canvas's are) and an inset margin that
    is not negative, the clamps of the cropper do not act: the crop starts
    at the rectangle's corner moved inwards by the inset (the margin, or a
    quarter of the side if that is less), its size is the rectangle's less
    twice the inset - each sum, product and difference rounded to a
    double - which is between half the rectangle's side and the whole of
    it, and it ends inside the canvas. *)
Theorem cropRegion_of_selected_rectangle (M : JSMath) (contours : list (list Point))
    (canvas : Canvas) (minAreaPercent insetMargin : Q) (rect : Rect) :
  0 <= canvas_width canvas <= 2147483647 ->
  0 <= canvas_height canvas <= 2147483647 ->
  (0 <= insetMargin)%Q ->
  findBestRectangle M contours (canvas_width canvas) (canvas_height canvas)
    minAreaPercent = Ok (Some rect) ->
  (0 <= clampedInset insetMargin (r_width rect) <= insetMargin /\
   0 <= clampedInset insetMargin (r_height rect) <= insetMargin /\
   cropX (cropRegion canvas rect insetMargin)
     == jsAdd (inject_Z (r_x rect)) (clampedInset insetMargin (r_width rect)) /\
   cropY (cropRegion canvas rect insetMargin)
     == jsAdd (inject_Z (r_y rect)) (clampedInset insetMargin (r_height rect)) /\
   cropWidth (cropRegion canvas rect insetMargin)
     == jsSub (inject_Z (r_width rect))
          (jsMul 2 (clampedInset insetMargin (r_width rect))) /\
   cropHeight (cropRegion canvas rect insetMargin)
     == jsSub (inject_Z (r_height rect))
          (jsMul 2 (clampedInset insetMargin (r_height rect))) /\
   inject_Z (r_width rect) / 2 <= cropWidth (cropRegion canvas rect insetMargin)
     <= inject_Z (r_width rect) /\
   inject_Z (r_height rect) / 2 <= cropHeight (cropRegion canvas rect insetMargin)
     <= inject_Z (r_height rect) /\
   cropX (cropRegion canvas rect insetMargin) + cropWidth (cropRegion canvas rect insetMargin)
     < inject_Z (canvas_width canvas) /\
   cropY (cropRegion canvas rect insetMargin) + cropHeight (cropRegion canvas rect insetMargin)
     < inject_Z (canvas_height canvas))%Q.
Proof. apply cropRegion_exact. Qed.

Lemma cropRegion_of_selected_rectangle_witness :
  findBestRectangle approxMath [boxA] 40 40 20 = Ok (Some (sel_rect approxMath boxA)) /\
  cropRegion canvas40 (sel_rect approxMath boxA) 20
    = mkCrop (45 # 4) (45 # 4) (25 # 2) (25 # 2) /\
  (cropX (cropRegion canvas40 (sel_rect approxMath boxA) 20)
     == jsAdd (inject_Z (r_x (sel_rect approxMath boxA)))
          (clampedInset 20 (r_width (sel_rect approxMath boxA))))%Q.
Proof.
  assert (findBestRectangle approxMath [boxA] 40 40 20
          = Ok (Some (sel_rect approxMath boxA))) as Hsel by (by vm_compute).
  split; [exact Hsel|]. split; [by vm_compute|].
  apply (cropRegion_of_selected_rectangle approxMath [boxA] canvas40 20 20
           (sel_rect approxMath boxA)); [simpl; lia|simpl; lia|done|exact Hsel].
Defined.
(** ** The scaled canvas *)

Lemma Math_round_integer n : Math_round (inject_Z n) = n.
Proof.
  unfold Math_round.
  assert (inject_Z n + (1 # 2) == (2 * n + 1) # 2)%Q as ->.
  { unfold Qeq, Qplus, inject_Z. simpl. lia. }
  change (Qfloor ((2 * n + 1) # 2)) with ((2 * n + 1) / 2).
  symmetry. apply Z.div_unique with 1; lia.
Qed.

Lemma Math_round_comp a b : (a == b)%Q -> Math_round a = Math_round b.
Proof. intros H. unfold Math_round. apply Qfloor_comp. by rewrite H. Qed.

Lemma Math_round_mono a b : (a <= b)%Q -> Math_round a <= Math_round b.
Proof. intros H. unfold Math_round. apply Qfloor_resp_le. lra. Qed.

Lemma Math_round_nonneg q : (0 <= q)%Q -> 0 <= Math_round q.
Proof. intros Hq. change 0 with (Math_round 0). by apply Math_round_mono. Qed.

Lemma Math_round_near q n :
  (inject_Z n - (1 # 2) <= q)%Q -> (q < inject_Z n + (1 # 2))%Q -> Math_round q = n.
Proof.
  intros H1 H2. unfold Math_round.
  pose proof (Qfloor_le (q + (1 # 2))) as Hlo. pose proof (Qlt_floor (q + (1 # 2))) as Hhi.
  rewrite inject_Z_plus in Hhi. change (inject_Z 1) with 1%Q in Hhi.
  assert (inject_Z (Qfloor (q + (1 # 2))) < inject_Z (n + 1))%Q as Ha.
  { rewrite inject_Z_plus. change (inject_Z 1) with 1%Q. lra. }
  assert (inject_Z (n - 1) < inject_Z (Qfloor (q + (1 # 2))))%Q as Hb.
  { unfold Z.sub. rewrite inject_Z_plus. change (inject_Z (- (1))) with (-1)%Q. lra. }
  rewrite <- Zlt_Qlt in Ha, Hb. lia.
Qed.

Local Open Scope Q_scope.

(** The scale of an image whose longest side [L] is above 1400. *)
Lemma scale_large (L : Z) :
  (1400 < L < 2 ^ 32)%Z ->
  Qmin 1 (jsDiv 1400 (inject_Z L)) == jsDiv 1400 (inject_Z L) /\
  0 <= jsDiv 1400 (inject_Z L) <= 1 /\
  Math_round (jsMul (inject_Z L) (jsDiv 1400 (inject_Z L))) = 1400%Z.
Proof.
  intros HL.
  assert (1400 < inject_Z L) as HLq.
  { change 1400 with (inject_Z 1400). rewrite <- Zlt_Qlt. lia. }
  assert (inject_Z L < 4294967296) as HLq'.
  { change 4294967296 with (inject_Z (2 ^ 32)). rewrite <- Zlt_Qlt. lia. }
  set (x := 1400 / inject_Z L).
  assert (inject_Z L * x == 1400) as Hx by (subst x; field; lra).
  assert (0 < x) as Hx0 by (subst x; apply Qlt_shift_div_l; lra).
  assert (x < 1) as Hx1 by (subst x; apply Qlt_shift_div_r; lra).
  unfold jsDiv. fold x. set (s := toDouble x).
  assert (0 <= s <= 1) as Hs.
  { split; [apply toDouble_nonneg; lra|].
    change 1 with (inject_Z 1). apply toDouble_le_Z; [lia|lra|]. change (inject_Z 1) with 1. lra. }
  split; [apply Q.min_r; tauto|]. split; [done|].
  set (u := 2 ^ (-53)).
  assert (u == 1 # 9007199254740992) as Hu by reflexivity.
  assert (2 ^ (-1022) <= 1 # 9007199254740992) as Htiny by (by vm_compute).
  assert (1 # 9007199254740992 <= x) as Hxbig.
  { assert ((1 # 9007199254740992) * inject_Z L <= 1400) by nra.
    subst x. apply Qle_shift_div_l; lra. }
  pose proof (toDouble_relative x) as Hrel.
  rewrite (Qabs_pos x) in Hrel by lra. fold s u in Hrel.
  specialize (Hrel ltac:(lra)).
  apply Qabs_Qle_condition in Hrel as [Hr1 Hr2].
  set (y := inject_Z L * s).
  assert (1400 - 1400 * u <= y <= 1400 + 1400 * u) as [Hy1 Hy2].
  { subst y. split; nra. }
  pose proof (toDouble_relative y) as Hrel'.
  rewrite (Qabs_pos y) in Hrel' by lra. fold u in Hrel'.
  specialize (Hrel' ltac:(lra)).
  apply Qabs_Qle_condition in Hrel' as [Hr1' Hr2'].
  unfold jsMul. fold y. apply Math_round_near; change (inject_Z 1400) with 1400; nra.
Qed.

Lemma scale_small (L : Z) :
  (0 < L <= 1400)%Z -> Qmin 1 (jsDiv 1400 (inject_Z L)) == 1.
Proof.
  intros HL. apply Q.min_l. unfold jsDiv.
  change 1 with (inject_Z 1). apply toDouble_ge_Z; [lia|]. change (inject_Z 1) with 1.
  assert (0 < inject_Z L) by (change 0 with (inject_Z 0); rewrite <- Zlt_Qlt; lia).
  assert (inject_Z L <= 1400) by (change 1400 with (inject_Z 1400); rewrite <- Zle_Qle; lia).
  apply Qle_shift_div_l; lra.
Qed.

(** One side [a] of an image whose longest side is [L], scaled. *)
Lemma scaledSide_bounds (a L : Z) :
  (0 <= a <= L)%Z -> (0 < L < 2 ^ 32)%Z ->
  let r := Math_round (jsMul (inject_Z a) (Qmin 1 (jsDiv 1400 (inject_Z L)))) in
  (0 <= r <= a /\ r <= 1400 /\ (a = L -> r = Z.min 1400 L) /\ (L <= 1400 -> r = a))%Z.
Proof.
  intros Ha HL r.
  assert (0 <= inject_Z a) as Ha0 by (change 0 with (inject_Z 0); rewrite <- Zle_Qle; lia).
  assert (inject_Z a <= inject_Z L) as HaL by (rewrite <- Zle_Qle; lia).
  destruct (decide (L <= 1400)%Z) as [Hs|Hs].
  - assert (r = a) as ->; [|lia]. subst r.
    rewrite <- (Math_round_integer a) at 2. apply Math_round_comp.
    unfold jsMul. rewrite (toDouble_eq _ (inject_Z a)).
    + apply toDouble_Z. lia.
    + rewrite scale_small by lia. ring.
  - destruct (scale_large L ltac:(lia)) as (Hmin & [Hs0 Hs1] & HrL).
    set (s := jsDiv 1400 (inject_Z L)) in *.
    assert (r = Math_round (jsMul (inject_Z a) s)) as Hr.
    { subst r. apply Math_round_comp. unfold jsMul. apply toDouble_proper.
      by rewrite Hmin. }
    rewrite Hr. clear Hr r.
    assert (0 <= inject_Z a * s) as Hp0 by nra.
    assert (Math_round (jsMul (inject_Z a) s) <= Math_round (jsMul (inject_Z L) s))%Z as HleL.
    { apply Math_round_mono. unfold jsMul. apply toDouble_mono; [done|nra]. }
    assert (Math_round (jsMul (inject_Z a) s) <= a)%Z as Hlea.
    { rewrite <- (Math_round_integer a) at 2. apply Math_round_mono.
      unfold jsMul. apply toDouble_le_Z; [lia|done|nra]. }
    assert (0 <= Math_round (jsMul (inject_Z a) s))%Z as Hge.
    { apply Math_round_nonneg. unfold jsMul. by apply toDouble_nonneg. }
    split; [lia|]. split; [lia|]. split; [|lia].
    intros ->. rewrite HrL. lia.
Qed.

Lemma canvasSide_small (default n : Z) :
  (0 <= n <= 2147483647)%Z -> canvasSide default (inject_Z n) = n.
Proof.
  intros Hn. rewrite canvasSide_floor.
  - apply Qfloor_Z.
  - change 0 with (inject_Z 0). rewrite <- Zle_Qle. lia.
  - change 2147483647 with (inject_Z 2147483647). rewrite <- Zle_Qle. lia.
Qed.

Local Close Scope Q_scope.

Lemma scaledCanvas_bounds (img : HTMLImage) :
  0 <= img_width img < 2 ^ 32 -> 0 <= img_height img < 2 ^ 32 ->
  0 <= canvas_width (scaledCanvas img) <= img_width img /\
  0 <= canvas_height (scaledCanvas img) <= img_height img /\
  Z.max (canvas_width (scaledCanvas img)) (canvas_height (scaledCanvas img))
    = Z.min 1400 (Z.max (img_width img) (img_height img)) /\
  (Z.max (img_width img) (img_height img) <= 1400 ->
   canvas_width (scaledCanvas img) = img_width img /\
   canvas_height (scaledCanvas img) = img_height img).
Proof.
  intros Hw Hh. unfold scaledCanvas. cbv zeta. cbn [canvas_width canvas_height].
  set (L := Z.max (img_width img) (img_height img)).
  destruct (decide (L = 0)) as [HL|HL].
  - assert (img_width img = 0) as Hw0 by lia. assert (img_height img = 0) as Hh0 by lia.
    subst L. rewrite Hw0, Hh0. by vm_compute.
  - destruct (scaledSide_bounds (img_width img) L) as (Hw1 & Hw2 & Hw3 & Hw4); [lia..|].
    destruct (scaledSide_bounds (img_height img) L) as (Hh1 & Hh2 & Hh3 & Hh4); [lia..|].
    rewrite !canvasSide_small by lia.
    split; [done|]. split; [done|]. split; [|by auto].
    destruct (decide (img_height img <= img_width img)) as [Hle|Hgt].
    + rewrite Hw3 by lia.
      destruct (decide (L <= 1400)); [rewrite Hh4 by lia; lia|lia].
    + rewrite Hh3 by lia.
      destruct (decide (L <= 1400)); [rewrite Hw4 by lia; lia|lia].
Qed.

(** X16: the canvas the image is drawn on.  For an image whose width and
    height are below 2^32 (as an image's are), the longest side of the
    canvas is the image's longest side or 1400, whichever is less; neither
    side of the canvas exceeds the image's; and an image whose sides are
    both at most 1400 keeps its size.  The scale 1400 / longest and the
    products side * scale are rounded to doubles before [Math.round]. *)
Theorem scaledCanvas_fits_1400 (img : HTMLImage) :
  0 <= img_width img < 2 ^ 32 -> 0 <= img_height img < 2 ^ 32 ->
  0 <= canvas_width (scaledCanvas img) <= img_width img /\
  0 <= canvas_height (scaledCanvas img) <= img_height img /\
  Z.max (canvas_width (scaledCanvas img)) (canvas_height (scaledCanvas img))
    = Z.min 1400 (Z.max (img_width img) (img_height img)) /\
  (Z.max (img_width img) (img_height img) <= 1400 ->
   canvas_width (scaledCanvas img) = img_width img /\
   canvas_height (scaledCanvas img) = img_height img).
Proof. apply scaledCanvas_bounds. Qed.

Lemma scaledCanvas_fits_1400_witness :
  scaledCanvas narrowImage = mkCanvas 1400 31 (DrawImage narrowImage 1400 31) /\
  Z.max (canvas_width (scaledCanvas narrowImage)) (canvas_height (scaledCanvas narrowImage))
    = Z.min 1400 (Z.max (img_width narrowImage) (img_height narrowImage)).
Proof.
  split; [by vm_compute|].
  apply (scaledCanvas_fits_1400 narrowImage); simpl; lia.
Defined.

Lemma scaledCanvas_area (img : HTMLImage) :
  0 <= img_width img < 2 ^ 32 -> 0 <= img_height img < 2 ^ 32 ->
  0 <= canvas_width (scaledCanvas img) <= 1400 /\
  0 <= canvas_height (scaledCanvas img) <= 1400 /\
  canvas_width (scaledCanvas img) * canvas_height (scaledCanvas img) < 2 ^ 53.
Proof.
  intros Hw Hh. destruct (scaledCanvas_bounds img Hw Hh) as (Hcw & Hch & Hmax & _).
  split; [lia|]. split; [lia|]. nia.
Qed.

(** X17: with minAreaPercent at 100 or more no rectangle qualifies: once
    the image (with sides below 2^32) is decoded and drawn on a canvas
    that stays origin-clean, the promise resolves with the scaled image
    and its dimensions, whatever the image shows. *)
Theorem cropToInnerRectangle_full_area_never_crops (B : Browser) (M : JSMath)
    (imageUrl : string) (config : CropConfig) (img : HTMLImage) :
  loadImage B imageUrl = Some img -> getContext2d B 0 = true ->
  drawImageError B img = None -> securityError B img = None ->
  0 <= img_width img < 2 ^ 32 -> 0 <= img_height img < 2 ^ 32 ->
  (100 <= minAreaPercent config)%Q ->
  cropToInnerRectangle B M imageUrl config = Resolved (fallback (scaledCanvas img)).
Proof.
  intros Hload Hctx Hdraw Hclean Hw Hh Hpct.
  destruct (scaledCanvas_area img Hw Hh) as (Hcw & Hch & Harea).
  assert (toDataURL B (scaledCanvas img) = Ok (PngOf (scaledCanvas img))) as Hurl
    by (by apply toDataURL_clean).
  unfold cropToInnerRectangle. rewrite Hload, Hctx, Hdraw, Hurl. cbn [negb].
  destruct (processImageWithJavaScript _ _ _ _) as [p|e] eqn:Hrun; [|done].
  f_equal. unfold processImageWithJavaScript, locateRectangle in Hrun. cbv zeta in Hrun.
  destruct (getImageData B _) as [data|]; [|done]. cbn [mbind outcome_bind] in Hrun.
  rewrite findBestRectangle_full_area in Hrun by (done || lia).
  rewrite Hurl in Hrun. cbn [mbind outcome_bind] in Hrun. by injection Hrun as <-.
Qed.

Lemma cropToInnerRectangle_full_area_never_crops_witness :
  cropToInnerRectangle (browserShowing squarePixels) approxMath "plan.png"
    fullAreaConfig = Resolved (fallback (scaledCanvas planImage)).
Proof.
  apply (cropToInnerRectangle_full_area_never_crops (browserShowing squarePixels)
           approxMath "plan.png" fullAreaConfig planImage);
    [reflexivity|reflexivity|reflexivity|reflexivity|simpl; lia|simpl; lia|].
  by vm_compute.
Defined.

(** X18: whenever the promise resolves for an image whose width and height
    are below 2^32, the width and height it reports are not negative and
    not larger than the scaled canvas's, which are at most 1400. *)
Theorem cropToInnerRectangle_reports_at_most_canvas (B : Browser) (M : JSMath)
    (imageUrl : string) (config : CropConfig) (img : HTMLImage) (p : Processed) :
  loadImage B imageUrl = Some img ->
  0 <= img_width img < 2 ^ 32 -> 0 <= img_height img < 2 ^ 32 ->
  cropToInnerRectangle B M imageUrl config = Resolved p ->
  0 <= width p <= canvas_width (scaledCanvas img) /\
  0 <= height p <= canvas_height (scaledCanvas img) /\
  canvas_width (scaledCanvas img) <= 1400 /\
  canvas_height (scaledCanvas img) <= 1400.
Proof.
  intros Hload Hw Hh.
  destruct (scaledCanvas_area img Hw Hh) as (Hcw & Hch & _).
  unfold cropToInnerRectangle. rewrite Hload.
  destruct (negb _); [done|]. destruct (drawImageError B img); [done|].
  set (canvas := scaledCanvas img) in *. clearbody canvas.
  destruct (processImageWithJavaScript B M canvas config) as [q|e] eqn:Hrun.
  2: { destruct (toDataURL B canvas); [|done]. intros [= <-]. cbn [width height]. lia. }
  intros [= <-].
  unfold processImageWithJavaScript in Hrun.
  destruct (locateRectangle B M canvas config) as [[rect|]|] eqn:Hloc; [| |done];
    cbn [mbind outcome_bind] in Hrun.
  - destruct (cropWithPerspectiveTransform _ _ _ _) as [url|]; [|done].
    cbn [mbind outcome_bind] in Hrun. injection Hrun as <-. cbn [width height].
    unfold locateRectangle in Hloc. cbv zeta in Hloc.
    destruct (getImageData B canvas) as [data|]; [|done].
    cbn [mbind outcome_bind] in Hloc.
    apply findBestRectangle_insideBorder in Hloc as (Hx & Hy & Hxw & Hyh & Hrw & Hrh).
    pose proof (borderPadOf_nonneg (canvas_width canvas) (canvas_height canvas)).
    split_and!; lia.
  - destruct (toDataURL B canvas); [|done]. cbn [mbind outcome_bind] in Hrun.
    injection Hrun as <-. cbn [width height]. split_and!; lia.
Qed.

Lemma cropToInnerRectangle_reports_at_most_canvas_witness :
  exists p,
    cropToInnerRectangle (browserShowing squarePixels) approxMath "plan.png"
      DEFAULT_CROP_CONFIG = Resolved p /\
    width p = 10 /\ height p = 10 /\
    0 <= width p <= canvas_width (scaledCanvas planImage) /\
    0 <= height p <= canvas_height (scaledCanvas planImage).
Proof.
  eexists.
  assert (cropToInnerRectangle (browserShowing squarePixels) approxMath "plan.png"
            DEFAULT_CROP_CONFIG = Resolved _) as Hrun by (vm_compute; reflexivity).
  split; [exact Hrun|]. split; [reflexivity|]. split; [reflexivity|].
  destruct (cropToInnerRectangle_reports_at_most_canvas (browserShowing squarePixels)
              approxMath "plan.png" DEFAULT_CROP_CONFIG planImage _ eq_refl
              ltac:(simpl; lia) ltac:(simpl; lia) Hrun) as (Hw & Hh & _).
  split; [exact Hw|exact Hh].
Defined.


(** ** The stages on an all-black image *)
Lemma blurredValue_zeros n width x y : blurredValue (replicate n 0) width x y = 0.
Proof.
  unfold blurredValue.
  destruct (convolve3 gaussKernel _ _ _ _) as [s|] eqn:Hs; [|done].
  apply convolve3_Some in Hs as [Hdef ->].
  rewrite weightedSum_replicate by done. reflexivity.
Qed.

Lemma applyGaussianBlur_zeros n width height :
  applyGaussianBlur (replicate n 0) width height = replicate n 0.
Proof.
  apply eq_replicate.
  - rewrite applyGaussianBlur_raster, length_rasterLoop. by rewrite !length_replicate.
  - intros i w. rewrite applyGaussianBlur_raster, peek_rasterLoop. unfold rasterCell.
    rewrite blurredValue_zeros. repeat case_decide; try done.
    + by intros [= <-].
    + apply peek_replicate.
Qed.

Lemma applyDilation_zeros n width height iterations :
  applyDilation (replicate n 0) width height iterations = replicate n 0.
Proof.
  unfold applyDilation. induction (Z.to_nat iterations) as [|k IH]; [done|].
  simpl. rewrite IH. apply list_eq. intros j. apply dilateOnce_other.
  intros (x & y & dx & dy & _ & Hset & _). by apply peek_replicate in Hset.
Qed.

Lemma findContours_zeros n width height :
  findContours (replicate n 0) width height = [].
Proof.
  unfold findContours. cbv zeta. rewrite length_replicate.
  assert (forRange 0 height (fun y st =>
            forRange 0 width (fun x st =>
              scanPixel (replicate n 0) width height x y st) st)
            (replicate n 0, []) = (replicate n 0, [])) as ->; [|done].
  apply (forRange_inv (fun st => st = (replicate n 0, []))); [done|].
  intros y st _ ->.
  apply (forRange_inv (fun st => st = (replicate n 0, []))); [done|].
  intros x st _ ->. unfold scanPixel. rewrite decide_False; [done|].
  intros [H _]. by apply peek_replicate in H.
Qed.

Lemma convertToGrayscale_black (data : list Z) (n : nat) :
  length data = (4 * n)%nat ->
  (forall (k : nat) c, data !! k = Some c -> (k mod 4 <> 3)%nat -> c = 0) ->
  convertToGrayscale data = replicate n 0.
Proof.
  intros Hlen Hblack.
  destruct (convertToGrayscale_cells data) as [Hl Hcells].
  assert (length data / 4 = n)%nat as Hn.
  { rewrite Hlen, Nat.mul_comm. by apply Nat.div_mul. }
  rewrite Hn in Hl.
  apply eq_replicate; [done|]. intros i w Hw.
  apply peek_Some_range in Hw as Hr. rewrite Hl in Hr.
  assert (Z.of_nat (length data) / 4 = Z.of_nat n) as Hn'.
  { rewrite Hlen, Nat2Z.inj_mul, Z.mul_comm. by apply Z.div_mul. }
  assert (grayAt data i = Some 0) as Hg.
  { unfold grayAt, peek. rewrite !decide_True by lia.
    assert (forall j, (j < 3)%nat -> data !! (Z.to_nat (4 * i) + j)%nat = Some 0) as Hc.
    { intros j Hj.
      destruct (lookup_lt_is_Some_2 data (Z.to_nat (4 * i) + j)) as [c Hc]; [lia|].
      rewrite Hc. f_equal. apply (Hblack _ _ Hc).
      replace (Z.to_nat (4 * i) + j)%nat with (j + Z.to_nat i * 4)%nat by lia.
      rewrite Nat.Div0.mod_add. rewrite Nat.mod_small; lia. }
    pose proof (Hc 0%nat) as H0. pose proof (Hc 1%nat) as H1. pose proof (Hc 2%nat) as H2.
    rewrite Nat.add_0_r in H0. rewrite H0 by lia.
    replace (Z.to_nat (4 * i + 1)) with (Z.to_nat (4 * i) + 1)%nat by lia.
    replace (Z.to_nat (4 * i + 2)) with (Z.to_nat (4 * i) + 2)%nat by lia.
    rewrite H1, H2 by lia. reflexivity. }
  apply Hcells in Hg; [congruence|lia].
Qed.

(** X19: an all-black image is returned uncropped.  When the image decodes,
    the canvas is prepared, and every colour byte of its pixel data is 0
    (whatever the alpha bytes and the size of the image), the promise
    resolves with the scaled image and its dimensions, for every
    configuration whose high threshold is not negative. *)
Theorem cropToInnerRectangle_black_image (B : Browser) (M : JSMath)
    (imageUrl : string) (config : CropConfig) (img : HTMLImage) (data : list Z)
    (n : nat) :
  loadImage B imageUrl = Some img -> getContext2d B 0 = true ->
  drawImageError B img = None ->
  getImageData B (scaledCanvas img) = Ok data ->
  length data = (4 * n)%nat ->
  (forall (k : nat) c, data !! k = Some c -> (k mod 4 <> 3)%nat -> c = 0) ->
  (Math_fround M (Math_sqrt M 0) == 0)%Q -> (0 <= cannyHigh config)%Q ->
  cropToInnerRectangle B M imageUrl config = Resolved (fallback (scaledCanvas img)).
Proof.
  intros Hload Hctx Hdraw Hdata Hlen Hblack Hzero Hhigh.
  unfold cropToInnerRectangle. rewrite Hload, Hctx, Hdraw. cbn [negb].
  unfold processImageWithJavaScript, locateRectangle. cbv zeta.
  rewrite Hdata. cbn [mbind outcome_bind].
  rewrite (convertToGrayscale_black data n Hlen Hblack).
  rewrite applyGaussianBlur_zeros, applyCanny_flat by done.
  assert ((if decide (dilationIterations config > 0)
           then applyDilation (replicate n 0) (canvas_width (scaledCanvas img))
                  (canvas_height (scaledCanvas img)) (dilationIterations config)
           else replicate n 0) = replicate n 0) as ->.
  { case_decide; [apply applyDilation_zeros|done]. }
  rewrite findContours_zeros.
  rewrite toDataURL_clean by (by apply getImageData_clean in Hdata). reflexivity.
Qed.

Lemma blackPixels_colour_bytes (k : nat) c :
  blackPixels !! k = Some c -> (k mod 4 <> 3)%nat -> c = 0.
Proof.
  assert (forall n (k : nat) c,
            mjoin (replicate n [0; 0; 0; 255]) !! k = Some c ->
            (k mod 4 <> 3)%nat -> c = 0) as H.
  { induction n as [|n IH]; intros j d; [done|].
    cbn [replicate mjoin list_join]. rewrite lookup_app.
    destruct (decide (j < 4)%nat) as [Hj|Hj].
    - destruct j as [|[|[|[|j]]]]; simpl; try lia; try congruence.
    - rewrite lookup_ge_None_2 by (simpl; lia). cbn [length].
      intros Hd Hmod. apply (IH _ _ Hd).
      replace j with ((j - 4) + 1 * 4)%nat in Hmod by lia.
      by rewrite Nat.Div0.mod_add in Hmod. }
  exact (H 256%nat k c).
Qed.

Lemma cropToInnerRectangle_black_image_witness :
  cropToInnerRectangle (browserShowing blackPixels) approxMath "plan.png"
    DEFAULT_CROP_CONFIG = Resolved (fallback (scaledCanvas planImage)).
Proof.
  apply (cropToInnerRectangle_black_image (browserShowing blackPixels) approxMath
           "plan.png" DEFAULT_CROP_CONFIG planImage blackPixels 256);
    [reflexivity|reflexivity|reflexivity|reflexivity|reflexivity
    |exact blackPixels_colour_bytes|by vm_compute|by vm_compute].
Defined.

(** ** What the pipeline selects *)

Lemma locateRectangle_stages (B : Browser) (M : JSMath) (canvas : Canvas)
    (config : CropConfig) (bestRect : option Rect) :
  locateRectangle B M canvas config = Ok bestRect ->
  exists data,
    getImageData B canvas = Ok data /\
    findBestRectangle M
      (findContours
         (contourMask M config (convertToGrayscale data)
            (canvas_width canvas) (canvas_height canvas))
         (canvas_width canvas) (canvas_height canvas))
      (canvas_width canvas) (canvas_height canvas) (minAreaPercent config)
    = Ok bestRect.
Proof.
  unfold locateRectangle. cbv zeta.
  destruct (getImageData B canvas) as [data|]; [|done]. cbn [mbind outcome_bind].
  intros H. exists data. split; [done|]. exact H.
Qed.



(** ** The size of the crop canvas *)

(** X21: how far the cropped image is from the size reported with it.  For
    a selected rectangle on a canvas (whose sides are at most 2^31 - 1, as
    every canvas's are) and an inset margin that is not negative, the crop
    canvas is at least half as wide and half as high as the rectangle
    whose width and height are reported (halves rounded down), and never
    wider or higher than it. *)
Theorem processImage_crop_canvas_size (B : Browser) (M : JSMath)
    (canvas : Canvas) (config : CropConfig) (rect : Rect) :
  locateRectangle B M canvas config = Ok (Some rect) ->
  getContext2d B 1 = true ->
  0 <= canvas_width canvas <= 2147483647 ->
  0 <= canvas_height canvas <= 2147483647 ->
  (0 <= insetMargin config)%Q ->
  exists cropCanvas,
    processImageWithJavaScript B M canvas config =
      Ok (mkProcessed (PngOf cropCanvas) (r_width rect) (r_height rect)) /\
    r_width rect / 2 <= canvas_width cropCanvas <= r_width rect /\
    r_height rect / 2 <= canvas_height cropCanvas <= r_height rect.
Proof.
  intros Hloc Hctx Hcw Hch Hin.
  destruct (locateRectangle_stages _ _ _ _ _ Hloc) as (data & _ & Hsel).
  destruct (selected_axes _ _ _ _ _ (proj1 Hcw) (proj1 Hch) Hsel)
    as (Hx & Hw & Hxw & Hy & Hh & Hyh).
  destruct (cropRegion_exact M _ canvas _ (insetMargin config) rect Hcw Hch Hin Hsel)
    as (_ & _ & _ & _ & _ & _ & [Hw1 Hw2] & [Hh1 Hh2] & _).
  assert (forall side : Z, 0 <= side -> (0 <= inject_Z side / 2)%Q) as Hhalf.
  { intros side Hs. apply Qle_shift_div_l; [done|]. rewrite Qmult_0_l.
    change 0%Q with (inject_Z 0). by rewrite <- Zle_Qle. }
  pose proof (Hhalf _ Hw) as Hw0. pose proof (Hhalf _ Hh) as Hh0.
  assert (forall side : Z, side <= 2147483647 -> (inject_Z side <= 2147483647)%Q) as Hbig.
  { intros side Hs. change 2147483647%Q with (inject_Z 2147483647).
    by rewrite <- Zle_Qle. }
  pose proof (Hbig (r_width rect) ltac:(lia)) as Hw3.
  pose proof (Hbig (r_height rect) ltac:(lia)) as Hh3.
  eexists. split.
  - unfold processImageWithJavaScript. rewrite Hloc. cbn [mbind outcome_bind].
    unfold cropWithPerspectiveTransform. rewrite Hctx. cbv zeta.
    rewrite toDataURL_clean by (by apply locateRectangle_clean in Hloc).
    reflexivity.
  - cbn [canvas_width canvas_height].
    rewrite !canvasSide_floor by lra.
    assert (forall q (side : Z), (inject_Z side / 2 <= q)%Q -> (q <= inject_Z side)%Q ->
              side / 2 <= Qfloor q <= side) as Hfl.
    { intros q side H1 H2. split.
      - rewrite <- Qfloor_half. by apply Qfloor_resp_le.
      - rewrite <- (Qfloor_Z side). by apply Qfloor_resp_le. }
    split; apply Hfl; assumption.
Qed.

Lemma processImage_crop_canvas_size_witness :
  exists rect cropCanvas,
    locateRectangle (browserShowing squarePixels) approxMath (scaledCanvas planImage)
      DEFAULT_CROP_CONFIG = Ok (Some rect) /\
    processImageWithJavaScript (browserShowing squarePixels) approxMath
      (scaledCanvas planImage) DEFAULT_CROP_CONFIG =
      Ok (mkProcessed (PngOf cropCanvas) (r_width rect) (r_height rect)) /\
    r_width rect / 2 <= canvas_width cropCanvas <= r_width rect /\
    r_height rect / 2 <= canvas_height cropCanvas <= r_height rect.
Proof.
  eexists.
  assert (locateRectangle (browserShowing squarePixels) approxMath
            (scaledCanvas planImage) DEFAULT_CROP_CONFIG = Ok (Some _)) as Hsel
    by (vm_compute; reflexivity).
  assert (0 <= canvas_width (scaledCanvas planImage) <= 2147483647) as Hcw
    by (change (canvas_width (scaledCanvas planImage)) with 16; lia).
  assert (0 <= canvas_height (scaledCanvas planImage) <= 2147483647) as Hch
    by (change (canvas_height (scaledCanvas planImage)) with 16; lia).
  assert (0 <= insetMargin DEFAULT_CROP_CONFIG)%Q as Hin by done.
  destruct (processImage_crop_canvas_size (browserShowing squarePixels) approxMath
              (scaledCanvas planImage) DEFAULT_CROP_CONFIG _ Hsel eq_refl Hcw Hch Hin)
    as (cropCanvas & Hrun & Hw & Hh).
  exists cropCanvas. split; [exact Hsel|]. split; [exact Hrun|].
  split; [exact Hw|exact Hh].
Defined.

(** * Part XI: properties of the caller (leafletUtils.ts) *)

(** ** mirrorImage *)

(** X22: when [mirrorImage] resolves, its canvas has the size of the image
    it loaded, and the image is painted flipped onto exactly that canvas:
    the point (u, v) of the image lands at (width - u, v) when mirrorX is
    set, at (u, height - v) when mirrorY is set, at (width - u, height - v)
    when both are, and at (u, v) otherwise. *)
Theorem mirrorImage_flips_onto_canvas (P : MirrorBrowser) (source : ImageSource)
    (mirrorX mirrorY : bool) (canvas : MirrorCanvas) :
  mirrorImage P source mirrorX mirrorY = Fulfilled canvas ->
  mirrorLoad P source = Some (mirror_width canvas, mirror_height canvas) /\
  forall u v,
    paintedAt canvas u v =
    (if mirrorX then mirror_width canvas - u else u,
     if mirrorY then mirror_height canvas - v else v).
Proof.
  unfold mirrorImage. destruct (mirrorLoad P source) as [[w h]|]; [|done].
  destruct (negb _); [done|].
  destruct (mirrorDrawError P source); [by destruct mirrorX, mirrorY|].
  destruct mirrorX, mirrorY; intros [= <-]; (split; [done|]);
    intros u v; unfold paintedAt; cbn; f_equal; lia.
Qed.

Lemma mirrorImage_flips_onto_canvas_witness :
  mirrorImage mirrorBrowser (FromUrl "plan.png") true false
    = Fulfilled (mkMirror (FromUrl "plan.png") 16 16 (-1, 1) (-16, 0)) /\
  forall u v,
    paintedAt (mkMirror (FromUrl "plan.png") 16 16 (-1, 1) (-16, 0)) u v
    = (16 - u, v).
Proof.
  assert (mirrorImage mirrorBrowser (FromUrl "plan.png") true false
          = Fulfilled (mkMirror (FromUrl "plan.png") 16 16 (-1, 1) (-16, 0))) as H
    by reflexivity.
  split; [exact H|].
  apply (mirrorImage_flips_onto_canvas mirrorBrowser (FromUrl "plan.png") true false
           _ H).
Defined.

(** ** processHouseImage *)

Lemma mirrorImage_pending P source mirrorX mirrorY :
  mirrorImage P source mirrorX mirrorY = NeverSettles ->
  exists e, mirrorDrawError P source = Some e.
Proof.
  unfold mirrorImage. destruct (mirrorLoad P source) as [[w h]|]; [|done].
  destruct (negb _); [done|].
  destruct (mirrorDrawError P source) as [e|]; [by exists e|].
  by destruct mirrorX, mirrorY.
Qed.

(** X23: [processHouseImage] never rejects.  It stays pending only when
    mirroring is asked for and a drawing call on the mirror canvas throws
    (the load handler of [mirrorImage] catches nothing); without mirroring
    it always resolves. *)
Theorem processHouseImage_never_rejects (B : Browser) (M : JSMath)
    (P : MirrorBrowser) (imageUrl : string) (mirrorX mirrorY : bool) :
  (forall e, processHouseImage B M P imageUrl mirrorX mirrorY <> Failed e) /\
  (processHouseImage B M P imageUrl mirrorX mirrorY = NeverSettles ->
   mirrorX || mirrorY = true /\
   exists source e, mirrorDrawError P source = Some e) /\
  (mirrorX || mirrorY = false ->
   exists house, processHouseImage B M P imageUrl mirrorX mirrorY = Fulfilled house).
Proof.
  unfold processHouseImage. cbv zeta.
  destruct (mirrorX || mirrorY) eqn:Hm.
  - assert (forall e,
      match mirrorImage P (FromUrl imageUrl) mirrorX mirrorY with
      | Fulfilled canvas => Fulfilled (mkHouse (MirroredUrl canvas) None None)
      | Failed _ => Fulfilled (mkHouse (GivenUrl imageUrl) None None)
      | NeverSettles => NeverSettles
      end <> Failed e) as Hcaught.
    { intros e. by destruct (mirrorImage _ _ _ _). }
    assert (match mirrorImage P (FromUrl imageUrl) mirrorX mirrorY with
      | Fulfilled canvas => Fulfilled (mkHouse (MirroredUrl canvas) None None)
      | Failed _ => Fulfilled (mkHouse (GivenUrl imageUrl) None None)
      | NeverSettles => NeverSettles
      end = NeverSettles -> exists source e, mirrorDrawError P source = Some e) as Hpend.
    { destruct (mirrorImage _ _ _ _) eqn:E; try done. intros _.
      apply mirrorImage_pending in E as [e He]. by exists (FromUrl imageUrl), e. }
    split_and!; [|split; [done|]|done].
    + intros e. destruct (cropToInnerRectangle _ _ _ _) as [[u w h]|]; [|done].
      by destruct (mirrorImage P (FromData u) _ _).
    + destruct (cropToInnerRectangle _ _ _ _) as [[u w h]|]; [|by apply Hpend].
      destruct (mirrorImage P (FromData u) _ _) eqn:E; [done|by apply Hpend|].
      apply mirrorImage_pending in E as [e He]. by exists (FromData u), e.
  - split_and!.
    + intros e. by destruct (cropToInnerRectangle _ _ _ _) as [[u w h]|].
    + by destruct (cropToInnerRectangle _ _ _ _) as [[u w h]|].
    + intros _. destruct (cropToInnerRectangle _ _ _ _) as [[u w h]|]; by eexists.
Qed.

Lemma mirrorImage_source P source mirrorX mirrorY canvas :
  mirrorImage P source mirrorX mirrorY = Fulfilled canvas ->
  mirror_source canvas = source.
Proof.
  unfold mirrorImage. destruct (mirrorLoad P source) as [[w h]|]; [|done].
  destruct (negb _); [done|].
  destruct (mirrorDrawError P source); [by destruct mirrorX, mirrorY|].
  destruct mirrorX, mirrorY; by intros [= <-].
Qed.

(** X24: the size [processHouseImage] reports belongs to the picture it
    returns.  When a width is reported, the pipeline resolved, the width
    and height are the ones it reported, and the picture is the pipeline's
    image or its mirror image.  When no width is reported, no height is
    either, and the picture is the one at the URL passed in, or its mirror
    image. *)
Theorem processHouseImage_reports_pipeline_size (B : Browser) (M : JSMath)
    (P : MirrorBrowser) (url : string) (mirrorX mirrorY : bool)
    (house : HouseImage) :
  processHouseImage B M P url mirrorX mirrorY = Fulfilled house ->
  (forall w, house_width house = Some w ->
     exists cropped,
       cropToInnerRectangle B M url DEFAULT_CROP_CONFIG = Resolved cropped /\
       w = width cropped /\ house_height house = Some (height cropped) /\
       pictureOf (house_url house) = FromData (imageUrl cropped)) /\
  (house_width house = None ->
     house_height house = None /\
     pictureOf (house_url house) = FromUrl url).
Proof.
  unfold processHouseImage. cbv zeta.
  assert (forall house,
    (if mirrorX || mirrorY
     then match mirrorImage P (FromUrl url) mirrorX mirrorY with
          | Fulfilled canvas => Fulfilled (mkHouse (MirroredUrl canvas) None None)
          | Failed _ => Fulfilled (mkHouse (GivenUrl url) None None)
          | NeverSettles => NeverSettles
          end
     else Fulfilled (mkHouse (GivenUrl url) None None)) = Fulfilled house ->
    house_width house = None /\ house_height house = None /\
    pictureOf (house_url house) = FromUrl url) as Hcaught.
  { intros hs. destruct (mirrorX || mirrorY).
    - destruct (mirrorImage _ _ _ _) eqn:E; intros [= <-]; simpl; [|done].
      by rewrite (mirrorImage_source _ _ _ _ _ E).
    - by intros [= <-]. }
  destruct (cropToInnerRectangle _ _ _ _) as [[u w h]|] eqn:Hcrop.
  - destruct (mirrorX || mirrorY) eqn:Hm.
    + destruct (mirrorImage P (FromData u) _ _) eqn:E.
      * intros [= <-]. simpl. split; [|done]. intros w' [= <-].
        eexists. split; [done|]. simpl. by rewrite (mirrorImage_source _ _ _ _ _ E).
      * intros (Hw & Hh & Hp)%Hcaught.
        split; [by rewrite Hw|done].
      * done.
    + intros [= <-]. simpl. split; [|done]. intros w' [= <-]. by eexists.
  - intros (Hw & Hh & Hp)%Hcaught. split; [by rewrite Hw|done].
Qed.

Lemma processHouseImage_reports_pipeline_size_witness :
  exists house,
    processHouseImage (browserShowing blackPixels) approxMath mirrorBrowser
      "plan.png" true false = Fulfilled house /\
    house_width house = Some 16 /\
    (house_width house = None ->
     house_height house = None /\ pictureOf (house_url house) = FromUrl "plan.png").
Proof.
  eexists.
  assert (processHouseImage (browserShowing blackPixels) approxMath mirrorBrowser
            "plan.png" true false = Fulfilled _) as Hrun by (vm_compute; reflexivity).
  split; [exact Hrun|]. split; [reflexivity|].
  apply (processHouseImage_reports_pipeline_size (browserShowing blackPixels)
           approxMath mirrorBrowser "plan.png" true false _ Hrun).
Defined.

(** ** calculateOptimalImageBounds *)

(** X25: when the width or the height of the image is unknown or 0,
    [calculateOptimalImageBounds] returns the coordinates as they are,
    however many there are.  It throws exactly when both are known and not
    0 and the polygon has fewer than 3 corners. *)
Theorem calculateOptimalImageBounds_throws_only_without_corners (M : JSMath)
    (coordinates : list Coordinate) (imageWidth imageHeight : option Z) :
  (imageWidth = None \/ imageWidth = Some 0 \/
   imageHeight = None \/ imageHeight = Some 0 ->
   calculateOptimalImageBounds M coordinates imageWidth imageHeight
     = Ok (Some <$> coordinates)) /\
  ((exists e, calculateOptimalImageBounds M coordinates imageWidth imageHeight
              = Throw e) <->
   (exists w h, imageWidth = Some w /\ imageHeight = Some h /\ w <> 0 /\ h <> 0) /\
   (length coordinates < 3)%nat).
Proof.
  unfold calculateOptimalImageBounds.
  destruct imageWidth as [w|], imageHeight as [h|].
  2-4: (split; [done|]; split; [by intros [e ?]|]; by intros [(w' & h' & ? & ? & _) _]).
  destruct (Z.eqb_spec w 0) as [->|Hw]; cbn [orb].
  { split; [done|]. split; [by intros [e ?]|].
    by intros [(w' & h' & [= <-] & _ & ? & _) _]. }
  destruct (Z.eqb_spec h 0) as [->|Hh].
  { split; [done|]. split; [by intros [e ?]|].
    by intros [(w' & h' & _ & [= <-] & _ & ?) _]. }
  split; [intros [?|[[= ?]|[?|[= ?]]]]; done|].
  destruct coordinates as [|c0 [|c1 [|c2 rest]]]; cbn [lookup list_lookup length].
  - split; [intros _|by eexists]. split; [by exists w, h|lia].
  - split; [intros _|by eexists]. split; [by exists w, h|lia].
  - split; [intros _|by eexists]. split; [by exists w, h|lia].
  - cbv zeta. split; [by intros [e ?]|]. intros [_ ?]. lia.
Qed.

(** X26: for a polygon of four corners and an image of known size, the
    bounds are the four corners in their cyclic order, only rotated: by 3
    places whenever the image's aspect ratio width / height, as a double,
    is not above 1 - so whenever the image is not wider than high -
    whatever the polygon; for a wider image (as every image wider than
    high is, its width being below 2^53) by 2 places when the polygon's
    first side is computed longer than its second, and not at all
    otherwise. *)
Theorem calculateOptimalImageBounds_rotates_corners (M : JSMath)
    (c0 c1 c2 c3 : Coordinate) (w h : Z) :
  w <> 0 -> h <> 0 ->
  calculateOptimalImageBounds M [c0; c1; c2; c3] (Some w) (Some h) =
  Ok (Some <$> rotate
        (if Qltb 1 (jsDiv (inject_Z w) (inject_Z h))
         then if Qltb (sideLength M c1 c2) (sideLength M c0 c1) then 2 else 0
         else 3) [c0; c1; c2; c3]) /\
  (0 < w <= h ->
   calculateOptimalImageBounds M [c0; c1; c2; c3] (Some w) (Some h) =
   Ok (Some <$> rotate 3 [c0; c1; c2; c3])) /\
  (0 < h < w -> w < 2 ^ 53 ->
   calculateOptimalImageBounds M [c0; c1; c2; c3] (Some w) (Some h) =
   Ok (Some <$> rotate
         (if Qltb (sideLength M c1 c2) (sideLength M c0 c1) then 2 else 0)
         [c0; c1; c2; c3])).
Proof.
  intros Hw Hh.
  assert (calculateOptimalImageBounds M [c0; c1; c2; c3] (Some w) (Some h) =
          Ok (Some <$> rotate
                (if Qltb 1 (jsDiv (inject_Z w) (inject_Z h))
                 then if Qltb (sideLength M c1 c2) (sideLength M c0 c1) then 2 else 0
                 else 3) [c0; c1; c2; c3])) as Hrun.
  { unfold calculateOptimalImageBounds.
    destruct (Z.eqb_spec w 0) as [?|_]; [done|].
    destruct (Z.eqb_spec h 0) as [?|_]; [done|]. cbn [orb lookup list_lookup]. cbv zeta.
    destruct (Qltb 1 _), (Qltb (sideLength M c1 c2) _); reflexivity. }
  split; [exact Hrun|]. split.
  - intros Hwh. rewrite Hrun.
    assert (Qltb 1 (jsDiv (inject_Z w) (inject_Z h)) = false) as ->; [|done].
    apply Qltb_ge. unfold jsDiv.
    assert (0 < inject_Z w)%Q by (change 0%Q with (inject_Z 0); rewrite <- Zlt_Qlt; lia).
    assert (inject_Z w <= inject_Z h)%Q by (rewrite <- Zle_Qle; lia).
    change 1%Q with (inject_Z 1). apply toDouble_le_Z; [lia| |].
    + apply Qle_shift_div_l; [lra|]. lra.
    + change (inject_Z 1) with 1%Q. apply Qle_shift_div_r; [lra|]. lra.
  - intros Hwh Hbig. rewrite Hrun.
    assert (Qltb 1 (jsDiv (inject_Z w) (inject_Z h)) = true) as ->; [|done].
    apply Qltb_lt. unfold jsDiv.
    assert (0 < inject_Z h)%Q as Hh0
      by (change 0%Q with (inject_Z 0); rewrite <- Zlt_Qlt; lia).
    assert (inject_Z (2 ^ 53 - 1) / inject_Z (2 ^ 53 - 2) <= inject_Z w / inject_Z h)%Q
      as Hle.
    { apply Qle_shift_div_l; [exact Hh0|].
      assert (inject_Z (2 ^ 53 - 1) / inject_Z (2 ^ 53 - 2) * inject_Z h
              == inject_Z ((2 ^ 53 - 1) * h) / inject_Z (2 ^ 53 - 2))%Q as ->.
      { rewrite inject_Z_mult. unfold Qdiv. ring. }
      apply Qle_shift_div_r; [by vm_compute|].
      rewrite <- inject_Z_mult, <- Zle_Qle. nia. }
    assert (1 < toDouble (inject_Z (2 ^ 53 - 1) / inject_Z (2 ^ 53 - 2)))%Q as Hone
      by (by vm_compute).
    eapply Qlt_le_trans; [exact Hone|].
    apply toDouble_mono; [by vm_compute|exact Hle].
Qed.

Lemma calculateOptimalImageBounds_rotates_corners_witness :
  calculateOptimalImageBounds approxMath plotCorners (Some 400) (Some 600)
  = Ok [Some (0, 30); Some (0, 0); Some (20, 0); Some (20, 30)]%Q.
Proof.
  apply (calculateOptimalImageBounds_rotates_corners approxMath
           (0, 0)%Q (20, 0)%Q (20, 30)%Q (0, 30)%Q 400 600); lia.
Defined.
